(** * VSFS: a journaled toy file system

    A shallow embedding of the three programs of the repository
    ([Project/mkfs.c], [Project/journal.c], [Project/validator.c]) and the
    properties of the journal protocol, the transaction builder and the
    consistency checker that the design document states about them.

    Conventions of the embedding.
    - The image file is a list of bytes.  Every [read]/[write] of the
      sources is preceded by an [lseek] to an absolute offset (or is a
      [pread]), so the file offset is not part of the state.
    - [read] on a regular file returns the bytes that exist in the requested
      range (fewer than asked for at end of file); [write] stores all the
      bytes it is given, growing the file and zero-filling a hole if the
      offset lies past the end.
    - Multi-byte fields are little-endian (the structs are read and written
      by pointer casts on the target the programs are built for).
    - [uint32_t] arithmetic is written with its wrap-around; [size_t] and
      [off_t] values that provably stay below 2^63 are plain integers.
    - [exit(n)] is the result [Exit n]; an access outside a C array is the
      result [Undefined]. *)

From Stdlib Require Import ZArith List Lia Bool.
From Stdlib Require Import Strings.Byte Strings.String.
From stdpp Require Import base tactics option list strings.

#[local] Open Scope Z_scope.

(** ** Bytes and little-endian fields *)

Definition Z_of_byte (b : byte) : Z := Z.of_N (Byte.to_N b).

Definition byte_of_Z (z : Z) : byte :=
  match Byte.of_N (Z.to_N (z mod 256)) with
  | Some b => b
  | None => x00
  end.

#[global] Instance byte_eq_decision : EqDecision byte := Byte.byte_eq_dec.

(** [le_encode n z]: the [n] low bytes of [z], least significant first. *)
Fixpoint le_encode (n : nat) (z : Z) : list byte :=
  match n with
  | O => []
  | S n' => byte_of_Z z :: le_encode n' (z / 256)
  end.

Fixpoint le_decode (bs : list byte) : Z :=
  match bs with
  | [] => 0
  | b :: bs' => Z_of_byte b + 256 * le_decode bs'
  end.

Definition u8 (z : Z) : Z := z mod 2 ^ 8.
Definition u16 (z : Z) : Z := z mod 2 ^ 16.
Definition u32 (z : Z) : Z := z mod 2 ^ 32.

(** [slice off len l]: the bytes of [l] in [off, off+len) that exist. *)
Definition slice (off len : Z) (l : list byte) : list byte :=
  take (Z.to_nat len) (drop (Z.to_nat off) l).

(** [splice off data l]: [l] with [data] stored at offset [off]; a gap
    between the end of [l] and [off] is filled with zero bytes. *)
Definition splice (off : Z) (data l : list byte) : list byte :=
  take (Z.to_nat off) l
    ++ replicate (Z.to_nat off - length l)%nat x00
    ++ data
    ++ drop (Z.to_nat off + length data)%nat l.

Definition get8 (off : Z) (buf : list byte) : Z := le_decode (slice off 1 buf).
Definition get16 (off : Z) (buf : list byte) : Z := le_decode (slice off 2 buf).
Definition get32 (off : Z) (buf : list byte) : Z := le_decode (slice off 4 buf).
Definition put8 (off v : Z) (buf : list byte) : list byte := splice off (le_encode 1 v) buf.
Definition put16 (off v : Z) (buf : list byte) : list byte := splice off (le_encode 2 v) buf.
Definition put32 (off v : Z) (buf : list byte) : list byte := splice off (le_encode 4 v) buf.

Definition zeros (n : Z) : list byte := replicate (Z.to_nat n) x00.

(** [zseq lo len]: the values [lo, lo+1, ..., lo+len-1] of a counting loop. *)
Fixpoint zseq_from (lo : Z) (n : nat) : list Z :=
  match n with
  | O => []
  | S n' => lo :: zseq_from (lo + 1) n'
  end.

Definition zseq (lo len : Z) : list Z := zseq_from lo (Z.to_nat len).

(** ** Constants and on-disk structures shared by the three programs *)

Definition BLOCK_SIZE : Z := 4096.
Definition FS_MAGIC : Z := 0x56534653.
Definition JOURNAL_MAGIC : Z := 0x4A524E4C.
Definition NAME_LEN : Z := 28.
Definition JOURNAL_BLOCKS : Z := 16.

Definition INODE_SIZE : Z := 128.
Definition DIRENT_SIZE : Z := 32.
Definition JOURNAL_HEADER_SIZE : Z := 8.
Definition REC_HEADER_SIZE : Z := 4.
Definition DATA_RECORD_SIZE : Z := 4 + 4 + BLOCK_SIZE.
Definition COMMIT_RECORD_SIZE : Z := 4.

Definition REC_DATA : Z := 1.
Definition REC_COMMIT : Z := 2.

(** Byte offsets of the fields inside their structs. *)
Definition INODE_TYPE_OFF : Z := 0.
Definition INODE_LINKS_OFF : Z := 2.
Definition INODE_SIZE_OFF : Z := 4.
Definition INODE_DIRECT_OFF : Z := 8.
Definition DIRENT_INODE_OFF : Z := 0.
Definition DIRENT_NAME_OFF : Z := 4.

Record superblock := {
  sb_magic : Z;
  sb_block_size : Z;
  sb_total_blocks : Z;
  sb_inode_count : Z;
  sb_journal_block : Z;
  sb_inode_bitmap : Z;
  sb_data_bitmap : Z;
  sb_inode_start : Z;
  sb_data_start : Z
}.

(** [memcpy(&sb, buf, sizeof(struct superblock))]: nine 32-bit fields. *)
Definition parse_superblock (buf : list byte) : superblock :=
  {| sb_magic := get32 0 buf;
     sb_block_size := get32 4 buf;
     sb_total_blocks := get32 8 buf;
     sb_inode_count := get32 12 buf;
     sb_journal_block := get32 16 buf;
     sb_inode_bitmap := get32 20 buf;
     sb_data_bitmap := get32 24 buf;
     sb_inode_start := get32 28 buf;
     sb_data_start := get32 32 buf |}.

Definition encode_superblock (sb : superblock) : list byte :=
  le_encode 4 (sb_magic sb) ++ le_encode 4 (sb_block_size sb)
    ++ le_encode 4 (sb_total_blocks sb) ++ le_encode 4 (sb_inode_count sb)
    ++ le_encode 4 (sb_journal_block sb) ++ le_encode 4 (sb_inode_bitmap sb)
    ++ le_encode 4 (sb_data_bitmap sb) ++ le_encode 4 (sb_inode_start sb)
    ++ le_encode 4 (sb_data_start sb) ++ zeros (128 - 9 * 4).

(** The single geometry compiled into [mkfs.c] and [validator.c]. *)
Definition JOURNAL_BLOCK_IDX : Z := 1.
Definition INODE_BLOCKS : Z := 2.
Definition DATA_BLOCKS : Z := 64.
Definition INODE_BMAP_IDX : Z := JOURNAL_BLOCK_IDX + JOURNAL_BLOCKS.
Definition DATA_BMAP_IDX : Z := INODE_BMAP_IDX + 1.
Definition INODE_START_IDX : Z := DATA_BMAP_IDX + 1.
Definition DATA_START_IDX : Z := INODE_START_IDX + INODE_BLOCKS.
Definition TOTAL_BLOCKS : Z := DATA_START_IDX + DATA_BLOCKS.
Definition DIRECT_POINTERS : Z := 8.

Record inode := {
  i_type : Z;
  i_links : Z;
  i_size : Z;
  i_direct : list Z;
  i_ctime : Z;
  i_mtime : Z
}.

(** [inodes[idx]] read through the struct pointer into the inode area. *)
Definition parse_inode (area : list byte) (idx : Z) : inode :=
  let base := idx * INODE_SIZE in
  {| i_type := get16 (base + INODE_TYPE_OFF) area;
     i_links := get16 (base + INODE_LINKS_OFF) area;
     i_size := get32 (base + INODE_SIZE_OFF) area;
     i_direct := (fun d => get32 (base + INODE_DIRECT_OFF + 4 * d) area) <$> zseq 0 DIRECT_POINTERS;
     i_ctime := get32 (base + 40) area;
     i_mtime := get32 (base + 44) area |}.

Definition encode_inode (ino : inode) : list byte :=
  le_encode 2 (i_type ino) ++ le_encode 2 (i_links ino) ++ le_encode 4 (i_size ino)
    ++ concat (le_encode 4 <$> i_direct ino)
    ++ le_encode 4 (i_ctime ino) ++ le_encode 4 (i_mtime ino)
    ++ zeros (128 - (2 + 2 + 4 + 8 * 4 + 4 + 4)).

(** ** The backing store and the result of a call *)

Definition file := list byte.

Inductive result (A : Type) : Type :=
| Ok (a : A) (f : file)          (* the call returned [a], the file is [f] *)
| Exit (status : Z) (f : file)   (* the process called [exit(status)] *)
| Undefined.                     (* access outside an array *)
Arguments Ok {A} a f.
Arguments Exit {A} status f.
Arguments Undefined {A}.

Definition M (A : Type) : Type := file -> result A.

#[global] Instance M_ret : MRet M := fun A a f => Ok a f.

#[global] Instance M_bind : MBind M := fun A B k m f =>
  match m f with
  | Ok a f' => k a f'
  | Exit s f' => Exit s f'
  | Undefined => Undefined
  end.

Definition undefined {A} : M A := fun _ => Undefined.
Definition exit {A} (status : Z) : M A := fun f => Exit status f.

(** [lseek(fd, off, SEEK_SET); read(fd, buf, n)]: the bytes obtained. *)
Definition file_read (off n : Z) : M (list byte) :=
  fun f => Ok (slice off n f) f.

(** [lseek(fd, off, SEEK_SET); write(fd, data, n)]. *)
Definition file_write (off : Z) (data : list byte) : M unit :=
  fun f => Ok tt (splice off data f).

Module Journal.

(** *** [journal.c]: the block store *)

(** [read_block]: the offset is computed in 32 bits; the read loop either
    fills the block or meets end of file, which is fatal. *)
Definition read_block (block_num : Z) : M (list byte) :=
  let offset := u32 (block_num * BLOCK_SIZE) in
  buf ← file_read offset BLOCK_SIZE;
  if decide (Z.of_nat (length buf) = BLOCK_SIZE) then mret buf else exit 1.

Definition write_block (block_num : Z) (buf : list byte) : M unit :=
  let offset := u32 (block_num * BLOCK_SIZE) in
  file_write offset buf.

(** *** [journal.c]: [do_install] *)

(** The loop [for (i = 0; i < JOURNAL_BLOCKS; i++) read_block(sb.journal_block + i, jbuf + i * BLOCK_SIZE)];
    [jbuf] holds the blocks read so far. *)
Fixpoint load_journal (sb : superblock) (idxs : list Z) (jbuf : list byte) : M (list byte) :=
  match idxs with
  | [] => mret jbuf
  | i :: idxs' =>
      blk ← read_block (u32 (sb_journal_block sb + i));
      load_journal sb idxs' (jbuf ++ blk)
  end.

(** An element of the [pending] array: the target block and the pointer
    into [jbuf] (kept as the offset it points at). *)
Record pending_write := { block_no : Z; data : Z }.

(** The [for] loop run at a commit record. *)
Fixpoint apply_pending (sb : superblock) (jbuf : list byte) (pending : list pending_write) : M unit :=
  match pending with
  | [] => mret tt
  | p :: rest =>
      (if decide (block_no p < sb_total_blocks sb) then
         if decide (data p + BLOCK_SIZE <= Z.of_nat (length jbuf))
         then write_block (block_no p) (slice (data p) BLOCK_SIZE jbuf)
         else undefined
       else mret tt);;
      apply_pending sb jbuf rest
  end.

Inductive scan_next :=
| Continue (pos : Z) (pending : list pending_write)
| Break.

(** The body of the scan loop at position [pos]. *)
Definition scan_body (sb : superblock) (jbuf : list byte) (nbytes_used pos : Z)
    (pending : list pending_write) : M scan_next :=
  if decide (Z.of_nat (length jbuf) < pos + REC_HEADER_SIZE) then undefined else
  let rh_type := get16 pos jbuf in
  let rh_size := get16 (pos + 2) jbuf in
  if decide (pos + rh_size > nbytes_used) then mret Break else
  if decide (rh_type = REC_DATA) then
    let expected := REC_HEADER_SIZE + 4 + BLOCK_SIZE in
    if decide (rh_size ≠ expected) then mret (Continue (pos + rh_size) pending)
    else
      let p := pos + REC_HEADER_SIZE in
      if decide (Z.of_nat (length jbuf) < p + 4) then undefined else
      let block_no := get32 p jbuf in
      let data := p + 4 in
      mret (Continue (pos + rh_size) (pending ++ [{| block_no := block_no; data := data |}]))
  else if decide (rh_type = REC_COMMIT) then
    apply_pending sb jbuf pending;;
    mret (Continue (pos + rh_size) [])
  else mret (Continue (pos + rh_size) pending).

(** The scan loop; [None] when [fuel] iterations did not reach its end. *)
Fixpoint scan (fuel : nat) (sb : superblock) (jbuf : list byte) (nbytes_used pos : Z)
    (pending : list pending_write) (f : file) : option (result unit) :=
  match fuel with
  | O => None
  | S fuel' =>
      if decide (pos + REC_HEADER_SIZE <= nbytes_used) then
        match scan_body sb jbuf nbytes_used pos pending f with
        | Ok (Continue pos' pending') f' => scan fuel' sb jbuf nbytes_used pos' pending' f'
        | Ok Break f' => Some (Ok tt f')
        | Exit s f' => Some (Exit s f')
        | Undefined => Some Undefined
        end
      else Some (Ok tt f)
  end.

(** [memset(jbuf, 0, jsize)] followed by the two header stores. *)
Definition cleared_journal : list byte :=
  put32 4 JOURNAL_HEADER_SIZE (put32 0 JOURNAL_MAGIC (zeros (JOURNAL_BLOCKS * BLOCK_SIZE))).

Fixpoint store_journal (sb : superblock) (idxs : list Z) (jbuf : list byte) : M unit :=
  match idxs with
  | [] => mret tt
  | i :: idxs' =>
      write_block (u32 (sb_journal_block sb + i)) (slice (i * BLOCK_SIZE) BLOCK_SIZE jbuf);;
      store_journal sb idxs' jbuf
  end.

Definition do_install (fuel : nat) (sb : superblock) (f : file) : option (result unit) :=
  match load_journal sb (zseq 0 JOURNAL_BLOCKS) [] f with
  | Ok jbuf f1 =>
      let jh_magic := get32 0 jbuf in
      let jh_nbytes_used := get32 4 jbuf in
      if decide (jh_magic ≠ JOURNAL_MAGIC) then Some (Ok tt f1)
      else if decide (jh_nbytes_used <= JOURNAL_HEADER_SIZE) then Some (Ok tt f1)
      else
        match scan fuel sb jbuf jh_nbytes_used JOURNAL_HEADER_SIZE [] f1 with
        | Some (Ok _ f2) => Some (store_journal sb (zseq 0 JOURNAL_BLOCKS) cleared_journal f2)
        | other => other
        end
  | Exit s f1 => Some (Exit s f1)
  | Undefined => Some Undefined
  end.

(** *** [journal.c]: [do_create] *)

(** Result of the bitmap search: [chosen_inode] with the updated in-memory
    bitmap, [-1] (nothing free), or a read past the 4096-byte bitmap. *)
Inductive search_result :=
| Found (chosen_inode : Z) (ibmap : list byte)
| NotFound
| OutOfBounds.

(** The loop [for (idx = 0; idx < sb.inode_count; idx++)], with [n] iterations left. *)
Fixpoint find_free_inode (n : nat) (idx : Z) (ibmap : list byte) : search_result :=
  match n with
  | O => NotFound
  | S n' =>
      let mask := u8 (Z.shiftl 1 (idx mod 8)) in
      match ibmap !! Z.to_nat (idx / 8) with
      | None => OutOfBounds
      | Some b =>
          if decide (Z.land (Z_of_byte b) mask = 0)
          then Found idx (<[Z.to_nat (idx / 8) := byte_of_Z (Z.lor (Z_of_byte b) mask)]> ibmap)
          else find_free_inode n' (idx + 1) ibmap
      end
  end.

(** The loop over the directory entries of [dblock]: first [i] with
    [d[i].inode == 0 && d[i].name[0] == 0]. *)
Fixpoint find_free_dirent (idxs : list Z) (dblock : list byte) : option Z :=
  match idxs with
  | [] => None
  | i :: idxs' =>
      if decide (get32 (i * DIRENT_SIZE + DIRENT_INODE_OFF) dblock = 0
                 ∧ get8 (i * DIRENT_SIZE + DIRENT_NAME_OFF) dblock = 0)
      then Some i
      else find_free_dirent idxs' dblock
  end.

(** [strncpy(dst, src, n)], as the [n] bytes stored in [dst]: the characters
    of [src] before its terminator, at most [n] of them, then zero padding.
    A C string is the list of its bytes; it ends at its first null byte or
    at the end of the list. *)
Fixpoint strncpy (n : nat) (src : list byte) : list byte :=
  match n with
  | O => []
  | S n' =>
      match src with
      | [] => replicate n x00
      | c :: src' => if decide (c = x00) then replicate n x00 else c :: strncpy n' src'
      end
  end.

Definition encode_data_record (target_blk : Z) (src_buf : list byte) : list byte :=
  le_encode 2 REC_DATA ++ le_encode 2 DATA_RECORD_SIZE ++ le_encode 4 target_blk ++ src_buf.

Definition encode_commit_record : list byte :=
  le_encode 2 REC_COMMIT ++ le_encode 2 COMMIT_RECORD_SIZE.

(** The macro [WRITE_RECORD]; returns the advanced [write_pos]. *)
Definition WRITE_RECORD (write_pos target_blk : Z) (src_buf : list byte) : M Z :=
  file_write write_pos (encode_data_record target_blk src_buf);;
  mret (write_pos + DATA_RECORD_SIZE).

(** How [do_create] returned, with the diagnostic it printed. *)
Inductive create_outcome :=
| Created (chosen_inode : Z)
| NoFreeInodes
| DirectoryFull
| HeaderShortRead
| JournalFull.

Definition diagnostic (o : create_outcome) : option string :=
  match o with
  | NoFreeInodes => Some "Error: No free inodes"%string
  | DirectoryFull => Some "Error: Directory full"%string
  | JournalFull => Some "Journal full. Please run install."%string
  | Created _ | HeaderShortRead => None
  end.

Definition do_create (sb : superblock) (filename : list byte) : M create_outcome :=
  ibmap0 ← read_block (sb_inode_bitmap sb);
  match find_free_inode (Z.to_nat (sb_inode_count sb)) 0 ibmap0 with
  | OutOfBounds => undefined
  | NotFound => mret NoFreeInodes
  | Found chosen_inode ibmap =>
      let inodes_per_block := BLOCK_SIZE / INODE_SIZE in
      let new_inode_blk_offset := chosen_inode / inodes_per_block in
      let new_inode_real_block := u32 (sb_inode_start sb + new_inode_blk_offset) in
      new_inode_block0 ← read_block new_inode_real_block;
      let inode_idx_in_block := chosen_inode mod inodes_per_block in
      let slot := inode_idx_in_block * INODE_SIZE in
      let new_inode_block1 :=
        put32 (slot + INODE_SIZE_OFF) 0
          (put16 (slot + INODE_LINKS_OFF) 1
             (put16 (slot + INODE_TYPE_OFF) 1
                (splice slot (zeros INODE_SIZE) new_inode_block0))) in
      let bump_root_size blk :=
        put32 INODE_SIZE_OFF (u32 (get32 INODE_SIZE_OFF blk + DIRENT_SIZE)) blk in
      '(new_inode_block, root_inode_block, root_inode_needs_log) ←
        (if decide (new_inode_real_block = sb_inode_start sb)
         then mret (bump_root_size new_inode_block1, [], 0)
         else
           root_inode_block0 ← read_block (sb_inode_start sb);
           mret (new_inode_block1, bump_root_size root_inode_block0, 1));
      temp_root ← read_block (sb_inode_start sb);
      let root_dir_data_block := get32 INODE_DIRECT_OFF temp_root in
      dblock0 ← read_block root_dir_data_block;
      match find_free_dirent (zseq 0 (BLOCK_SIZE / DIRENT_SIZE)) dblock0 with
      | None => mret DirectoryFull
      | Some dir_index =>
          let dblock :=
            splice (dir_index * DIRENT_SIZE + DIRENT_NAME_OFF)
              (strncpy (Z.to_nat NAME_LEN) filename)
              (put32 (dir_index * DIRENT_SIZE + DIRENT_INODE_OFF) chosen_inode dblock0) in
          let journal_off := u32 (sb_journal_block sb * BLOCK_SIZE) in
          jh ← file_read journal_off JOURNAL_HEADER_SIZE;
          if decide (Z.of_nat (length jh) ≠ JOURNAL_HEADER_SIZE) then mret HeaderShortRead else
          let jh_magic := JOURNAL_MAGIC in
          let jh_nbytes_used :=
            if decide (get32 0 jh ≠ JOURNAL_MAGIC) then JOURNAL_HEADER_SIZE else get32 4 jh in
          let blocks_to_log := 3 + root_inode_needs_log in
          let transaction_size := blocks_to_log * DATA_RECORD_SIZE + COMMIT_RECORD_SIZE in
          if decide (jh_nbytes_used + transaction_size > JOURNAL_BLOCKS * BLOCK_SIZE)
          then mret JournalFull else
          let write_pos := u32 (journal_off + jh_nbytes_used) in
          write_pos ← WRITE_RECORD write_pos (sb_inode_bitmap sb) ibmap;
          write_pos ← WRITE_RECORD write_pos new_inode_real_block new_inode_block;
          write_pos ← (if decide (root_inode_needs_log ≠ 0)
                       then WRITE_RECORD write_pos (sb_inode_start sb) root_inode_block
                       else mret write_pos);
          write_pos ← WRITE_RECORD write_pos root_dir_data_block dblock;
          file_write write_pos encode_commit_record;;
          let write_pos := write_pos + COMMIT_RECORD_SIZE in
          let jh_nbytes_used := u32 (write_pos - journal_off) in
          file_write journal_off (le_encode 4 jh_magic ++ le_encode 4 jh_nbytes_used);;
          mret (Created chosen_inode)
      end
  end.

(** *** [journal.c]: [main] *)

Inductive command :=
| Install
| Create (filename : list byte).

(** [main] for the two recognised commands; the value is the status the
    process ends with when [main] returns. *)
Definition main (fuel : nat) (cmd : command) (f : file) : option (result Z) :=
  match read_block 0 f with
  | Ok temp_sb_buf f1 =>
      let sb := parse_superblock temp_sb_buf in
      if decide (sb_magic sb ≠ FS_MAGIC) then Some (Ok 1 f1)
      else
        match cmd with
        | Install =>
            match do_install fuel sb f1 with
            | Some (Ok _ f2) => Some (Ok 0 f2)
            | Some (Exit s f2) => Some (Exit s f2)
            | Some Undefined => Some Undefined
            | None => None
            end
        | Create filename =>
            match do_create sb filename f1 with
            | Ok _ f2 => Some (Ok 0 f2)
            | Exit s f2 => Some (Exit s f2)
            | Undefined => Some Undefined
            end
        end
  | Exit s f1 => Some (Exit s f1)
  | Undefined => Some Undefined
  end.

(** The superblock [main] hands to the commands: block 0 as it is read. *)
Definition superblock_of (f : file) : superblock := parse_superblock (slice 0 BLOCK_SIZE f).

End Journal.

(** ** [validator.c] *)

Module Validator.

(** One constructor per [report_error] call site, with the values printed. *)
Inductive violation :=
| BadMagic (magic : Z)
| BadBlockSize (block_size : Z)
| BadTotalBlocks (total_blocks : Z)
| BadInodeCount (inode_count : Z)
| BadJournalBlock (journal_block : Z)
| BadInodeBitmap (inode_bitmap : Z)
| BadDataBitmap (data_bitmap : Z)
| BadInodeStart (inode_start : Z)
| BadDataStart (data_start : Z)
| StrayBit (name : string) (bit : Z)
| DirSizeUnaligned (inode_index size : Z)
| DirMissingBlock (inode_index : Z)
| DirEntryOutOfRange (inode_index target : Z)
| DirEntryFreeInode (inode_index target : Z)
| DirEntryUnterminated (inode_index : Z)
| DirEntryEmptyName (inode_index : Z)
| DotMismatch (inode_index target : Z)
| DirTooLarge (inode_index : Z)
| MissingDot (inode_index : Z)
| MissingDotDot (inode_index : Z)
| AllocationMismatch (i : Z)
| InvalidType (i type : Z)
| SizeExceedsDirect (i size : Z)
| PointerOutsideData (i blk : Z)
| DoubleReference (blk owner i : Z)
| LacksBlocks (i need have : Z)
| BlocksButZeroSize (i : Z)
| LinkCountMismatch (i links refs : Z)
| BitmapMarksFreeInode (bit : Z)
| BitmapMissesInode (bit : Z)
| DataBitmapUnreferenced (blk : Z)
| DataBlockNotInBitmap (blk : Z).

(** The mutable state of the run: the violations reported so far, oldest
    first ([error_count] is their number), and the three arrays of [main]. *)
Record vstate := {
  errors : list violation;
  link_refs : list Z;
  data_owner : list Z;
  data_blocks_referenced : list bool
}.

Definition report_error (v : violation) (st : vstate) : vstate :=
  {| errors := errors st ++ [v];
     link_refs := link_refs st;
     data_owner := data_owner st;
     data_blocks_referenced := data_blocks_referenced st |}.

Definition error_count (st : vstate) : Z := Z.of_nat (length (errors st)).

(** [pread_block]: [None] when the process dies on a short [pread]. *)
Definition pread_block (f : file) (block_index : Z) : option (list byte) :=
  let buf := slice (block_index * BLOCK_SIZE) BLOCK_SIZE f in
  if decide (Z.of_nat (length buf) = BLOCK_SIZE) then Some buf else None.

Definition bitmap_test (bitmap : list byte) (index : Z) : Z :=
  Z.land (Z.shiftr (get8 (index / 8) bitmap) (index mod 8)) 1.

Definition bitmap_check_zero_tail (bitmap : list byte) (valid_bits : Z) (name : string)
    (st : vstate) : vstate :=
  let total_bits := BLOCK_SIZE * 8 in
  match List.find (fun bit => bool_decide (bitmap_test bitmap bit ≠ 0))
          (zseq valid_bits (total_bits - valid_bits)) with
  | Some bit => report_error (StrayBit name bit) st
  | None => st
  end.

Definition validate_superblock (sb : superblock) (st : vstate) : vstate :=
  let st := if decide (sb_magic sb ≠ FS_MAGIC) then report_error (BadMagic (sb_magic sb)) st else st in
  let st := if decide (sb_block_size sb ≠ BLOCK_SIZE) then report_error (BadBlockSize (sb_block_size sb)) st else st in
  let st := if decide (sb_total_blocks sb ≠ TOTAL_BLOCKS) then report_error (BadTotalBlocks (sb_total_blocks sb)) st else st in
  let expected_inodes := INODE_BLOCKS * (BLOCK_SIZE / INODE_SIZE) in
  let st := if decide (sb_inode_count sb ≠ expected_inodes) then report_error (BadInodeCount (sb_inode_count sb)) st else st in
  let st := if decide (sb_journal_block sb ≠ JOURNAL_BLOCK_IDX) then report_error (BadJournalBlock (sb_journal_block sb)) st else st in
  let st := if decide (sb_inode_bitmap sb ≠ INODE_BMAP_IDX) then report_error (BadInodeBitmap (sb_inode_bitmap sb)) st else st in
  let st := if decide (sb_data_bitmap sb ≠ DATA_BMAP_IDX) then report_error (BadDataBitmap (sb_data_bitmap sb)) st else st in
  let st := if decide (sb_inode_start sb ≠ INODE_START_IDX) then report_error (BadInodeStart (sb_inode_start sb)) st else st in
  if decide (sb_data_start sb ≠ DATA_START_IDX) then report_error (BadDataStart (sb_data_start sb)) st else st.

(** The characters of a C string stored in [buf]: those before the first null. *)
Fixpoint c_string (buf : list byte) : list byte :=
  match buf with
  | [] => []
  | c :: buf' => if decide (c = x00) then [] else c :: c_string buf'
  end.

Definition dirent_inode (block : list byte) (e : Z) : Z :=
  get32 (e * DIRENT_SIZE + DIRENT_INODE_OFF) block.
Definition dirent_name (block : list byte) (e : Z) : list byte :=
  slice (e * DIRENT_SIZE + DIRENT_NAME_OFF) NAME_LEN block.

(** Locals of [check_directory] that live across its loops. *)
Record dir_flags := { saw_dot : bool; saw_dotdot : bool }.

(** The body of the loop over the entries of one block. *)
Definition check_entry (inode_index : Z) (inode_used : list bool) (inode_count : Z)
    (block : list byte) (e : Z) (acc : vstate * dir_flags) : vstate * dir_flags :=
  let '(st, fl) := acc in
  let de_inode := dirent_inode block e in
  let de_name := dirent_name block e in
  if decide (de_inode = 0 ∧ de_name !! 0%nat = Some x00) then (st, fl)
  else if decide (de_inode >= inode_count) then
    (report_error (DirEntryOutOfRange inode_index de_inode) st, fl)
  else
    let st :=
      if decide (inode_used !! Z.to_nat de_inode = Some true) then st
      else report_error (DirEntryFreeInode inode_index de_inode) st in
    if decide (x00 ∉ de_name) then (report_error (DirEntryUnterminated inode_index) st, fl)
    else if decide (de_name !! 0%nat = Some x00) then (report_error (DirEntryEmptyName inode_index) st, fl)
    else
      let st :=
        {| errors := errors st;
           link_refs := alter (fun n => u32 (n + 1)) (Z.to_nat de_inode) (link_refs st);
           data_owner := data_owner st;
           data_blocks_referenced := data_blocks_referenced st |} in
      if decide (c_string de_name = [x2e]) then
        let st :=
          if decide (de_inode ≠ inode_index)
          then report_error (DotMismatch inode_index de_inode) st else st in
        (st, {| saw_dot := true; saw_dotdot := saw_dotdot fl |})
      else if decide (c_string de_name = [x2e; x2e]) then
        (st, {| saw_dot := saw_dot fl; saw_dotdot := true |})
      else (st, fl).

(** How the loop over the direct pointers was left. *)
Inductive blocks_exit :=
| LoopDone (bytes_remaining : Z) (acc : vstate * dir_flags)
| Returned (st : vstate)
| Died.

(** The loop [for (i = 0; i < DIRECT_POINTERS && bytes_remaining > 0; ++i)]. *)
Fixpoint check_blocks (f : file) (ino : inode) (inode_index : Z) (inode_used : list bool)
    (inode_count : Z) (idxs : list Z) (bytes_remaining : Z) (acc : vstate * dir_flags)
    : blocks_exit :=
  match idxs with
  | [] => LoopDone bytes_remaining acc
  | i :: idxs' =>
      if decide (bytes_remaining > 0) then
        let blk := default 0 (i_direct ino !! Z.to_nat i) in
        if decide (blk = 0) then Returned (report_error (DirMissingBlock inode_index) acc.1)
        else
          match pread_block f blk with
          | None => Died
          | Some block =>
              let chunk := if decide (bytes_remaining > BLOCK_SIZE) then BLOCK_SIZE else bytes_remaining in
              let entries := chunk / DIRENT_SIZE in
              let acc := foldl (fun a e => check_entry inode_index inode_used inode_count block e a)
                           acc (zseq 0 entries) in
              check_blocks f ino inode_index inode_used inode_count idxs' (bytes_remaining - chunk) acc
          end
      else LoopDone bytes_remaining acc
  end.

(** [check_directory]; [None] when a block could not be read. *)
Definition check_directory (f : file) (ino : inode) (inode_index : Z) (inode_used : list bool)
    (inode_count : Z) (st : vstate) : option vstate :=
  if decide (i_size ino mod DIRENT_SIZE ≠ 0)
  then Some (report_error (DirSizeUnaligned inode_index (i_size ino)) st)
  else
    match check_blocks f ino inode_index inode_used inode_count (zseq 0 DIRECT_POINTERS)
            (i_size ino) (st, {| saw_dot := false; saw_dotdot := false |}) with
    | Died => None
    | Returned st => Some st
    | LoopDone bytes_remaining (st, fl) =>
        let st := if decide (bytes_remaining ≠ 0) then report_error (DirTooLarge inode_index) st else st in
        if decide (i_size ino > 0) then
          let st := if saw_dot fl then st else report_error (MissingDot inode_index) st in
          let st := if saw_dotdot fl then st else report_error (MissingDotDot inode_index) st in
          Some st
        else Some st
    end.

(** The body of the loop over the direct pointers in [main]. *)
Definition check_direct (i : Z) (acc : vstate * Z) (blk : Z) : vstate * Z :=
  let '(st, seen_blocks) := acc in
  if decide (blk = 0) then (st, seen_blocks)
  else
    let seen_blocks := seen_blocks + 1 in
    if decide (blk < DATA_START_IDX ∨ blk >= DATA_START_IDX + DATA_BLOCKS)
    then (report_error (PointerOutsideData i blk) st, seen_blocks)
    else
      let data_idx := Z.to_nat (blk - DATA_START_IDX) in
      let owner := default (-1) (data_owner st !! data_idx) in
      let st := if decide (owner ≠ -1 ∧ owner ≠ i)
                then report_error (DoubleReference blk owner i) st else st in
      ({| errors := errors st;
          link_refs := link_refs st;
          data_owner := <[data_idx := i]> (data_owner st);
          data_blocks_referenced := <[data_idx := true]> (data_blocks_referenced st) |},
       seen_blocks).

(** The body of the main loop over the inode slots. *)
Definition check_inode (f : file) (inode_area inode_bitmap : list byte) (inode_count : Z)
    (i : Z) (acc : vstate * list bool) : option (vstate * list bool) :=
  let '(st, inode_used) := acc in
  let ino := parse_inode inode_area i in
  let allocated := bool_decide (i_type ino ≠ 0) in
  let bitmap_bit := bitmap_test inode_bitmap i in
  let st := if decide ((if allocated then 1 else 0) ≠ bitmap_bit)
            then report_error (AllocationMismatch i) st else st in
  let inode_used := <[Z.to_nat i := allocated]> inode_used in
  if negb allocated then Some (st, inode_used)
  else
    let st := if decide (i_type ino > 2) then report_error (InvalidType i (i_type ino)) st else st in
    let required_blocks := u32 (i_size ino + BLOCK_SIZE - 1) / BLOCK_SIZE in
    let st := if decide (required_blocks > DIRECT_POINTERS)
              then report_error (SizeExceedsDirect i (i_size ino)) st else st in
    let '(st, seen_blocks) := foldl (check_direct i) (st, 0) (i_direct ino) in
    let st := if decide (seen_blocks < required_blocks)
              then report_error (LacksBlocks i required_blocks seen_blocks) st else st in
    let st := if decide (required_blocks = 0 ∧ seen_blocks > 0)
              then report_error (BlocksButZeroSize i) st else st in
    if decide (i_type ino = 2) then
      st ← check_directory f ino i inode_used inode_count st;
      Some (st, inode_used)
    else Some (st, inode_used).

Fixpoint check_inodes (f : file) (inode_area inode_bitmap : list byte) (inode_count : Z)
    (idxs : list Z) (acc : vstate * list bool) : option (vstate * list bool) :=
  match idxs with
  | [] => Some acc
  | i :: idxs' =>
      acc ← check_inode f inode_area inode_bitmap inode_count i acc;
      check_inodes f inode_area inode_bitmap inode_count idxs' acc
  end.

Definition check_links (inode_area : list byte) (inode_used : list bool) (st : vstate) (i : Z) : vstate :=
  if decide (inode_used !! Z.to_nat i = Some true) then
    let links := i_links (parse_inode inode_area i) in
    let refs := default 0 (link_refs st !! Z.to_nat i) in
    if decide (links ≠ refs) then report_error (LinkCountMismatch i links refs) st else st
  else st.

Definition check_inode_bit (inode_bitmap : list byte) (inode_used : list bool) (st : vstate) (bit : Z) : vstate :=
  let bit_val := bitmap_test inode_bitmap bit in
  let used := bool_decide (inode_used !! Z.to_nat bit = Some true) in
  let st := if decide (bit_val ≠ 0 ∧ used = false) then report_error (BitmapMarksFreeInode bit) st else st in
  if decide (bit_val = 0 ∧ used = true) then report_error (BitmapMissesInode bit) st else st.

Definition check_data_bit (data_bitmap : list byte) (st : vstate) (bit : Z) : vstate :=
  let bit_val := bitmap_test data_bitmap bit in
  let referenced := bool_decide (data_blocks_referenced st !! Z.to_nat bit = Some true) in
  let st := if decide (bit_val ≠ 0 ∧ referenced = false)
            then report_error (DataBitmapUnreferenced (bit + DATA_START_IDX)) st else st in
  if decide (bit_val = 0 ∧ referenced = true)
  then report_error (DataBlockNotInBitmap (bit + DATA_START_IDX)) st else st.

(** How the run ended. *)
Inductive outcome :=
| Report (errors : list violation)   (* [main] returned; 0 iff no violation *)
| Die                                (* [die]: a block could not be read *)
| OutOfBounds.                       (* [inodes[i]] read beyond the inode area *)

Definition main (f : file) : outcome :=
  match pread_block f 0, pread_block f INODE_BMAP_IDX, pread_block f DATA_BMAP_IDX,
        pread_block f INODE_START_IDX, pread_block f (INODE_START_IDX + 1) with
  | Some sb_block, Some inode_bitmap, Some data_bitmap, Some itable0, Some itable1 =>
      let sb := parse_superblock sb_block in
      let st := validate_superblock sb
                  {| errors := []; link_refs := []; data_owner := []; data_blocks_referenced := [] |} in
      let inode_count := sb_inode_count sb in
      let inode_area := itable0 ++ itable1 in
      if decide (inode_count > INODE_BLOCKS * (BLOCK_SIZE / INODE_SIZE)) then OutOfBounds else
      let inode_used :=
        (fun i => bool_decide (i_type (parse_inode inode_area i) ≠ 0)) <$> zseq 0 inode_count in
      let st := {| errors := errors st;
                   link_refs := replicate (Z.to_nat inode_count) 0;
                   data_owner := replicate (Z.to_nat DATA_BLOCKS) (-1);
                   data_blocks_referenced := replicate (Z.to_nat DATA_BLOCKS) false |} in
      match check_inodes f inode_area inode_bitmap inode_count (zseq 0 inode_count) (st, inode_used) with
      | None => Die
      | Some (st, inode_used) =>
          let st := foldl (check_links inode_area inode_used) st (zseq 0 inode_count) in
          let st := foldl (check_inode_bit inode_bitmap inode_used) st (zseq 0 inode_count) in
          let st := bitmap_check_zero_tail inode_bitmap inode_count "inode" st in
          let st := foldl (check_data_bit data_bitmap) st (zseq 0 DATA_BLOCKS) in
          let st := bitmap_check_zero_tail data_bitmap DATA_BLOCKS "data" st in
          Report (errors st)
      end
  | _, _, _, _, _ => Die
  end.

(** The number printed as ["%d inconsistencies found"]. *)
Definition violation_count (o : outcome) : option Z :=
  match o with
  | Report errs => Some (Z.of_nat (length errs))
  | _ => None
  end.

Definition exit_status (o : outcome) : option Z :=
  match o with
  | Report [] => Some 0
  | Report _ => Some 1
  | Die => Some 1
  | OutOfBounds => None
  end.

End Validator.

(** ** [mkfs.c]: the image written by the bootstrap tool *)

Module Mkfs.

Definition set_bitmap (bitmap : list byte) (index : Z) : list byte :=
  put8 (index / 8) (Z.lor (get8 (index / 8) bitmap) (u8 (Z.shiftl 1 (index mod 8)))) bitmap.

(** [strncpy(name, s, sizeof(name) - 1); name[sizeof(name) - 1] = 0] on a zeroed block. *)
Definition root_dirent (ino : Z) (name : list byte) : list byte :=
  le_encode 4 ino ++ Journal.strncpy 27 name ++ [x00].

Definition superblock_image : superblock :=
  {| sb_magic := FS_MAGIC;
     sb_block_size := BLOCK_SIZE;
     sb_total_blocks := TOTAL_BLOCKS;
     sb_inode_count := INODE_BLOCKS * (BLOCK_SIZE / INODE_SIZE);
     sb_journal_block := JOURNAL_BLOCK_IDX;
     sb_inode_bitmap := INODE_BMAP_IDX;
     sb_data_bitmap := DATA_BMAP_IDX;
     sb_inode_start := INODE_START_IDX;
     sb_data_start := DATA_START_IDX |}.

Definition root_inode (now : Z) : inode :=
  {| i_type := 2; i_links := 2; i_size := 2 * DIRENT_SIZE;
     i_direct := DATA_START_IDX :: replicate 7 0;
     i_ctime := u32 now; i_mtime := u32 now |}.

(** The blocks [main] writes one after the other into the truncated file;
    [now] is the value of [time(NULL)]. *)
Definition image (now : Z) : file :=
  splice 0 (encode_superblock superblock_image) (zeros BLOCK_SIZE)
    ++ zeros (JOURNAL_BLOCKS * BLOCK_SIZE)
    ++ set_bitmap (zeros BLOCK_SIZE) 0
    ++ set_bitmap (zeros BLOCK_SIZE) 0
    ++ splice 0 (encode_inode (root_inode now)) (zeros BLOCK_SIZE)
    ++ zeros BLOCK_SIZE
    ++ splice DIRENT_SIZE (root_dirent 0 [x2e; x2e])
         (splice 0 (root_dirent 0 [x2e]) (zeros BLOCK_SIZE))
    ++ zeros ((DATA_BLOCKS - 1) * BLOCK_SIZE).

End Mkfs.

(** ** Vocabulary of the design document *)

(** The sixteen block offsets [do_install] reads and rewrites. *)
Definition journal_block_offset (sb : superblock) (i : Z) : Z :=
  u32 (u32 (sb_journal_block sb + i) * BLOCK_SIZE).

Definition journal_readable (sb : superblock) (f : file) : Prop :=
  forall i, 0 <= i < JOURNAL_BLOCKS ->
    journal_block_offset sb i + BLOCK_SIZE <= Z.of_nat (length f).

(** "Absent magic or bytes-used <= header size means empty." *)
Definition journal_magic (sb : superblock) (f : file) : Z :=
  get32 (journal_block_offset sb 0) f.
Definition journal_nbytes_used (sb : superblock) (f : file) : Z :=
  get32 (journal_block_offset sb 0 + 4) f.
Definition journal_empty (sb : superblock) (f : file) : Prop :=
  journal_magic sb f ≠ JOURNAL_MAGIC ∨ journal_nbytes_used sb f <= JOURNAL_HEADER_SIZE.

(** The three resource-exhaustion failures of create. *)
Definition resource_exhaustion (o : Journal.create_outcome) : Prop :=
  o = Journal.NoFreeInodes ∨ o = Journal.DirectoryFull ∨ o = Journal.JournalFull.

(** ** Sample images *)

Module Samples.

Definition fresh : file := Mkfs.image 0.

Definition sb0 : superblock := Mkfs.superblock_image.

(** A journal holding one record that declares length zero. *)
Definition zero_length_record : file :=
  splice BLOCK_SIZE
    (le_encode 4 JOURNAL_MAGIC ++ le_encode 4 12 ++ le_encode 2 REC_DATA ++ le_encode 2 0)
    fresh.

(** A journal whose header says that 60000 bytes are in use. *)
Definition journal_nearly_full : file :=
  splice BLOCK_SIZE (le_encode 4 JOURNAL_MAGIC ++ le_encode 4 60000) fresh.

(** A superblock whose journal starts where the 85-block file ends. *)
Definition journal_past_end : file := splice 16 (le_encode 4 TOTAL_BLOCKS) fresh.

Definition long_name : list byte := replicate 28 "a"%byte.

Definition ones : list byte := replicate 4096 xff.

End Samples.

(** The contents of [jbuf] once the sixteen journal blocks are loaded. *)
Definition journal_image (sb : superblock) (f : file) : list byte :=
  concat ((fun i => slice (journal_block_offset sb i) BLOCK_SIZE f) <$> zseq 0 JOURNAL_BLOCKS).

#[global] Instance result_eq_dec {A} `{EqDecision A} : EqDecision (result A).
Proof. solve_decision. Defined.

#[global] Instance create_outcome_eq_dec : EqDecision Journal.create_outcome.
Proof. solve_decision. Defined.

#[global] Instance violation_eq_dec : EqDecision Validator.violation.
Proof. solve_decision. Defined.

#[global] Instance outcome_eq_dec : EqDecision Validator.outcome.
Proof. solve_decision. Defined.

(** The image a command leaves behind ([f] itself if it did not return). *)
Definition file_after {A} (r : result A) (f : file) : file :=
  match r with
  | Ok _ f' => f'
  | _ => f
  end.

Definition file_after_run {A} (r : option (result A)) (f : file) : file :=
  match r with
  | Some r' => file_after r' f
  | None => f
  end.

Module Runs.

(** [create] of a 28-character name on the fresh image, then [install]. *)
Definition long_name_created : file :=
  file_after (Journal.do_create Samples.sb0 Samples.long_name Samples.fresh) Samples.fresh.

Definition long_name_installed : file :=
  file_after_run (Journal.do_install 8 Samples.sb0 long_name_created) long_name_created.

End Runs.

(** ** The journal format and what replaying it means *)

Inductive record :=
| Data (target : Z) (payload : list byte)
| Commit.

Definition encode_record (r : record) : list byte :=
  match r with
  | Data target payload => Journal.encode_data_record target payload
  | Commit => Journal.encode_commit_record
  end.

Definition encode_records (rs : list record) : list byte := concat (encode_record <$> rs).

Definition well_formed (r : record) : Prop :=
  match r with
  | Data target payload => 0 <= target < 2 ^ 32 ∧ Z.of_nat (length payload) = BLOCK_SIZE
  | Commit => True
  end.

(** Header (magic, bytes used) followed by the records. *)
Definition journal_bytes (rs : list record) : list byte :=
  le_encode 4 JOURNAL_MAGIC
    ++ le_encode 4 (JOURNAL_HEADER_SIZE + Z.of_nat (length (encode_records rs)))
    ++ encode_records rs.

(** The superblock places sixteen journal blocks at offsets below 2^32. *)
Definition journal_addressable (sb : superblock) : Prop :=
  0 <= sb_journal_block sb ∧ sb_journal_block sb + JOURNAL_BLOCKS <= 2 ^ 20.

(** The journal region of [f] starts with the encoding of [rs]. *)
Definition holds_journal (sb : superblock) (f : file) (rs : list record) : Prop :=
  Forall well_formed rs
  ∧ Z.of_nat (length (journal_bytes rs)) <= JOURNAL_BLOCKS * BLOCK_SIZE
  ∧ slice (sb_journal_block sb * BLOCK_SIZE) (Z.of_nat (length (journal_bytes rs))) f
    = journal_bytes rs.

(** One buffered write reaching its target: bounds-checked against
    [total_blocks], stored at the 32-bit byte offset of the block. *)
Definition apply_write (sb : superblock) (f : file) (w : Z * list byte) : file :=
  if decide (w.1 < sb_total_blocks sb) then splice (u32 (w.1 * BLOCK_SIZE)) w.2 f else f.

(** Replay of a record sequence: Data records are buffered, a Commit
    applies the buffer in order and empties it; what is still buffered at
    the end is dropped. *)
Fixpoint replay (sb : superblock) (rs : list record) (buffered : list (Z * list byte))
    (f : file) : file :=
  match rs with
  | [] => f
  | Data target payload :: rs' => replay sb rs' (buffered ++ [(target, payload)]) f
  | Commit :: rs' => replay sb rs' [] (foldl (apply_write sb) f buffered)
  end.

(** The journal region overwritten with the empty journal. *)
Definition clear_journal (sb : superblock) (f : file) : file :=
  splice (sb_journal_block sb * BLOCK_SIZE) Journal.cleared_journal f.

(** The records of a list of transactions, each closed by its Commit. *)
Definition transaction_records (tx : list (Z * list byte)) : list record :=
  ((fun w => Data w.1 w.2) <$> tx) ++ [Commit].

Module JournalSamples.

(** One Data record for the root directory block and no Commit. *)
Definition torn : file :=
  splice BLOCK_SIZE (journal_bytes [Data DATA_START_IDX Samples.ones]) Samples.fresh.

(** A committed transaction whose only record targets block 0. *)
Definition superblock_overwrite : file :=
  splice BLOCK_SIZE (journal_bytes [Data 0 Samples.ones; Commit]) Samples.fresh.

End JournalSamples.

(** [holds_at buf pos bytes]: [bytes] is what [buf] contains from [pos] on. *)
Definition holds_at (buf : list byte) (pos : Z) (bytes : list byte) : Prop :=
  slice pos (Z.of_nat (length bytes)) buf = bytes.

(** The [pending] array against the writes it stands for. *)
Definition pending_for (jbuf : list byte) (p : Journal.pending_write) (w : Z * list byte) : Prop :=
  Journal.block_no p = w.1
  ∧ Journal.data p + BLOCK_SIZE <= Z.of_nat (length jbuf)
  ∧ slice (Journal.data p) BLOCK_SIZE jbuf = w.2.

(** ** Directories as the design document describes them *)

(** The entries of a directory inode: for each direct block that holds
    bytes of the directory, the entries that its size covers. *)
Fixpoint dir_entries_from (f : file) (ino : inode) (idxs : list Z) (bytes_remaining : Z)
    : list (Z * list byte) :=
  match idxs with
  | [] => []
  | i :: idxs' =>
      if decide (bytes_remaining > 0) then
        let blk := default 0 (i_direct ino !! Z.to_nat i) in
        if decide (blk = 0) then []
        else
          match Validator.pread_block f blk with
          | None => []
          | Some block =>
              let chunk := if decide (bytes_remaining > BLOCK_SIZE) then BLOCK_SIZE else bytes_remaining in
              ((fun e => (Validator.dirent_inode block e, Validator.dirent_name block e))
                 <$> zseq 0 (chunk / DIRENT_SIZE))
                ++ dir_entries_from f ino idxs' (bytes_remaining - chunk)
          end
      else []
  end.

Definition dir_entries (f : file) (ino : inode) : list (Z * list byte) :=
  dir_entries_from f ino (zseq 0 DIRECT_POINTERS) (i_size ino).

Definition is_dot (entry : Z * list byte) : Prop := Validator.c_string entry.2 = [x2e].
Definition is_dotdot (entry : Z * list byte) : Prop := Validator.c_string entry.2 = [x2e; x2e].


(** The state [main] enters the loop over the inodes with. *)
Definition initial_state (sb : superblock) : Validator.vstate :=
  {| Validator.errors :=
       Validator.errors
         (Validator.validate_superblock sb
            {| Validator.errors := []; Validator.link_refs := [];
               Validator.data_owner := []; Validator.data_blocks_referenced := [] |});
     Validator.link_refs := replicate (Z.to_nat (sb_inode_count sb)) 0;
     Validator.data_owner := replicate (Z.to_nat DATA_BLOCKS) (-1);
     Validator.data_blocks_referenced := replicate (Z.to_nat DATA_BLOCKS) false |}.

Definition initial_inode_used (inode_area : list byte) (inode_count : Z) : list bool :=
  (fun i => bool_decide (i_type (parse_inode inode_area i) ≠ 0)) <$> zseq 0 inode_count.


Module DirSamples.

(** The fresh image with a root directory of three entries: ".", "." and
    "..", the root inode saying size 96 and 3 links. *)
Definition two_dots : file :=
  let root_dir := DATA_START_IDX * BLOCK_SIZE in
  let root_inode := INODE_START_IDX * BLOCK_SIZE in
  splice root_dir
    (Mkfs.root_dirent 0 [x2e] ++ Mkfs.root_dirent 0 [x2e] ++ Mkfs.root_dirent 0 [x2e; x2e])
    (put32 (root_inode + INODE_SIZE_OFF) (3 * DIRENT_SIZE)
       (put16 (root_inode + INODE_LINKS_OFF) 3 Samples.fresh)).

Definition root_inode_of (f : file) : inode :=
  parse_inode (slice (INODE_START_IDX * BLOCK_SIZE) (INODE_BLOCKS * BLOCK_SIZE) f) 0.

End DirSamples.

(** ** Vocabulary for the further properties *)

(** Every field of the superblock fits its 32-bit slot. *)
Definition superblock_in_range (sb : superblock) : Prop :=
  0 <= sb_magic sb < 2 ^ 32 ∧ 0 <= sb_block_size sb < 2 ^ 32
  ∧ 0 <= sb_total_blocks sb < 2 ^ 32 ∧ 0 <= sb_inode_count sb < 2 ^ 32
  ∧ 0 <= sb_journal_block sb < 2 ^ 32 ∧ 0 <= sb_inode_bitmap sb < 2 ^ 32
  ∧ 0 <= sb_data_bitmap sb < 2 ^ 32 ∧ 0 <= sb_inode_start sb < 2 ^ 32
  ∧ 0 <= sb_data_start sb < 2 ^ 32.

(** Bit [j] of a byte, as [bitmap_test] extracts it. *)
Definition byte_bit (b : byte) (j : Z) : Z := Z.land (Z.shiftr (Z_of_byte b) j) 1.

Definition all_bytes : list byte := byte_of_Z <$> zseq 0 256.

(** ** What [do_create] builds *)

(** The block [read_block b] returns. *)
Definition block_at (f : file) (b : Z) : list byte :=
  slice (u32 (b * BLOCK_SIZE)) BLOCK_SIZE f.

Definition block_readable (f : file) (b : Z) : Prop :=
  u32 (b * BLOCK_SIZE) + BLOCK_SIZE <= Z.of_nat (length f).

(** The inode-table block with slot [chosen_inode] initialised as a file. *)
Definition with_new_inode (chosen_inode : Z) (blk : list byte) : list byte :=
  let slot := chosen_inode mod (BLOCK_SIZE / INODE_SIZE) * INODE_SIZE in
  put32 (slot + INODE_SIZE_OFF) 0
    (put16 (slot + INODE_LINKS_OFF) 1
       (put16 (slot + INODE_TYPE_OFF) 1 (splice slot (zeros INODE_SIZE) blk))).

(** [root.size += sizeof(struct dirent)] on the block holding inode 0. *)
Definition with_root_grown (blk : list byte) : list byte :=
  put32 INODE_SIZE_OFF (u32 (get32 INODE_SIZE_OFF blk + DIRENT_SIZE)) blk.

(** The directory block with entry [dir_index] filled in. *)
Definition with_dirent (dir_index chosen_inode : Z) (filename : list byte)
    (dblock : list byte) : list byte :=
  splice (dir_index * DIRENT_SIZE + DIRENT_NAME_OFF)
    (Journal.strncpy (Z.to_nat NAME_LEN) filename)
    (put32 (dir_index * DIRENT_SIZE + DIRENT_INODE_OFF) chosen_inode dblock).

Definition root_dir_block (sb : superblock) (f : file) : Z :=
  get32 INODE_DIRECT_OFF (block_at f (sb_inode_start sb)).

(** The writes create logs, in log order. *)
Definition create_transaction (sb : superblock) (filename : list byte) (f : file)
    (chosen_inode : Z) (ibmap : list byte) (dir_index : Z) : list (Z * list byte) :=
  let new_inode_real_block := u32 (sb_inode_start sb + chosen_inode / (BLOCK_SIZE / INODE_SIZE)) in
  let new_inode_block := with_new_inode chosen_inode (block_at f new_inode_real_block) in
  let dblock :=
    with_dirent dir_index chosen_inode filename (block_at f (root_dir_block sb f)) in
  if decide (new_inode_real_block = sb_inode_start sb) then
    [(sb_inode_bitmap sb, ibmap);
     (new_inode_real_block, with_root_grown new_inode_block);
     (root_dir_block sb f, dblock)]
  else
    [(sb_inode_bitmap sb, ibmap);
     (new_inode_real_block, new_inode_block);
     (sb_inode_start sb, with_root_grown (block_at f (sb_inode_start sb)));
     (root_dir_block sb f, dblock)].

(** The bytes-used value create works with: the header's, or the header
    size when the magic is absent. *)
Definition journal_used_seen (sb : superblock) (f : file) : Z :=
  let jh := slice (u32 (sb_journal_block sb * BLOCK_SIZE)) JOURNAL_HEADER_SIZE f in
  if decide (get32 0 jh ≠ JOURNAL_MAGIC) then JOURNAL_HEADER_SIZE else get32 4 jh.

Definition journal_header (nbytes_used : Z) : list byte :=
  le_encode 4 JOURNAL_MAGIC ++ le_encode 4 nbytes_used.

Module CreateSamples.

(** [create a] on the fresh image. *)
Definition created_a : file :=
  file_after (Journal.do_create Samples.sb0 [x61] Samples.fresh) Samples.fresh.

(** [create a] on an image whose journal already holds a transaction. *)
Definition created_second : file :=
  file_after (Journal.do_create Samples.sb0 [x61] JournalSamples.superblock_overwrite)
    JournalSamples.superblock_overwrite.

End CreateSamples.

(** The records create finds in the journal: those the header accounts
    for, or none when the magic is absent. *)
Definition journal_seen_by_create (sb : superblock) (f : file) (rs : list record) : Prop :=
  holds_journal sb f rs ∨ (rs = [] ∧ journal_magic sb f ≠ JOURNAL_MAGIC).

(** Two images of the same length that differ at most inside the journal. *)
Definition same_outside_journal (sb : superblock) (g g' : file) : Prop :=
  length g = length g'
  ∧ forall i : nat,
      Z.of_nat i < sb_journal_block sb * BLOCK_SIZE
      ∨ (sb_journal_block sb + JOURNAL_BLOCKS) * BLOCK_SIZE <= Z.of_nat i ->
      g !! i = g' !! i.

(** The payload of the last write in [ws] that lands on block [b]: its
    target passes the bounds check of install and its 32-bit byte offset is
    that of [b]. *)
Definition last_write (sb : superblock) (ws : list (Z * list byte)) (b : Z)
    : option (list byte) :=
  snd <$> last (filter (fun w : Z * list byte =>
                          w.1 mod 2 ^ 20 = b ∧ w.1 < sb_total_blocks sb) ws).

(** The inode table as the validator loads it. *)
Definition inode_area (f : file) : list byte :=
  slice (INODE_START_IDX * BLOCK_SIZE) BLOCK_SIZE f
    ++ slice ((INODE_START_IDX + 1) * BLOCK_SIZE) BLOCK_SIZE f.

(** No directory inode of the table has a direct pointer into the journal
    blocks of the compiled-in geometry. *)
Definition no_directory_in_journal (f : file) : Prop :=
  forall i blk,
    0 <= i < INODE_BLOCKS * (BLOCK_SIZE / INODE_SIZE) ->
    i_type (parse_inode (inode_area f) i) = 2 ->
    blk ∈ i_direct (parse_inode (inode_area f) i) ->
    blk < JOURNAL_BLOCK_IDX ∨ JOURNAL_BLOCK_IDX + JOURNAL_BLOCKS <= blk.

Module DirRuns.

(** The fresh image with the two entries of the root directory wiped. *)
Definition no_dots : file :=
  splice (DATA_START_IDX * BLOCK_SIZE) (zeros (2 * DIRENT_SIZE)) Samples.fresh.

(** The fresh image whose "." entry names inode 1. *)
Definition foreign_dot : file := put32 (DATA_START_IDX * BLOCK_SIZE) 1 Samples.fresh.

Definition used0 : list bool :=
  initial_inode_used (inode_area Samples.fresh) (sb_inode_count Samples.sb0).

(** The state after [check_directory] on the root inode of [f]. *)
Definition checked (f : file) : Validator.vstate :=
  default (initial_state Samples.sb0)
    (Validator.check_directory f (DirSamples.root_inode_of f) 0 used0
       (sb_inode_count Samples.sb0) (initial_state Samples.sb0)).

End DirRuns.

(** * Properties *)

(** ** Bytes, slices and splices *)

Lemma Z_of_byte_range b : 0 <= Z_of_byte b < 256.
Proof.
  unfold Z_of_byte. pose proof (Byte.to_N_bounded b) as H.
  apply N2Z.inj_le in H. change (Z.of_N 255) with 255 in H. lia.
Qed.

Lemma Z_of_byte_of_Z z : Z_of_byte (byte_of_Z z) = z mod 256.
Proof.
  unfold Z_of_byte, byte_of_Z.
  assert (0 <= z mod 256 < 256) as Hr by (apply Z.mod_pos_bound; lia).
  destruct (Byte.of_N (Z.to_N (z mod 256))) as [b|] eqn:E.
  - apply Byte.to_of_N in E. rewrite E. lia.
  - apply Byte.of_N_None_iff in E. lia.
Qed.

Lemma byte_of_Z_of_byte b : byte_of_Z (Z_of_byte b) = b.
Proof.
  unfold byte_of_Z. rewrite Z.mod_small by apply Z_of_byte_range.
  unfold Z_of_byte. rewrite N2Z.id, Byte.of_to_N. reflexivity.
Qed.

Lemma Z_of_byte_inj b1 b2 : Z_of_byte b1 = Z_of_byte b2 -> b1 = b2.
Proof. intros H. rewrite <- (byte_of_Z_of_byte b1), H. apply byte_of_Z_of_byte. Qed.

Lemma Z_of_byte_zero b : Z_of_byte b = 0 <-> b = x00.
Proof.
  split; [|intros ->; reflexivity].
  intros H. apply Z_of_byte_inj. rewrite H. reflexivity.
Qed.

Lemma length_le_encode n z : length (le_encode n z) = n.
Proof. revert z. induction n as [|n IH]; intros z; simpl; [|rewrite IH]; reflexivity. Qed.

Lemma le_decode_range bs : 0 <= le_decode bs < 256 ^ Z.of_nat (length bs).
Proof.
  induction bs as [|b bs IH]; simpl length; simpl le_decode.
  - simpl. lia.
  - rewrite Nat2Z.inj_succ, Z.pow_succ_r by lia.
    pose proof (Z_of_byte_range b). lia.
Qed.

Lemma le_decode_encode n z : le_decode (le_encode n z) = z mod 256 ^ Z.of_nat n.
Proof.
  revert z. induction n as [|n IH]; intros z.
  - simpl. rewrite Z.mod_1_r. reflexivity.
  - simpl le_encode. simpl le_decode.
    rewrite IH, Z_of_byte_of_Z, Nat2Z.inj_succ, Z.pow_succ_r by lia.
    rewrite Z.rem_mul_r by lia. reflexivity.
Qed.

Lemma le_decode_app bs1 bs2 :
  le_decode (bs1 ++ bs2) = le_decode bs1 + 256 ^ Z.of_nat (length bs1) * le_decode bs2.
Proof.
  induction bs1 as [|b bs1 IH]; simpl length; simpl app; simpl le_decode.
  - simpl. lia.
  - rewrite IH, Nat2Z.inj_succ, Z.pow_succ_r by lia. lia.
Qed.

Lemma lookup_slice off len (l : list byte) (i : nat) :
  slice off len l !! i =
    if decide (i < Z.to_nat len)%nat then l !! (Z.to_nat off + i)%nat else None.
Proof. unfold slice. rewrite lookup_take, lookup_drop. reflexivity. Qed.

Lemma lookup_splice off data (l : list byte) (i : nat) :
  splice off data l !! i =
    if decide (i < Z.to_nat off)%nat then
      (if decide (i < length l)%nat then l !! i else Some x00)
    else if decide (i < Z.to_nat off + length data)%nat then data !! (i - Z.to_nat off)%nat
    else l !! i.
Proof.
  unfold splice.
  rewrite lookup_app, lookup_take, length_take.
  destruct (decide (i < Z.to_nat off)%nat) as [Hlt|Hge].
  - destruct (decide (i < length l)%nat) as [Hl|Hl].
    + apply lookup_lt_is_Some in Hl as [x ->]. reflexivity.
    + rewrite (proj2 (lookup_ge_None l i)) by lia.
      rewrite lookup_app, lookup_replicate_2 by lia. reflexivity.
  - rewrite lookup_app, length_replicate.
    rewrite (proj1 (lookup_replicate_None _ _ _)) by lia.
    rewrite lookup_app, lookup_drop.
    destruct (decide (i < Z.to_nat off + length data)%nat) as [Hd|Hd].
    + replace (i - Z.to_nat off `min` length l
                 - (Z.to_nat off - length l))%nat with (i - Z.to_nat off)%nat by lia.
      assert (i - Z.to_nat off < length data)%nat as Hl by lia.
      apply lookup_lt_is_Some in Hl as [x ->]. reflexivity.
    + rewrite (proj2 (lookup_ge_None data _)) by lia.
      destruct (decide (length l <= i)%nat).
      * rewrite !(proj2 (lookup_ge_None l _)) by lia. reflexivity.
      * f_equal. lia.
Qed.

Lemma length_slice off len (l : list byte) :
  length (slice off len l) = (Z.to_nat len `min` (length l - Z.to_nat off))%nat.
Proof. unfold slice. rewrite length_take, length_drop. reflexivity. Qed.

Lemma length_slice_le off len (l : list byte) :
  0 <= len -> Z.of_nat (length (slice off len l)) <= len.
Proof. intros. rewrite length_slice. lia. Qed.

Lemma length_slice_full off len (l : list byte) :
  0 <= off -> 0 <= len -> off + len <= Z.of_nat (length l) ->
  Z.of_nat (length (slice off len l)) = len.
Proof. intros. rewrite length_slice. lia. Qed.

Lemma length_slice_full_inv off len (l : list byte) :
  0 <= off -> 0 < len -> Z.of_nat (length (slice off len l)) = len ->
  off + len <= Z.of_nat (length l).
Proof. intros ? ?. rewrite length_slice. lia. Qed.

Lemma length_splice off data (l : list byte) :
  length (splice off data l) = (length l `max` (Z.to_nat off + length data))%nat.
Proof.
  unfold splice. rewrite !length_app, length_take, length_replicate, length_drop. lia.
Qed.

Lemma length_zeros n : length (zeros n) = Z.to_nat n.
Proof. apply length_replicate. Qed.

Lemma lookup_zeros n (i : nat) :
  zeros n !! i = if decide (i < Z.to_nat n)%nat then Some x00 else None.
Proof.
  unfold zeros. case_decide.
  - apply lookup_replicate_2. lia.
  - apply lookup_replicate_None. lia.
Qed.

(** Reading back what was stored, and reading beside it. *)
Lemma slice_splice_inside o n off data (l : list byte) :
  0 <= off <= o -> 0 <= n -> o + n <= off + Z.of_nat (length data) ->
  slice o n (splice off data l) = slice (o - off) n data.
Proof.
  intros. apply list_eq. intros i.
  rewrite !lookup_slice, lookup_splice.
  repeat case_decide; try lia; try reflexivity.
  f_equal. lia.
Qed.

Lemma slice_splice_same off data (l : list byte) :
  0 <= off -> slice off (Z.of_nat (length data)) (splice off data l) = data.
Proof.
  intros. rewrite slice_splice_inside by lia.
  unfold slice. rewrite Z.sub_diag. simpl drop. apply take_ge. lia.
Qed.

Lemma slice_splice_before o n off data (l : list byte) :
  0 <= o -> 0 <= n -> o + n <= off -> o + n <= Z.of_nat (length l) ->
  slice o n (splice off data l) = slice o n l.
Proof.
  intros. apply list_eq. intros i.
  rewrite !lookup_slice, lookup_splice.
  repeat case_decide; try lia; reflexivity.
Qed.

Lemma slice_splice_after o n off data (l : list byte) :
  0 <= off -> off + Z.of_nat (length data) <= o ->
  slice o n (splice off data l) = slice o n l.
Proof.
  intros. apply list_eq. intros i.
  rewrite !lookup_slice, lookup_splice.
  repeat case_decide; try lia; reflexivity.
Qed.

Lemma slice_slice o n o' n' (l : list byte) :
  0 <= o -> 0 <= o' -> 0 <= n -> o + n <= n' ->
  slice o n (slice o' n' l) = slice (o' + o) n l.
Proof.
  intros. apply list_eq. intros i.
  rewrite !lookup_slice.
  repeat case_decide; try lia; try reflexivity.
  f_equal. lia.
Qed.

Lemma slice_app_l o n (l1 l2 : list byte) :
  0 <= o -> 0 <= n -> o + n <= Z.of_nat (length l1) ->
  slice o n (l1 ++ l2) = slice o n l1.
Proof.
  intros. apply list_eq. intros i.
  rewrite !lookup_slice.
  case_decide; [|reflexivity].
  apply lookup_app_l. lia.
Qed.

Lemma slice_app_r o n (l1 l2 : list byte) :
  Z.of_nat (length l1) <= o ->
  slice o n (l1 ++ l2) = slice (o - Z.of_nat (length l1)) n l2.
Proof.
  intros. apply list_eq. intros i.
  rewrite !lookup_slice.
  case_decide; [|reflexivity].
  rewrite lookup_app_r by lia. f_equal. lia.
Qed.

Lemma slice_all (l : list byte) n :
  Z.of_nat (length l) <= n -> slice 0 n l = l.
Proof. intros. unfold slice. simpl drop. apply take_ge. lia. Qed.

Lemma take_take_drop {A} (l : list A) (n m : nat) :
  take n l ++ take m (drop n l) = take (n + m) l.
Proof.
  revert l. induction n as [|n IH]; intros [|x l]; simpl; try reflexivity.
  - destruct m; reflexivity.
  - rewrite IH. reflexivity.
Qed.

Lemma slice_cat o n m (l : list byte) :
  0 <= o -> 0 <= n -> 0 <= m ->
  slice o n l ++ slice (o + n) m l = slice o (n + m) l.
Proof.
  intros. unfold slice.
  rewrite !Z2Nat.inj_add, <- drop_drop by lia.
  apply take_take_drop.
Qed.

Lemma splice_in_bounds off data (l : list byte) :
  0 <= off -> off + Z.of_nat (length data) <= Z.of_nat (length l) ->
  splice off data l = take (Z.to_nat off) l ++ data ++ drop (Z.to_nat off + length data) l.
Proof.
  intros. unfold splice.
  replace (Z.to_nat off - length l)%nat with 0%nat by lia. reflexivity.
Qed.

Lemma get32_range off buf : 0 <= get32 off buf < 2 ^ 32.
Proof.
  unfold get32. pose proof (le_decode_range (slice off 4 buf)) as H.
  pose proof (length_slice_le off 4 buf ltac:(lia)).
  assert (256 ^ Z.of_nat (length (slice off 4 buf)) <= 256 ^ 4)
    by (apply Z.pow_le_mono_r; lia).
  change (256 ^ 4) with (2 ^ 32) in *. lia.
Qed.

Lemma get16_range off buf : 0 <= get16 off buf < 2 ^ 16.
Proof.
  unfold get16. pose proof (le_decode_range (slice off 2 buf)) as H.
  pose proof (length_slice_le off 2 buf ltac:(lia)).
  assert (256 ^ Z.of_nat (length (slice off 2 buf)) <= 256 ^ 2)
    by (apply Z.pow_le_mono_r; lia).
  change (256 ^ 2) with (2 ^ 16) in *. lia.
Qed.

Lemma get8_range off buf : 0 <= get8 off buf < 2 ^ 8.
Proof.
  unfold get8. pose proof (le_decode_range (slice off 1 buf)) as H.
  pose proof (length_slice_le off 1 buf ltac:(lia)).
  assert (256 ^ Z.of_nat (length (slice off 1 buf)) <= 256 ^ 1)
    by (apply Z.pow_le_mono_r; lia).
  change (256 ^ 1) with (2 ^ 8) in *. lia.
Qed.

(** Closed facts about the sample images are decided by evaluation. *)
Ltac by_evaluation :=
  match goal with
  | |- ?P => apply (bool_decide_eq_true_1 P); vm_compute; reflexivity
  end.

(** ** The result monad *)

Lemma bind_Ok_inv {A B} (m : M A) (k : A -> M B) f b f2 :
  (m ≫= k) f = Ok b f2 -> exists a f1, m f = Ok a f1 ∧ k a f1 = Ok b f2.
Proof.
  unfold mbind, M_bind. destruct (m f) as [a f1| |]; [eauto|discriminate..].
Qed.

Lemma bind_Ok {A B} (m : M A) (k : A -> M B) f a f1 :
  m f = Ok a f1 -> (m ≫= k) f = k a f1.
Proof. unfold mbind, M_bind. intros ->. reflexivity. Qed.

(** ** The block store of [journal.c] *)

Lemma read_block_ok b f :
  u32 (b * BLOCK_SIZE) + BLOCK_SIZE <= Z.of_nat (length f) ->
  Journal.read_block b f = Ok (slice (u32 (b * BLOCK_SIZE)) BLOCK_SIZE f) f.
Proof.
  intros H. unfold Journal.read_block, file_read, mbind, M_bind.
  assert (0 <= u32 (b * BLOCK_SIZE)) by (unfold u32; apply Z.mod_pos_bound; lia).
  rewrite decide_True; [reflexivity|].
  apply length_slice_full; unfold BLOCK_SIZE in *; lia.
Qed.

Lemma read_block_Ok_inv b f buf f' :
  Journal.read_block b f = Ok buf f' ->
  f' = f ∧ buf = slice (u32 (b * BLOCK_SIZE)) BLOCK_SIZE f
  ∧ Z.of_nat (length buf) = BLOCK_SIZE
  ∧ u32 (b * BLOCK_SIZE) + BLOCK_SIZE <= Z.of_nat (length f).
Proof.
  unfold Journal.read_block, file_read, mbind, M_bind.
  case_decide as Hlen; [|discriminate].
  intros [= <- <-]. repeat split; try assumption.
  apply length_slice_full_inv; [|unfold BLOCK_SIZE; lia|assumption].
  unfold u32. apply Z.mod_pos_bound. lia.
Qed.

Lemma read_block_short b f :
  Z.of_nat (length f) < u32 (b * BLOCK_SIZE) + BLOCK_SIZE ->
  Journal.read_block b f = Exit 1 f.
Proof.
  intros H. unfold Journal.read_block, file_read, mbind, M_bind.
  rewrite decide_False; [reflexivity|].
  intros Hl. apply length_slice_full_inv in Hl; [lia| |unfold BLOCK_SIZE; lia].
  unfold u32. apply Z.mod_pos_bound. lia.
Qed.

(** ** Resource exhaustion in [do_create] *)

Lemma create_exhaustion_keeps_file sb filename f o f' :
  Journal.do_create sb filename f = Ok o f' ->
  resource_exhaustion o -> f' = f.
Proof.
  unfold Journal.do_create. intros Hrun Hex.
  apply bind_Ok_inv in Hrun as (ibmap0 & f1 & Hr1 & Hrun).
  apply read_block_Ok_inv in Hr1 as (-> & _).
  destruct (Journal.find_free_inode _ 0 ibmap0) as [chosen ibmap| |];
    [|injection Hrun as _ ->; reflexivity|discriminate].
  apply bind_Ok_inv in Hrun as (blk0 & f1 & Hr2 & Hrun).
  apply read_block_Ok_inv in Hr2 as (-> & _).
  apply bind_Ok_inv in Hrun as ([[nib rib] needs] & f1 & Hr3 & Hrun).
  assert (f1 = f) as ->.
  { destruct (decide (_ = sb_inode_start sb)) in Hr3.
    - injection Hr3 as _ _ _ ->. reflexivity.
    - apply bind_Ok_inv in Hr3 as (rb & f2 & Hr3 & Hret).
      apply read_block_Ok_inv in Hr3 as (-> & _).
      injection Hret as _ _ _ ->. reflexivity. }
  apply bind_Ok_inv in Hrun as (temp_root & f1 & Hr4 & Hrun).
  apply read_block_Ok_inv in Hr4 as (-> & _).
  apply bind_Ok_inv in Hrun as (dblock0 & f1 & Hr5 & Hrun).
  apply read_block_Ok_inv in Hr5 as (-> & _).
  destruct (Journal.find_free_dirent _ dblock0) as [dir_index|];
    [|injection Hrun as _ ->; reflexivity].
  apply bind_Ok_inv in Hrun as (jh & f1 & Hr6 & Hrun).
  injection Hr6 as _ <-.
  destruct (decide (Z.of_nat (length _) ≠ JOURNAL_HEADER_SIZE)) in Hrun;
    [injection Hrun as <- _; destruct Hex as [|[|]]; discriminate|].
  destruct (decide (_ > JOURNAL_BLOCKS * BLOCK_SIZE)) in Hrun;
    [injection Hrun as _ ->; reflexivity|].
  exfalso.
  repeat (apply bind_Ok_inv in Hrun as (? & ? & _ & Hrun)).
  injection Hrun as <- _. destruct Hex as [|[|]]; discriminate.
Qed.

(** C5: a create that ends with "no free inodes", "directory full" or
    "journal full" returns to [main] (it does not exit), has printed its
    diagnostic, and leaves every byte of the image, the journal region
    included, as it was. *)
Theorem create_failure_has_no_side_effects sb filename f o f' :
  Journal.do_create sb filename f = Ok o f' ->
  resource_exhaustion o ->
  f' = f ∧ is_Some (Journal.diagnostic o).
Proof.
  intros Hrun Hex. split.
  - exact (create_exhaustion_keeps_file _ _ _ _ _ Hrun Hex).
  - destruct Hex as [-> | [-> | ->]]; eexists; reflexivity.
Qed.

Lemma create_failure_has_no_side_effects_witness :
  Journal.do_create Samples.sb0 [x61] Samples.journal_nearly_full
    = Ok Journal.JournalFull Samples.journal_nearly_full
  ∧ Samples.journal_nearly_full = Samples.journal_nearly_full
  ∧ is_Some (Journal.diagnostic Journal.JournalFull).
Proof.
  assert (Journal.do_create Samples.sb0 [x61] Samples.journal_nearly_full
            = Ok Journal.JournalFull Samples.journal_nearly_full) as Hrun
    by by_evaluation.
  split; [exact Hrun|].
  apply (create_failure_has_no_side_effects _ _ _ _ _ Hrun).
  right; right; reflexivity.
Defined.

(** ** Loading the journal *)

Lemma load_journal_app sb idxs acc f :
  (forall i, i ∈ idxs -> journal_block_offset sb i + BLOCK_SIZE <= Z.of_nat (length f)) ->
  Journal.load_journal sb idxs acc f
    = Ok (acc ++ concat ((fun i => slice (journal_block_offset sb i) BLOCK_SIZE f) <$> idxs)) f.
Proof.
  revert acc. induction idxs as [|i idxs IH]; intros acc Hall.
  - simpl. rewrite app_nil_r. reflexivity.
  - simpl Journal.load_journal.
    erewrite bind_Ok; [|apply read_block_ok; apply Hall; left].
    rewrite IH by (intros; apply Hall; right; assumption).
    simpl. rewrite <- app_assoc. reflexivity.
Qed.

Lemma load_journal_Ok_inv sb idxs acc f jbuf f' :
  Journal.load_journal sb idxs acc f = Ok jbuf f' ->
  f' = f ∧ forall i, i ∈ idxs -> journal_block_offset sb i + BLOCK_SIZE <= Z.of_nat (length f).
Proof.
  revert acc. induction idxs as [|i idxs IH]; intros acc; simpl.
  - intros [= _ <-]. split; [reflexivity|]. intros i Hi. inversion Hi.
  - intros Hrun. apply bind_Ok_inv in Hrun as (blk & f1 & Hr & Hrun).
    apply read_block_Ok_inv in Hr as (-> & _ & _ & Hlen).
    apply IH in Hrun as [-> Hall]. split; [reflexivity|].
    intros k Hk. apply elem_of_cons in Hk as [->|Hk]; [exact Hlen|auto].
Qed.

Lemma load_journal_not_Undefined sb idxs acc f :
  Journal.load_journal sb idxs acc f ≠ Undefined.
Proof.
  revert acc. induction idxs as [|i idxs IH]; intros acc; simpl; [discriminate|].
  unfold Journal.read_block, file_read, mbind, M_bind.
  destruct (decide _); [apply IH|discriminate].
Qed.

Lemma elem_of_zseq_from lo n i :
  i ∈ zseq_from lo n <-> lo <= i < lo + Z.of_nat n.
Proof.
  revert lo. induction n as [|n IH]; intros lo; simpl.
  - split; [intros H; inversion H|lia].
  - rewrite elem_of_cons, IH. lia.
Qed.

Lemma elem_of_zseq lo len i : i ∈ zseq lo len <-> lo <= i < lo + Z.max 0 len.
Proof. unfold zseq. rewrite elem_of_zseq_from. lia. Qed.

Lemma length_zseq_from lo n : length (zseq_from lo n) = n.
Proof. revert lo. induction n as [|n IH]; intros lo; simpl; [|rewrite IH]; reflexivity. Qed.

Lemma load_journal_ok sb f :
  journal_readable sb f ->
  Journal.load_journal sb (zseq 0 JOURNAL_BLOCKS) [] f = Ok (journal_image sb f) f.
Proof.
  intros Hr. rewrite load_journal_app; [reflexivity|].
  intros i Hi. apply Hr. apply elem_of_zseq in Hi. unfold JOURNAL_BLOCKS in *. lia.
Qed.

Lemma load_journal_readable sb f jbuf f' :
  Journal.load_journal sb (zseq 0 JOURNAL_BLOCKS) [] f = Ok jbuf f' -> journal_readable sb f.
Proof.
  intros H. apply load_journal_Ok_inv in H as [_ Hall].
  intros i Hi. apply Hall. apply elem_of_zseq. unfold JOURNAL_BLOCKS in *. lia.
Qed.

Lemma journal_block_offset_range sb i : 0 <= journal_block_offset sb i < 2 ^ 32.
Proof. unfold journal_block_offset, u32. apply Z.mod_pos_bound. lia. Qed.

(** The first block of [jbuf] is block [journal_block] of the file. *)
Lemma slice_journal_image_head sb f o n :
  journal_readable sb f -> 0 <= o -> 0 <= n -> o + n <= BLOCK_SIZE ->
  slice o n (journal_image sb f) = slice (journal_block_offset sb 0 + o) n f.
Proof.
  intros Hr Ho Hn Hon. unfold journal_image.
  change (zseq 0 JOURNAL_BLOCKS) with (0 :: zseq 1 (JOURNAL_BLOCKS - 1)).
  rewrite fmap_cons. simpl concat.
  pose proof (journal_block_offset_range sb 0).
  pose proof (Hr 0 ltac:(unfold JOURNAL_BLOCKS; lia)).
  rewrite slice_app_l, slice_slice; try lia; [reflexivity|].
  rewrite length_slice_full; unfold BLOCK_SIZE in *; lia.
Qed.

Lemma journal_image_magic sb f :
  journal_readable sb f -> get32 0 (journal_image sb f) = journal_magic sb f.
Proof.
  intros Hr. unfold get32, journal_magic.
  rewrite slice_journal_image_head by (assumption || unfold BLOCK_SIZE; lia).
  rewrite Z.add_0_r. reflexivity.
Qed.

Lemma journal_image_nbytes_used sb f :
  journal_readable sb f -> get32 4 (journal_image sb f) = journal_nbytes_used sb f.
Proof.
  intros Hr. unfold get32, journal_nbytes_used.
  rewrite slice_journal_image_head by (assumption || unfold BLOCK_SIZE; lia).
  reflexivity.
Qed.

(** An empty journal: [do_install] returns before the scan. *)
Lemma install_empty sb f :
  journal_readable sb f -> journal_empty sb f ->
  forall fuel, Journal.do_install fuel sb f = Some (Ok tt f).
Proof.
  intros Hr He fuel. unfold Journal.do_install.
  rewrite load_journal_ok by assumption.
  rewrite journal_image_magic, journal_image_nbytes_used by assumption.
  destruct He as [Hm|Hn].
  - rewrite decide_True by assumption. reflexivity.
  - case_decide; [reflexivity|]. rewrite decide_True by assumption. reflexivity.
Qed.

(** ** Rewriting the journal *)

Lemma journal_block_offset_aligned sb i :
  exists q, journal_block_offset sb i = q * BLOCK_SIZE ∧ 0 <= q < 2 ^ 20.
Proof.
  unfold journal_block_offset, BLOCK_SIZE.
  exists (u32 (sb_journal_block sb + i) mod 2 ^ 20). split.
  - unfold u32 at 1. change (2 ^ 32) with (2 ^ 20 * 4096).
    apply Z.mul_mod_distr_r; lia.
  - apply Z.mod_pos_bound. lia.
Qed.

Lemma journal_block_offset_eq sb i :
  journal_block_offset sb i = (sb_journal_block sb + i) mod 2 ^ 20 * BLOCK_SIZE.
Proof.
  unfold journal_block_offset, BLOCK_SIZE.
  unfold u32 at 1. change (2 ^ 32) with (2 ^ 20 * 4096).
  rewrite Z.mul_mod_distr_r by lia. f_equal.
  unfold u32. apply Z.mod_mod_divide.
  exists (2 ^ 12). reflexivity.
Qed.

Lemma mod_apart J i k :
  0 <= i < 16 -> 0 <= k < 16 -> i ≠ k -> (J + i) mod 1048576 ≠ (J + k) mod 1048576.
Proof.
  intros Hi Hk Hne Heq.
  pose proof (Z.div_mod (J + i) 1048576 ltac:(lia)).
  pose proof (Z.div_mod (J + k) 1048576 ltac:(lia)).
  assert ((J + i) / 1048576 = (J + k) / 1048576
          ∨ (J + i) / 1048576 < (J + k) / 1048576
          ∨ (J + i) / 1048576 > (J + k) / 1048576) as [|[|]] by lia; lia.
Qed.

Lemma journal_block_offset_apart sb i k :
  0 <= i < JOURNAL_BLOCKS -> 0 <= k < JOURNAL_BLOCKS -> i ≠ k ->
  journal_block_offset sb i + BLOCK_SIZE <= journal_block_offset sb k
  ∨ journal_block_offset sb k + BLOCK_SIZE <= journal_block_offset sb i.
Proof.
  intros Hi Hk Hne. rewrite !journal_block_offset_eq.
  unfold BLOCK_SIZE, JOURNAL_BLOCKS in *. change (2 ^ 20) with 1048576.
  pose proof (mod_apart (sb_journal_block sb) i k Hi Hk Hne). lia.
Qed.

Lemma write_block_eq b buf f :
  Journal.write_block b buf f = Ok tt (splice (u32 (b * BLOCK_SIZE)) buf f).
Proof. reflexivity. Qed.

Lemma store_journal_spec sb jbuf idxs f :
  Z.of_nat (length jbuf) = JOURNAL_BLOCKS * BLOCK_SIZE ->
  (forall i, i ∈ idxs -> 0 <= i < JOURNAL_BLOCKS) ->
  exists f',
    Journal.store_journal sb idxs jbuf f = Ok tt f'
    ∧ (length f <= length f')%nat
    ∧ (forall i, i ∈ idxs -> journal_block_offset sb i + BLOCK_SIZE <= Z.of_nat (length f'))
    ∧ (forall o n, 0 <= o -> 0 <= n -> o + n <= Z.of_nat (length f) ->
         (forall i, i ∈ idxs ->
            o + n <= journal_block_offset sb i ∨ journal_block_offset sb i + BLOCK_SIZE <= o) ->
         slice o n f' = slice o n f).
Proof.
  intros Hlen. revert f. induction idxs as [|i idxs IH]; intros f Hidx.
  - exists f. simpl. repeat split; try lia; try reflexivity.
    intros i Hi. inversion Hi.
  - simpl Journal.store_journal.
    set (blk := slice (i * BLOCK_SIZE) BLOCK_SIZE jbuf).
    assert (Z.of_nat (length blk) = BLOCK_SIZE) as Hblk.
    { apply length_slice_full; pose proof (Hidx i ltac:(left));
        unfold BLOCK_SIZE, JOURNAL_BLOCKS in *; lia. }
    pose proof (journal_block_offset_range sb i) as Hoff.
    set (f1 := splice (journal_block_offset sb i) blk f).
    destruct (IH f1) as (f' & Hrun & Hmono & Hfit & Hkeep).
    { intros k Hk. apply Hidx. right. exact Hk. }
    assert (length f <= length f1)%nat as Hf1 by (unfold f1; rewrite length_splice; lia).
    assert (journal_block_offset sb i + BLOCK_SIZE <= Z.of_nat (length f1)) as Hi1
      by (unfold f1; rewrite length_splice; lia).
    exists f'. split; [|split; [|split]].
    + erewrite bind_Ok; [exact Hrun|]. apply write_block_eq.
    + lia.
    + intros k Hk. apply elem_of_cons in Hk as [->|Hk]; [lia|auto].
    + intros o n Ho Hn Hon Hdis.
      rewrite Hkeep; try lia.
      * destruct (Hdis i ltac:(left)).
        -- apply slice_splice_before; lia.
        -- apply slice_splice_after; lia.
      * intros k Hk. apply Hdis. right. exact Hk.
Qed.

Lemma length_cleared_journal :
  Z.of_nat (length Journal.cleared_journal) = JOURNAL_BLOCKS * BLOCK_SIZE.
Proof. vm_compute. reflexivity. Qed.

Lemma cleared_journal_header :
  slice 0 8 Journal.cleared_journal = le_encode 4 JOURNAL_MAGIC ++ le_encode 4 JOURNAL_HEADER_SIZE.
Proof. vm_compute. reflexivity. Qed.

(** After the sixteen stores every journal block exists and block 0 of the
    region starts with the empty header. *)
Lemma store_cleared_journal sb f :
  exists f',
    Journal.store_journal sb (zseq 0 JOURNAL_BLOCKS) Journal.cleared_journal f = Ok tt f'
    ∧ journal_readable sb f'
    ∧ slice (journal_block_offset sb 0) 8 f'
      = le_encode 4 JOURNAL_MAGIC ++ le_encode 4 JOURNAL_HEADER_SIZE.
Proof.
  change (zseq 0 JOURNAL_BLOCKS) with (0 :: zseq 1 (JOURNAL_BLOCKS - 1)).
  simpl Journal.store_journal.
  set (blk := slice (0 * BLOCK_SIZE) BLOCK_SIZE Journal.cleared_journal).
  assert (Z.of_nat (length blk) = BLOCK_SIZE) as Hblk by (vm_compute; reflexivity).
  pose proof (journal_block_offset_range sb 0) as Hoff.
  set (f1 := splice (journal_block_offset sb 0) blk f).
  assert (journal_block_offset sb 0 + BLOCK_SIZE <= Z.of_nat (length f1)) as Hi1
    by (unfold f1; rewrite length_splice; lia).
  destruct (store_journal_spec sb Journal.cleared_journal (zseq 1 (JOURNAL_BLOCKS - 1)) f1)
    as (f' & Hrun & Hmono & Hfit & Hkeep).
  { apply length_cleared_journal. }
  { intros i Hi. apply elem_of_zseq in Hi. unfold JOURNAL_BLOCKS in *. lia. }
  exists f'. split; [|split].
  - erewrite bind_Ok; [exact Hrun|]. apply write_block_eq.
  - intros i Hi. destruct (decide (i = 0)) as [->|Hne]; [lia|].
    apply Hfit. apply elem_of_zseq. unfold JOURNAL_BLOCKS in *. lia.
  - rewrite Hkeep; try (unfold BLOCK_SIZE in *; lia).
    + unfold f1. rewrite slice_splice_inside by (unfold BLOCK_SIZE in *; lia).
      rewrite Z.sub_diag. unfold blk. rewrite slice_slice by (unfold BLOCK_SIZE; lia).
      apply cleared_journal_header.
    + intros i Hi. apply elem_of_zseq in Hi.
      destruct (journal_block_offset_apart sb 0 i) as [H|H];
        unfold BLOCK_SIZE, JOURNAL_BLOCKS in *; lia.
Qed.

Lemma journal_header_empty sb f :
  slice (journal_block_offset sb 0) 8 f
    = le_encode 4 JOURNAL_MAGIC ++ le_encode 4 JOURNAL_HEADER_SIZE ->
  journal_magic sb f = JOURNAL_MAGIC ∧ journal_nbytes_used sb f = JOURNAL_HEADER_SIZE.
Proof.
  intros H. pose proof (journal_block_offset_range sb 0).
  unfold journal_magic, journal_nbytes_used, get32.
  replace (slice (journal_block_offset sb 0) 4 f)
    with (slice 0 4 (slice (journal_block_offset sb 0) 8 f))
    by (rewrite slice_slice by lia; f_equal; lia).
  replace (slice (journal_block_offset sb 0 + 4) 4 f)
    with (slice 4 4 (slice (journal_block_offset sb 0) 8 f))
    by (rewrite slice_slice by lia; f_equal; lia).
  rewrite H. split; reflexivity.
Qed.

Lemma install_leaves_empty_journal sb f fuel f1 :
  Journal.do_install fuel sb f = Some (Ok tt f1) ->
  journal_readable sb f1 ∧ journal_empty sb f1.
Proof.
  unfold Journal.do_install.
  destruct (Journal.load_journal sb _ [] f) as [jbuf f0| |] eqn:Hload; [|discriminate..].
  pose proof (load_journal_readable _ _ _ _ Hload) as Hr.
  pose proof (load_journal_ok sb f Hr) as Hok.
  rewrite Hload in Hok. injection Hok as -> ->.
  rewrite journal_image_magic, journal_image_nbytes_used by assumption.
  destruct (decide (journal_magic sb f ≠ JOURNAL_MAGIC)) as [Hm|Hm].
  - intros [= <-]. split; [assumption|]. left. assumption.
  - destruct (decide (journal_nbytes_used sb f <= JOURNAL_HEADER_SIZE)) as [Hn|Hn].
    + intros [= <-]. split; [assumption|]. right. assumption.
    + destruct (Journal.scan _ _ _ _ _ _ _) as [[[] f2| |]|]; try discriminate.
      destruct (store_cleared_journal sb f2) as (f' & -> & Hr' & Hhdr).
      intros [= <-]. split; [assumption|]. right.
      apply journal_header_empty in Hhdr as [_ ->]. lia.
Qed.

(** C7: on a readable journal whose magic is absent or whose bytes-used is
    at most the header size, install returns without writing anything; and
    whatever journal an install that returned has left behind is of that
    kind, so a second install changes no byte of the image. *)
Theorem install_empty_journal_is_noop sb f :
  (journal_readable sb f -> journal_empty sb f ->
   forall fuel, Journal.do_install fuel sb f = Some (Ok tt f))
  ∧ (forall fuel f1, Journal.do_install fuel sb f = Some (Ok tt f1) ->
     journal_empty sb f1 ∧ forall fuel', Journal.do_install fuel' sb f1 = Some (Ok tt f1)).
Proof.
  split.
  - apply install_empty.
  - intros fuel f1 Hrun.
    apply install_leaves_empty_journal in Hrun as [Hr He].
    split; [assumption|]. apply install_empty; assumption.
Qed.

Lemma length_fresh : Z.of_nat (length Samples.fresh) = TOTAL_BLOCKS * BLOCK_SIZE.
Proof. vm_compute. reflexivity. Qed.

Lemma sb0_journal_block_offset i :
  0 <= i < JOURNAL_BLOCKS ->
  journal_block_offset Samples.sb0 i = (JOURNAL_BLOCK_IDX + i) * BLOCK_SIZE.
Proof.
  intros Hi. rewrite journal_block_offset_eq.
  change (sb_journal_block Samples.sb0) with JOURNAL_BLOCK_IDX.
  unfold JOURNAL_BLOCKS, JOURNAL_BLOCK_IDX in *.
  rewrite Z.mod_small; [reflexivity|]. change (2 ^ 20) with 1048576. lia.
Qed.

Lemma fresh_journal_readable : journal_readable Samples.sb0 Samples.fresh.
Proof.
  intros i Hi. rewrite sb0_journal_block_offset, length_fresh by assumption.
  unfold JOURNAL_BLOCKS, JOURNAL_BLOCK_IDX, BLOCK_SIZE in *.
  change TOTAL_BLOCKS with 85. lia.
Qed.

Lemma fresh_journal_empty : journal_empty Samples.sb0 Samples.fresh.
Proof. left. vm_compute. discriminate. Qed.

Lemma install_empty_journal_is_noop_witness :
  Journal.do_install 0 Samples.sb0 Samples.fresh = Some (Ok tt Samples.fresh)
  ∧ journal_empty Samples.sb0 Samples.fresh
  ∧ Journal.do_install 1 Samples.sb0 Samples.fresh = Some (Ok tt Samples.fresh).
Proof.
  destruct (install_empty_journal_is_noop Samples.sb0 Samples.fresh) as [Hnoop Hagain].
  pose proof (Hnoop fresh_journal_readable fresh_journal_empty 0%nat) as Hfirst.
  destruct (Hagain 0%nat Samples.fresh Hfirst) as [Hempty Hsecond].
  split; [exact Hfirst|]. split; [exact Hempty|]. apply Hsecond.
Defined.

(** ** A record that declares length zero *)

Lemma scan_stalls sb jbuf n pos pending f :
  pos + REC_HEADER_SIZE <= n ->
  Journal.scan_body sb jbuf n pos pending f = Ok (Journal.Continue pos pending) f ->
  forall fuel, Journal.scan fuel sb jbuf n pos pending f = None.
Proof.
  intros Hpos Hbody fuel. induction fuel as [|fuel IH]; simpl; [reflexivity|].
  rewrite decide_True by assumption. rewrite Hbody. exact IH.
Qed.

Lemma scan_body_zero_length sb jbuf n pos f :
  pos + REC_HEADER_SIZE <= Z.of_nat (length jbuf) -> 0 <= pos <= n ->
  get16 (pos + 2) jbuf = 0 ->
  Journal.scan_body sb jbuf n pos [] f = Ok (Journal.Continue pos []) f.
Proof.
  intros Hin Hpos Hsize. unfold Journal.scan_body.
  rewrite decide_False by lia. rewrite Hsize, Z.add_0_r.
  rewrite decide_False by lia.
  destruct (decide (get16 pos jbuf = REC_DATA)).
  - rewrite decide_True by (unfold REC_HEADER_SIZE, BLOCK_SIZE; lia). reflexivity.
  - destruct (decide (get16 pos jbuf = REC_COMMIT)); reflexivity.
Qed.

Lemma length_journal_image sb f :
  journal_readable sb f -> Z.of_nat (length (journal_image sb f)) = JOURNAL_BLOCKS * BLOCK_SIZE.
Proof.
  intros Hr. unfold journal_image.
  assert (forall idxs, (forall i, i ∈ idxs -> 0 <= i < JOURNAL_BLOCKS) ->
            Z.of_nat (length (concat ((fun i => slice (journal_block_offset sb i) BLOCK_SIZE f) <$> idxs)))
            = Z.of_nat (length idxs) * BLOCK_SIZE) as Hgen.
  { induction idxs as [|i idxs IH]; intros Hall; [reflexivity|].
    rewrite fmap_cons. simpl concat. rewrite length_app, Nat2Z.inj_add.
    rewrite IH by (intros; apply Hall; right; assumption).
    pose proof (journal_block_offset_range sb i).
    rewrite length_slice_full; try lia; [simpl length; lia|unfold BLOCK_SIZE; lia|].
    apply Hr. apply Hall. left. }
  rewrite Hgen; [reflexivity|].
  intros i Hi. apply elem_of_zseq in Hi. unfold JOURNAL_BLOCKS in *. lia.
Qed.

(** Whatever its type, a first record of declared length zero keeps the
    scan at the same position for ever. *)
Lemma install_stalls_on_zero_length sb f :
  journal_readable sb f ->
  journal_magic sb f = JOURNAL_MAGIC ->
  JOURNAL_HEADER_SIZE + REC_HEADER_SIZE <= journal_nbytes_used sb f ->
  get16 (journal_block_offset sb 0 + JOURNAL_HEADER_SIZE + 2) f = 0 ->
  forall fuel, Journal.do_install fuel sb f = None.
Proof.
  intros Hr Hm Hn Hsize fuel. unfold Journal.do_install.
  rewrite load_journal_ok by assumption.
  rewrite journal_image_magic, journal_image_nbytes_used by assumption.
  rewrite decide_False by (intros H; apply H; assumption).
  rewrite decide_False by (unfold JOURNAL_HEADER_SIZE, REC_HEADER_SIZE in *; lia).
  rewrite scan_stalls; [reflexivity|exact Hn|].
  apply scan_body_zero_length.
  - rewrite length_journal_image by assumption.
    unfold JOURNAL_HEADER_SIZE, REC_HEADER_SIZE, JOURNAL_BLOCKS, BLOCK_SIZE. lia.
  - unfold JOURNAL_HEADER_SIZE, REC_HEADER_SIZE in *. lia.
  - unfold get16. rewrite slice_journal_image_head;
      try assumption; try (unfold JOURNAL_HEADER_SIZE, BLOCK_SIZE; lia).
    rewrite Z.add_assoc. exact Hsize.
Qed.

Lemma main_install_eq fuel f :
  BLOCK_SIZE <= Z.of_nat (length f) -> sb_magic (Journal.superblock_of f) = FS_MAGIC ->
  Journal.main fuel Journal.Install f =
    match Journal.do_install fuel (Journal.superblock_of f) f with
    | Some (Ok _ f2) => Some (Ok 0 f2)
    | Some (Exit s f2) => Some (Exit s f2)
    | Some Undefined => Some Undefined
    | None => None
    end.
Proof.
  intros Hlen Hm. unfold Journal.main.
  rewrite read_block_ok by (change (u32 (0 * BLOCK_SIZE)) with 0; lia).
  change (u32 (0 * BLOCK_SIZE)) with 0. fold (Journal.superblock_of f).
  rewrite decide_False by (intros H; apply H; assumption). reflexivity.
Qed.

Lemma main_create_eq fuel filename f :
  BLOCK_SIZE <= Z.of_nat (length f) -> sb_magic (Journal.superblock_of f) = FS_MAGIC ->
  Journal.main fuel (Journal.Create filename) f =
    match Journal.do_create (Journal.superblock_of f) filename f with
    | Ok _ f2 => Some (Ok 0 f2)
    | Exit s f2 => Some (Exit s f2)
    | Undefined => Some Undefined
    end.
Proof.
  intros Hlen Hm. unfold Journal.main.
  rewrite read_block_ok by (change (u32 (0 * BLOCK_SIZE)) with 0; lia).
  change (u32 (0 * BLOCK_SIZE)) with 0. fold (Journal.superblock_of f).
  rewrite decide_False by (intros H; apply H; assumption). reflexivity.
Qed.

Lemma superblock_of_splice_journal data f :
  BLOCK_SIZE <= Z.of_nat (length f) ->
  Journal.superblock_of (splice BLOCK_SIZE data f) = Journal.superblock_of f.
Proof.
  intros Hlen. unfold Journal.superblock_of.
  rewrite slice_splice_before by (unfold BLOCK_SIZE in *; lia). reflexivity.
Qed.

Lemma superblock_of_fresh : Journal.superblock_of Samples.fresh = Samples.sb0.
Proof. vm_compute. reflexivity. Qed.

(** C1 (the code at the failing input): with a journal whose first record is
    a Data record of declared length zero, the scan of [install] never
    leaves that record: no number of iterations ends the command. *)
Theorem install_zero_length_record_never_returns :
  forall fuel, Journal.main fuel Journal.Install Samples.zero_length_record = None.
Proof.
  intros fuel.
  assert (Z.of_nat (length Samples.zero_length_record) = TOTAL_BLOCKS * BLOCK_SIZE) as Hlen
    by (vm_compute; reflexivity).
  assert (Journal.superblock_of Samples.zero_length_record = Samples.sb0) as Hsb
    by (vm_compute; reflexivity).
  rewrite main_install_eq, Hsb;
    [|rewrite Hlen; vm_compute; discriminate|rewrite Hsb; reflexivity].
  rewrite install_stalls_on_zero_length; [reflexivity| | | |].
  - intros i Hi. rewrite sb0_journal_block_offset, Hlen by assumption.
    unfold JOURNAL_BLOCKS, JOURNAL_BLOCK_IDX, BLOCK_SIZE in *.
    change TOTAL_BLOCKS with 85. lia.
  - vm_compute. reflexivity.
  - vm_compute. discriminate.
  - vm_compute. reflexivity.
Qed.

(** ** Create at the failing inputs *)

(** C6 (the code at the failing input): the superblock places the journal
    where the file ends.  A block read there is fatal, but the header read
    of create, which gets no byte, makes [do_create] return silently:
    [main] ends with status 0 and the image is untouched. *)
Theorem create_header_read_failure_is_silent :
  Journal.read_block TOTAL_BLOCKS Samples.journal_past_end = Exit 1 Samples.journal_past_end
  ∧ Journal.do_create (Journal.superblock_of Samples.journal_past_end) [x61] Samples.journal_past_end
    = Ok Journal.HeaderShortRead Samples.journal_past_end
  ∧ forall fuel, Journal.main fuel (Journal.Create [x61]) Samples.journal_past_end
                 = Some (Ok 0 Samples.journal_past_end).
Proof.
  split; [by_evaluation|]. split; [by_evaluation|]. intros fuel. by_evaluation.
Qed.

Lemma strncpy_long n (src : list byte) :
  (n <= length src)%nat -> x00 ∉ take n src -> Journal.strncpy n src = take n src.
Proof.
  revert src. induction n as [|n IH]; intros [|c src] Hlen Hnz; simpl in *; try lia; try reflexivity.
  rewrite decide_False by (intros ->; apply Hnz; left).
  rewrite IH; [reflexivity|lia|]. intros Hin. apply Hnz. right. exact Hin.
Qed.

(** C2 (the code at the failing input): create of a 28-character name on the
    fresh image, then install.  The entry written for inode 1 holds the 28
    characters and no null byte. *)
Theorem create_long_name_is_not_terminated :
  Journal.do_create Samples.sb0 Samples.long_name Samples.fresh
    = Ok (Journal.Created 1) Runs.long_name_created
  ∧ Journal.do_install 8 Samples.sb0 Runs.long_name_created
    = Some (Ok tt Runs.long_name_installed)
  ∧ Validator.dirent_inode
      (slice (DATA_START_IDX * BLOCK_SIZE) BLOCK_SIZE Runs.long_name_installed) 2 = 1
  ∧ Validator.dirent_name
      (slice (DATA_START_IDX * BLOCK_SIZE) BLOCK_SIZE Runs.long_name_installed) 2
    = Samples.long_name
  ∧ x00 ∉ Samples.long_name.
Proof.
  split; [by_evaluation|]. split; [by_evaluation|].
  split; [by_evaluation|]. split; [by_evaluation|]. by_evaluation.
Qed.

(** ** Decoding the journal *)

Lemma holds_at_app buf pos a b :
  0 <= pos -> holds_at buf pos (a ++ b) ->
  holds_at buf pos a ∧ holds_at buf (pos + Z.of_nat (length a)) b.
Proof.
  unfold holds_at. rewrite length_app, Nat2Z.inj_add. intros Hpos H. split.
  - rewrite <- (Z.add_0_r pos) at 1.
    rewrite <- (slice_slice 0 _ pos (Z.of_nat (length a) + Z.of_nat (length b))) by lia.
    rewrite H, slice_app_l by lia. apply slice_all. lia.
  - rewrite <- (slice_slice _ _ pos (Z.of_nat (length a) + Z.of_nat (length b))) by lia.
    rewrite H, slice_app_r by lia. rewrite Z.sub_diag. apply slice_all. lia.
Qed.

Lemma holds_at_in_bounds buf pos bytes :
  0 <= pos -> bytes ≠ [] -> holds_at buf pos bytes ->
  pos + Z.of_nat (length bytes) <= Z.of_nat (length buf).
Proof.
  unfold holds_at. intros Hpos Hne H.
  apply length_slice_full_inv; try lia.
  - destruct bytes; [contradiction|simpl; lia].
  - rewrite H. reflexivity.
Qed.

Lemma holds_at_decode buf pos n v :
  holds_at buf pos (le_encode n v) ->
  le_decode (slice pos (Z.of_nat n) buf) = v mod 256 ^ Z.of_nat n.
Proof.
  unfold holds_at. rewrite length_le_encode. intros ->. apply le_decode_encode.
Qed.

Lemma length_encode_data_record b d :
  Z.of_nat (length d) = BLOCK_SIZE ->
  Z.of_nat (length (Journal.encode_data_record b d)) = DATA_RECORD_SIZE.
Proof.
  intros Hd. unfold Journal.encode_data_record.
  rewrite !length_app, !length_le_encode. unfold DATA_RECORD_SIZE. lia.
Qed.

Lemma length_encode_record r :
  well_formed r ->
  Z.of_nat (length (encode_record r))
  = match r with Data _ _ => DATA_RECORD_SIZE | Commit => COMMIT_RECORD_SIZE end.
Proof.
  destruct r as [b d|]; [|reflexivity].
  intros [_ Hd]. exact (length_encode_data_record b d Hd).
Qed.

(** The fields of a Data record found at [pos]. *)
Lemma data_record_fields buf pos b d :
  0 <= pos -> 0 <= b < 2 ^ 32 -> Z.of_nat (length d) = BLOCK_SIZE ->
  holds_at buf pos (Journal.encode_data_record b d) ->
  get16 pos buf = REC_DATA ∧ get16 (pos + 2) buf = DATA_RECORD_SIZE
  ∧ get32 (pos + 4) buf = b ∧ slice (pos + 8) BLOCK_SIZE buf = d.
Proof.
  intros Hpos Hb Hd H. unfold Journal.encode_data_record in H.
  apply holds_at_app in H as [Ht H]; [|lia].
  apply holds_at_app in H as [Hs H]; [|lia].
  apply holds_at_app in H as [Hn H]; [|lia].
  rewrite !length_le_encode in *.
  apply holds_at_decode in Ht, Hs, Hn.
  change (Z.of_nat 2) with 2 in *. change (Z.of_nat 4) with 4 in *.
  replace (pos + 2 + 2) with (pos + 4) in * by lia.
  replace (pos + 4 + 4) with (pos + 8) in * by lia.
  unfold get16, get32.
  rewrite Ht, Hs, Hn. unfold holds_at in H. rewrite Hd in H.
  repeat split; try reflexivity; try assumption.
  apply Z.mod_small. change (256 ^ 4) with (2 ^ 32). lia.
Qed.

Lemma commit_record_fields buf pos :
  0 <= pos -> holds_at buf pos Journal.encode_commit_record ->
  get16 pos buf = REC_COMMIT ∧ get16 (pos + 2) buf = COMMIT_RECORD_SIZE.
Proof.
  intros Hpos H. unfold Journal.encode_commit_record in H.
  apply holds_at_app in H as [Ht Hs]; [|lia].
  rewrite !length_le_encode in *.
  apply holds_at_decode in Ht, Hs.
  unfold get16. change (Z.of_nat 2) with 2 in *.
  rewrite Ht, Hs. split; reflexivity.
Qed.

Lemma apply_pending_writes sb jbuf pending ws f :
  Forall2 (pending_for jbuf) pending ws ->
  Journal.apply_pending sb jbuf pending f = Ok tt (foldl (apply_write sb) f ws).
Proof.
  intros H. revert f. induction H as [|p w pending ws (Hb & Hin & Hd) _ IH]; intros f.
  - reflexivity.
  - simpl Journal.apply_pending. simpl foldl. unfold apply_write at 2.
    rewrite Hb. destruct (decide (w.1 < sb_total_blocks sb)).
    + rewrite decide_True by assumption.
      erewrite bind_Ok; [|apply write_block_eq]. rewrite Hd. apply IH.
    + erewrite bind_Ok; [|reflexivity]. apply IH.
Qed.

Lemma length_encode_records_cons r rs :
  length (encode_records (r :: rs)) = (length (encode_record r) + length (encode_records rs))%nat.
Proof. unfold encode_records. rewrite fmap_cons. simpl. apply length_app. Qed.

(** The scan over a well-formed record sequence ends after one iteration
    per record and one more, and has done what [replay] says. *)
Lemma scan_replays sb jbuf nbytes_used rs :
  forall pos pending ws f fuel,
    Forall well_formed rs ->
    0 <= pos ->
    holds_at jbuf pos (encode_records rs) ->
    pos + Z.of_nat (length (encode_records rs)) = nbytes_used ->
    nbytes_used <= Z.of_nat (length jbuf) ->
    Forall2 (pending_for jbuf) pending ws ->
    (length rs < fuel)%nat ->
    Journal.scan fuel sb jbuf nbytes_used pos pending f = Some (Ok tt (replay sb rs ws f)).
Proof.
  induction rs as [|r rs IH]; intros pos pending ws f fuel Hwf Hpos Hat Hend Hfit Hpend Hfuel.
  - destruct fuel as [|fuel]; [simpl in Hfuel; lia|].
    simpl. simpl in Hend. rewrite decide_False by (unfold REC_HEADER_SIZE; lia). reflexivity.
  - destruct fuel as [|fuel]; [simpl in Hfuel; lia|].
    apply Forall_cons in Hwf as [Hr Hwf].
    rewrite length_encode_records_cons, Nat2Z.inj_add in Hend.
    unfold encode_records in Hat. rewrite fmap_cons in Hat. simpl concat in Hat.
    apply holds_at_app in Hat as [Hhd Htl]; [|assumption].
    pose proof (length_encode_record r Hr) as Hlen.
    simpl Journal.scan.
    assert (IHfuel : (length rs < fuel)%nat) by (simpl in Hfuel; lia).
    destruct r as [b d|].
    + destruct Hr as [Hb Hd].
      apply data_record_fields in Hhd as (Ht & Hs & Hn & Hdata); try assumption.
      rewrite Hlen in *. unfold DATA_RECORD_SIZE, REC_HEADER_SIZE, BLOCK_SIZE in *.
      rewrite decide_True by lia.
      unfold Journal.scan_body. unfold REC_HEADER_SIZE, BLOCK_SIZE.
      rewrite decide_False by lia. rewrite Ht, Hs.
      rewrite decide_False by lia. rewrite decide_True by reflexivity.
      rewrite decide_False by (intros H; apply H; reflexivity).
      rewrite decide_False by lia. simpl mret. unfold mret, M_ret.
      rewrite Hn. simpl replay.
      apply IH; try assumption; try lia.
      apply Forall2_app; [assumption|].
      constructor; [|constructor].
      unfold pending_for. simpl. unfold BLOCK_SIZE.
      replace (pos + 4 + 4) with (pos + 8) by lia.
      repeat split; [lia|exact Hdata].
    + apply commit_record_fields in Hhd as (Ht & Hs); try assumption.
      rewrite Hlen in *. unfold COMMIT_RECORD_SIZE, REC_HEADER_SIZE in *.
      rewrite decide_True by lia.
      unfold Journal.scan_body. unfold REC_HEADER_SIZE.
      rewrite decide_False by lia. rewrite Ht, Hs.
      rewrite decide_False by lia.
      rewrite decide_False by (unfold REC_COMMIT, REC_DATA; lia).
      rewrite decide_True by reflexivity.
      erewrite bind_Ok; [|apply apply_pending_writes; eassumption].
      unfold mret, M_ret. simpl replay.
      apply IH; try assumption; try lia. constructor.
Qed.

(** ** The journal region when its offsets do not wrap *)

Lemma journal_block_offset_addressable sb i :
  journal_addressable sb -> 0 <= i < JOURNAL_BLOCKS ->
  journal_block_offset sb i = (sb_journal_block sb + i) * BLOCK_SIZE.
Proof.
  intros [Hlo Hhi] Hi. rewrite journal_block_offset_eq.
  unfold JOURNAL_BLOCKS in *. rewrite Z.mod_small by lia. reflexivity.
Qed.

Lemma concat_block_slices base (f : file) n k :
  0 <= base -> 0 <= k ->
  concat ((fun i => slice (base + i * BLOCK_SIZE) BLOCK_SIZE f) <$> zseq_from k n)
  = slice (base + k * BLOCK_SIZE) (Z.of_nat n * BLOCK_SIZE) f.
Proof.
  intros Hbase. revert k. induction n as [|n IH]; intros k Hk.
  - reflexivity.
  - simpl zseq_from. rewrite fmap_cons. simpl concat. rewrite IH by lia.
    replace (base + (k + 1) * BLOCK_SIZE) with (base + k * BLOCK_SIZE + BLOCK_SIZE) by lia.
    rewrite slice_cat by (unfold BLOCK_SIZE; lia).
    f_equal. lia.
Qed.

Lemma journal_image_slice sb f :
  journal_addressable sb ->
  journal_image sb f
  = slice (sb_journal_block sb * BLOCK_SIZE) (JOURNAL_BLOCKS * BLOCK_SIZE) f.
Proof.
  intros Ha. unfold journal_image, zseq.
  rewrite (list_fmap_ext _
             (fun i => slice (sb_journal_block sb * BLOCK_SIZE + i * BLOCK_SIZE) BLOCK_SIZE f)).
  - destruct Ha as [Hlo _].
    rewrite concat_block_slices by (unfold BLOCK_SIZE; lia).
    f_equal. lia.
  - intros n i Hi. apply list_elem_of_lookup_2, elem_of_zseq_from in Hi.
    rewrite journal_block_offset_addressable by (assumption || unfold JOURNAL_BLOCKS; lia).
    f_equal. lia.
Qed.

Lemma splice_nil off (l : list byte) :
  0 <= off <= Z.of_nat (length l) -> splice off [] l = l.
Proof.
  intros H. apply list_eq. intros i. rewrite lookup_splice. simpl length.
  repeat case_decide; try lia; try reflexivity.
Qed.

Lemma splice_splice_adjacent off a b (l : list byte) :
  0 <= off ->
  splice (off + Z.of_nat (length a)) b (splice off a l) = splice off (a ++ b) l.
Proof.
  intros Hoff. apply list_eq. intros i.
  rewrite !lookup_splice, length_splice, length_app.
  repeat case_decide; try lia; try reflexivity;
    try (rewrite lookup_app_l by lia; reflexivity);
    try (rewrite lookup_app_r by lia; f_equal; lia).
Qed.

Lemma store_journal_blocks sb jbuf n k g :
  journal_addressable sb ->
  0 <= k -> k + Z.of_nat n <= JOURNAL_BLOCKS ->
  Z.of_nat (length jbuf) = JOURNAL_BLOCKS * BLOCK_SIZE ->
  (sb_journal_block sb + k) * BLOCK_SIZE <= Z.of_nat (length g) ->
  Journal.store_journal sb (zseq_from k n) jbuf g
  = Ok tt (splice ((sb_journal_block sb + k) * BLOCK_SIZE)
             (slice (k * BLOCK_SIZE) (Z.of_nat n * BLOCK_SIZE) jbuf) g).
Proof.
  intros Ha. revert k g. induction n as [|n IH]; intros k g Hk Hkn Hlen Hg.
  - simpl. rewrite splice_nil; [reflexivity|]. destruct Ha. unfold BLOCK_SIZE in *. lia.
  - simpl zseq_from. simpl Journal.store_journal.
    erewrite bind_Ok; [|apply write_block_eq].
    fold (journal_block_offset sb k).
    rewrite journal_block_offset_addressable by (assumption || lia).
    set (blk := slice (k * BLOCK_SIZE) BLOCK_SIZE jbuf).
    assert (Z.of_nat (length blk) = BLOCK_SIZE) as Hblk
      by (apply length_slice_full; unfold BLOCK_SIZE, JOURNAL_BLOCKS in *; lia).
    rewrite IH; try lia.
    + f_equal.
      replace ((sb_journal_block sb + (k + 1)) * BLOCK_SIZE)
        with ((sb_journal_block sb + k) * BLOCK_SIZE + Z.of_nat (length blk)) by lia.
      rewrite splice_splice_adjacent by (destruct Ha; unfold BLOCK_SIZE; lia).
      f_equal. unfold blk.
      replace ((k + 1) * BLOCK_SIZE) with (k * BLOCK_SIZE + BLOCK_SIZE) by lia.
      rewrite slice_cat by (unfold BLOCK_SIZE; lia). f_equal. lia.
    + rewrite length_splice. destruct Ha. unfold BLOCK_SIZE in *. lia.
Qed.

Lemma store_journal_addressable sb jbuf g :
  journal_addressable sb ->
  Z.of_nat (length jbuf) = JOURNAL_BLOCKS * BLOCK_SIZE ->
  sb_journal_block sb * BLOCK_SIZE <= Z.of_nat (length g) ->
  Journal.store_journal sb (zseq 0 JOURNAL_BLOCKS) jbuf g
  = Ok tt (splice (sb_journal_block sb * BLOCK_SIZE) jbuf g).
Proof.
  intros Ha Hlen Hg. unfold zseq.
  rewrite store_journal_blocks; try assumption; try (unfold JOURNAL_BLOCKS; lia);
    rewrite Z.add_0_r; try exact Hg.
  f_equal. f_equal. apply slice_all.
  unfold JOURNAL_BLOCKS, BLOCK_SIZE in *. lia.
Qed.

(** ** Replay *)

Lemma length_apply_write sb f w : (length f <= length (apply_write sb f w))%nat.
Proof. unfold apply_write. case_decide; [rewrite length_splice|]; lia. Qed.

Lemma length_apply_writes sb ws f : (length f <= length (foldl (apply_write sb) f ws))%nat.
Proof.
  revert f. induction ws as [|w ws IH]; intros f; simpl; [lia|].
  pose proof (length_apply_write sb f w). pose proof (IH (apply_write sb f w)). lia.
Qed.

Lemma length_replay sb rs ws f : (length f <= length (replay sb rs ws f))%nat.
Proof.
  revert ws f. induction rs as [|[b d|] rs IH]; intros ws f; simpl; [lia|apply IH|].
  pose proof (length_apply_writes sb ws f). pose proof (IH [] (foldl (apply_write sb) f ws)). lia.
Qed.

(** Data records with no Commit after them change nothing. *)
Lemma replay_torn sb rs torn ws f :
  replay sb (rs ++ ((fun w => Data w.1 w.2) <$> torn)) ws f = replay sb rs ws f.
Proof.
  revert ws f. induction rs as [|[b d|] rs IH]; intros ws f; simpl; [|apply IH..].
  revert ws. induction torn as [|w torn IH]; intros ws; simpl; [reflexivity|apply IH].
Qed.

Lemma replay_transactions sb txs f :
  replay sb (concat (transaction_records <$> txs)) [] f
  = foldl (apply_write sb) f (concat txs).
Proof.
  revert f. induction txs as [|tx txs IH]; intros f; [reflexivity|].
  rewrite fmap_cons. simpl concat. rewrite foldl_app.
  rewrite <- IH. unfold transaction_records at 1.
  generalize (concat (transaction_records <$> txs)). intros rest.
  rewrite <- app_assoc. simpl.
  assert (forall ws, replay sb (((fun w => Data w.1 w.2) <$> tx) ++ Commit :: rest) ws f
                     = replay sb rest [] (foldl (apply_write sb) f (ws ++ tx))) as H.
  { induction tx as [|[b d] tx IHtx]; intros ws; simpl.
    - rewrite app_nil_r. reflexivity.
    - rewrite IHtx, <- app_assoc. reflexivity. }
  apply (H []).
Qed.

Lemma length_journal_bytes rs :
  Z.of_nat (length (journal_bytes rs))
  = JOURNAL_HEADER_SIZE + Z.of_nat (length (encode_records rs)).
Proof.
  unfold journal_bytes. rewrite !length_app, !length_le_encode.
  unfold JOURNAL_HEADER_SIZE. lia.
Qed.

Lemma length_encode_records_pos r rs :
  Forall well_formed (r :: rs) -> REC_HEADER_SIZE <= Z.of_nat (length (encode_records (r :: rs))).
Proof.
  intros H. apply Forall_cons in H as [Hr _].
  rewrite length_encode_records_cons, Nat2Z.inj_add, length_encode_record by assumption.
  unfold REC_HEADER_SIZE. destruct r; unfold DATA_RECORD_SIZE, COMMIT_RECORD_SIZE, BLOCK_SIZE; lia.
Qed.

(** Install of a journal that holds well-formed records. *)
Lemma install_replays sb f rs fuel :
  journal_addressable sb -> journal_readable sb f ->
  holds_journal sb f rs -> rs ≠ [] -> (length rs < fuel)%nat ->
  Journal.do_install fuel sb f = Some (Ok tt (clear_journal sb (replay sb rs [] f))).
Proof.
  intros Ha Hr (Hwf & Hfit & Hat) Hne Hfuel.
  pose proof Ha as [Hlo Hhi].
  pose proof (length_journal_bytes rs) as Hjlen.
  destruct rs as [|r rs]; [contradiction|].
  pose proof (length_encode_records_pos r rs Hwf) as Hpos.
  set (joff := sb_journal_block sb * BLOCK_SIZE) in *.
  assert (0 <= joff) as Hjoff by (unfold joff, BLOCK_SIZE; lia).
  fold (holds_at f joff (journal_bytes (r :: rs))) in Hat.
  unfold journal_bytes in Hat.
  apply holds_at_app in Hat as [Hmagic Hat]; [|assumption].
  apply holds_at_app in Hat as [Hused Hrecs]; [|lia].
  rewrite !length_le_encode in *.
  apply holds_at_decode in Hmagic, Hused.
  change (Z.of_nat 4) with 4 in *. change (256 ^ 4) with (2 ^ 32) in *.
  rewrite Z.mod_small in Hused
    by (unfold JOURNAL_HEADER_SIZE, JOURNAL_BLOCKS, BLOCK_SIZE, REC_HEADER_SIZE in *; lia).
  assert (journal_block_offset sb 0 = joff) as Hoff0.
  { rewrite journal_block_offset_addressable by (assumption || unfold JOURNAL_BLOCKS; lia).
    unfold joff. f_equal. lia. }
  unfold Journal.do_install.
  rewrite load_journal_ok by assumption.
  rewrite journal_image_magic, journal_image_nbytes_used by assumption.
  unfold journal_magic, journal_nbytes_used, get32. rewrite Hoff0, Hmagic, Hused.
  rewrite decide_False by (intros H; apply H; reflexivity).
  rewrite decide_False by (unfold REC_HEADER_SIZE in *; lia).
  assert (joff + JOURNAL_BLOCKS * BLOCK_SIZE <= Z.of_nat (length f)) as Hflen.
  { pose proof (Hr 15 ltac:(unfold JOURNAL_BLOCKS; lia)) as H15.
    rewrite journal_block_offset_addressable in H15 by (assumption || unfold JOURNAL_BLOCKS; lia).
    unfold joff, JOURNAL_BLOCKS, BLOCK_SIZE in *. lia. }
  rewrite (scan_replays sb (journal_image sb f) _ (r :: rs) _ [] []); try assumption.
  - rewrite store_journal_addressable; [reflexivity|assumption|apply length_cleared_journal|].
    pose proof (length_replay sb (r :: rs) [] f). fold joff.
    unfold JOURNAL_BLOCKS, BLOCK_SIZE in *. lia.
  - unfold JOURNAL_HEADER_SIZE. lia.
  - unfold holds_at. rewrite journal_image_slice by assumption. fold joff.
    rewrite slice_slice by (unfold JOURNAL_HEADER_SIZE in *; lia).
    replace (joff + JOURNAL_HEADER_SIZE) with (joff + 4 + 4)
      by (unfold JOURNAL_HEADER_SIZE; lia).
    exact Hrecs.
  - reflexivity.
  - rewrite length_journal_image by assumption. lia.
  - constructor.
Qed.

Lemma clear_journal_region sb g :
  journal_addressable sb ->
  slice (sb_journal_block sb * BLOCK_SIZE) (JOURNAL_BLOCKS * BLOCK_SIZE) (clear_journal sb g)
  = Journal.cleared_journal.
Proof.
  intros [Hlo _]. unfold clear_journal.
  rewrite <- length_cleared_journal. apply slice_splice_same.
  unfold BLOCK_SIZE. lia.
Qed.

Lemma clear_journal_header sb g :
  journal_addressable sb ->
  get32 (sb_journal_block sb * BLOCK_SIZE) (clear_journal sb g) = JOURNAL_MAGIC
  ∧ get32 (sb_journal_block sb * BLOCK_SIZE + 4) (clear_journal sb g) = JOURNAL_HEADER_SIZE.
Proof.
  intros [Hlo Hhi]. unfold clear_journal, get32.
  pose proof length_cleared_journal as Hlen.
  rewrite !slice_splice_inside
    by (unfold BLOCK_SIZE, JOURNAL_BLOCKS in *; lia).
  rewrite Z.sub_diag.
  replace (sb_journal_block sb * BLOCK_SIZE + 4 - sb_journal_block sb * BLOCK_SIZE) with 4 by lia.
  split; vm_compute; reflexivity.
Qed.

Lemma clear_journal_outside sb g o n :
  journal_addressable sb ->
  sb_journal_block sb * BLOCK_SIZE <= Z.of_nat (length g) ->
  0 <= o -> 0 <= n ->
  o + n <= sb_journal_block sb * BLOCK_SIZE
  ∨ (sb_journal_block sb + JOURNAL_BLOCKS) * BLOCK_SIZE <= o ->
  slice o n (clear_journal sb g) = slice o n g.
Proof.
  intros [Hlo Hhi] Hg Ho Hn Hout. unfold clear_journal.
  pose proof length_cleared_journal as Hlen.
  destruct Hout.
  - apply slice_splice_before; lia.
  - apply slice_splice_after; unfold BLOCK_SIZE, JOURNAL_BLOCKS in *; lia.
Qed.

Lemma journal_start_in_file sb f :
  journal_addressable sb -> journal_readable sb f ->
  (sb_journal_block sb + JOURNAL_BLOCKS) * BLOCK_SIZE <= Z.of_nat (length f).
Proof.
  intros Ha Hr.
  pose proof (Hr 15 ltac:(unfold JOURNAL_BLOCKS; lia)) as H15.
  rewrite journal_block_offset_addressable in H15 by (assumption || unfold JOURNAL_BLOCKS; lia).
  unfold JOURNAL_BLOCKS, BLOCK_SIZE in *. lia.
Qed.

(** C3: the journal holds committed transactions [txs] followed by Data
    records [torn] that no Commit follows.  Install returns; the image it
    leaves is the one the committed writes alone produce, with the journal
    region overwritten by the empty journal (magic, bytes-used = header
    size, zeros), however many transactions [txs] has.  The torn records
    reach no block. *)
Theorem torn_transaction_is_never_applied sb f txs torn fuel :
  journal_addressable sb -> journal_readable sb f ->
  torn ≠ [] ->
  holds_journal sb f
    (concat (transaction_records <$> txs) ++ ((fun w => Data w.1 w.2) <$> torn)) ->
  (length (concat (transaction_records <$> txs)) + length torn < fuel)%nat ->
  let committed := foldl (apply_write sb) f (concat txs) in
  let joff := sb_journal_block sb * BLOCK_SIZE in
  exists f',
    Journal.do_install fuel sb f = Some (Ok tt f')
    ∧ f' = clear_journal sb committed
    ∧ slice joff (JOURNAL_BLOCKS * BLOCK_SIZE) f' = Journal.cleared_journal
    ∧ get32 joff f' = JOURNAL_MAGIC ∧ get32 (joff + 4) f' = JOURNAL_HEADER_SIZE
    ∧ forall o n, 0 <= o -> 0 <= n ->
        o + n <= joff ∨ joff + JOURNAL_BLOCKS * BLOCK_SIZE <= o ->
        slice o n f' = slice o n committed.
Proof.
  intros Ha Hr Htorn Hj Hfuel committed joff.
  exists (clear_journal sb committed).
  pose proof (journal_start_in_file sb f Ha Hr) as Hlen.
  pose proof (length_apply_writes sb (concat txs) f) as Hmono. fold committed in Hmono.
  destruct (clear_journal_header sb committed Ha) as [Hm Hn].
  split; [|split; [reflexivity|split; [|split; [exact Hm|split; [exact Hn|]]]]].
  - rewrite (install_replays sb f _ fuel Ha Hr Hj).
    + rewrite replay_torn, replay_transactions. reflexivity.
    + destruct torn; [contradiction|]. intros H. apply app_eq_nil in H as [_ H]. discriminate.
    + rewrite length_app, length_fmap. exact Hfuel.
  - apply clear_journal_region. exact Ha.
  - intros o n Ho Hn' Hout. apply clear_journal_outside; try assumption.
    + destruct Ha. unfold JOURNAL_BLOCKS, BLOCK_SIZE in *. lia.
    + unfold joff in Hout. lia.
Qed.

Lemma sb0_addressable : journal_addressable Samples.sb0.
Proof. split; vm_compute; discriminate. Qed.

Lemma sb0_readable f :
  Z.of_nat (length f) = TOTAL_BLOCKS * BLOCK_SIZE -> journal_readable Samples.sb0 f.
Proof.
  intros Hlen i Hi. rewrite sb0_journal_block_offset, Hlen by assumption.
  unfold JOURNAL_BLOCKS, JOURNAL_BLOCK_IDX, BLOCK_SIZE in *.
  change TOTAL_BLOCKS with 85. lia.
Qed.

Lemma torn_transaction_is_never_applied_witness :
  exists f',
    Journal.do_install 2 Samples.sb0 JournalSamples.torn = Some (Ok tt f')
    ∧ get32 (sb_journal_block Samples.sb0 * BLOCK_SIZE) f' = JOURNAL_MAGIC
    ∧ get32 (sb_journal_block Samples.sb0 * BLOCK_SIZE + 4) f' = JOURNAL_HEADER_SIZE.
Proof.
  assert (journal_readable Samples.sb0 JournalSamples.torn) as Hr
    by (apply sb0_readable; vm_compute; reflexivity).
  assert (holds_journal Samples.sb0 JournalSamples.torn
            (concat (transaction_records <$> [])
               ++ ((fun w => Data w.1 w.2) <$> [(DATA_START_IDX, Samples.ones)]))) as Hj.
  { split; [|split].
    - repeat constructor; vm_compute; congruence.
    - by_evaluation.
    - by_evaluation. }
  destruct (torn_transaction_is_never_applied Samples.sb0 JournalSamples.torn
              [] [(DATA_START_IDX, Samples.ones)] 2 sb0_addressable Hr
              ltac:(discriminate) Hj ltac:(simpl; lia))
    as (f' & Hrun & _ & _ & Hm & Hn & _).
  exists f'. split; [exact Hrun|]. split; [exact Hm|exact Hn].
Defined.

(** C10: a committed transaction with one Data record for block [target].
    All that install asks of [target] is that it is below [total_blocks]:
    the payload is stored at the block's offset whatever the block is, and
    for a block outside the journal region (the superblock, a bitmap, the
    inode table) it is what the block holds when install returns. *)
Theorem committed_write_reaches_any_block sb f target payload fuel :
  journal_addressable sb -> journal_readable sb f ->
  holds_journal sb f [Data target payload; Commit] ->
  target < sb_total_blocks sb ->
  (2 < fuel)%nat ->
  exists f',
    Journal.do_install fuel sb f = Some (Ok tt f')
    ∧ f' = clear_journal sb (splice (u32 (target * BLOCK_SIZE)) payload f)
    ∧ (target < 2 ^ 20 ->
       target < sb_journal_block sb ∨ sb_journal_block sb + JOURNAL_BLOCKS <= target ->
       slice (target * BLOCK_SIZE) BLOCK_SIZE f' = payload).
Proof.
  intros Ha Hr Hj Hlt Hfuel.
  exists (clear_journal sb (splice (u32 (target * BLOCK_SIZE)) payload f)).
  pose proof (journal_start_in_file sb f Ha Hr) as Hlen.
  pose proof Hj as (Hwf & _ & _).
  apply Forall_cons in Hwf as [[Htarget Hpayload] _].
  split; [|split; [reflexivity|]].
  - rewrite (install_replays sb f _ fuel Ha Hr Hj); [|discriminate|simpl; lia].
    simpl. unfold apply_write. simpl. rewrite decide_True by assumption. reflexivity.
  - intros Hsmall Hout.
    assert (u32 (target * BLOCK_SIZE) = target * BLOCK_SIZE) as ->.
    { unfold u32, BLOCK_SIZE. apply Z.mod_small.
      change (2 ^ 32) with 4294967296. change (2 ^ 20) with 1048576 in Hsmall. lia. }
    destruct Ha as [Hlo Hhi].
    rewrite clear_journal_outside; try (split; assumption);
      try (unfold BLOCK_SIZE, JOURNAL_BLOCKS in *; lia).
    + rewrite <- Hpayload. apply slice_splice_same. unfold BLOCK_SIZE. lia.
    + rewrite length_splice. unfold BLOCK_SIZE, JOURNAL_BLOCKS in *. lia.
Qed.

Lemma committed_write_reaches_any_block_witness :
  exists f',
    Journal.do_install 3 Samples.sb0 JournalSamples.superblock_overwrite = Some (Ok tt f')
    ∧ slice (0 * BLOCK_SIZE) BLOCK_SIZE f' = Samples.ones.
Proof.
  assert (journal_readable Samples.sb0 JournalSamples.superblock_overwrite) as Hr
    by (apply sb0_readable; vm_compute; reflexivity).
  assert (holds_journal Samples.sb0 JournalSamples.superblock_overwrite
            [Data 0 Samples.ones; Commit]) as Hj.
  { split; [|split].
    - repeat constructor; vm_compute; congruence.
    - by_evaluation.
    - by_evaluation. }
  destruct (committed_write_reaches_any_block Samples.sb0
              JournalSamples.superblock_overwrite 0 Samples.ones 3
              sb0_addressable Hr Hj ltac:(reflexivity) ltac:(lia))
    as (f' & Hrun & _ & Hblock).
  exists f'. split; [exact Hrun|].
  apply Hblock; [reflexivity|]. left. reflexivity.
Defined.

(** ** The validator: evaluating [main] *)







(** ** Further properties: the superblock *)

Lemma get32_le_encode_head v (rest : list byte) :
  get32 0 (le_encode 4 v ++ rest) = v mod 2 ^ 32.
Proof.
  assert (Z.of_nat (length (le_encode 4 v)) = 4) as Hlen
    by (rewrite length_le_encode; reflexivity).
  unfold get32. rewrite slice_app_l by lia.
  rewrite slice_all by lia.
  apply (le_decode_encode 4).
Qed.

Lemma get32_skip off (a rest : list byte) :
  0 <= off ->
  get32 (Z.of_nat (length a) + off) (a ++ rest) = get32 off rest.
Proof.
  intros Hoff. unfold get32. rewrite slice_app_r by lia.
  replace (Z.of_nat (length a) + off - Z.of_nat (length a)) with off by lia.
  reflexivity.
Qed.

Lemma get32_skip4 off v (rest : list byte) :
  0 <= off ->
  get32 (4 + off) (le_encode 4 v ++ rest) = get32 off rest.
Proof.
  intros Hoff.
  replace 4 with (Z.of_nat (length (le_encode 4 v))) at 1
    by (rewrite length_le_encode; reflexivity).
  apply get32_skip. exact Hoff.
Qed.

Lemma parse_encode_superblock sb (rest : list byte) :
  superblock_in_range sb ->
  parse_superblock (encode_superblock sb ++ rest) = sb.
Proof.
  intros (H1 & H2 & H3 & H4 & H5 & H6 & H7 & H8 & H9).
  destruct sb as [a1 a2 a3 a4 a5 a6 a7 a8 a9].
  unfold parse_superblock, encode_superblock.
  cbn [sb_magic sb_block_size sb_total_blocks sb_inode_count sb_journal_block
       sb_inode_bitmap sb_data_bitmap sb_inode_start sb_data_start] in *.
  rewrite <- ?app_assoc.
  change 32 with (4 + (4 + (4 + (4 + (4 + (4 + (4 + (4 + 0)))))))).
  change 28 with (4 + (4 + (4 + (4 + (4 + (4 + (4 + 0))))))).
  change 24 with (4 + (4 + (4 + (4 + (4 + (4 + 0)))))).
  change 20 with (4 + (4 + (4 + (4 + (4 + 0))))).
  change 16 with (4 + (4 + (4 + (4 + 0)))).
  change 12 with (4 + (4 + (4 + 0))).
  change 8 with (4 + (4 + 0)) at 1.
  change (get32 4) with (get32 (4 + 0)).
  rewrite !get32_skip4 by lia. rewrite !get32_le_encode_head.
  rewrite !Z.mod_small by assumption. reflexivity.
Qed.

(** X1: the superblock that mkfs stores in block 0 is the one [journal.c] and
    the validator parse, whatever follows block 0. *)
Theorem superblock_round_trip sb (rest : list byte) :
  superblock_in_range sb ->
  Journal.superblock_of (splice 0 (encode_superblock sb) (zeros BLOCK_SIZE) ++ rest) = sb.
Proof.
  intros Hr. unfold Journal.superblock_of.
  assert (Z.of_nat (length (encode_superblock sb)) = 128) as Hlen.
  { unfold encode_superblock. rewrite !length_app, !length_le_encode, length_zeros. reflexivity. }
  assert (Z.of_nat (length (zeros BLOCK_SIZE)) = BLOCK_SIZE) as Hz
    by (rewrite length_zeros; reflexivity).
  rewrite slice_app_l; try (unfold BLOCK_SIZE; lia).
  - rewrite slice_all by (rewrite length_splice; unfold BLOCK_SIZE in *; lia).
    rewrite splice_in_bounds by (unfold BLOCK_SIZE in *; lia).
    simpl take. rewrite app_nil_l. apply parse_encode_superblock. exact Hr.
  - rewrite length_splice. unfold BLOCK_SIZE in *. lia.
Qed.

Lemma superblock_image_in_range : superblock_in_range Mkfs.superblock_image.
Proof. repeat split; vm_compute; congruence. Qed.

Lemma superblock_round_trip_witness :
  Journal.superblock_of
    (splice 0 (encode_superblock Mkfs.superblock_image) (zeros BLOCK_SIZE) ++ [])
  = Mkfs.superblock_image.
Proof. apply superblock_round_trip. exact superblock_image_in_range. Defined.

Lemma error_count_report v st :
  Validator.error_count (Validator.report_error v st) = Validator.error_count st + 1.
Proof.
  unfold Validator.error_count, Validator.report_error. simpl.
  rewrite length_app. simpl. lia.
Qed.

(** X2: [validate_superblock] adds no violation exactly when the nine fields
    are those of the geometry compiled into mkfs and the validator. *)
Theorem validate_superblock_accepts_only_the_geometry sb st :
  Validator.error_count (Validator.validate_superblock sb st) = Validator.error_count st
  <-> sb = Mkfs.superblock_image.
Proof.
  split.
  - destruct sb as [a1 a2 a3 a4 a5 a6 a7 a8 a9].
    unfold Validator.validate_superblock.
    cbn [sb_magic sb_block_size sb_total_blocks sb_inode_count sb_journal_block
         sb_inode_bitmap sb_data_bitmap sb_inode_start sb_data_start].
    destruct (decide (a1 ≠ FS_MAGIC)); destruct (decide (a2 ≠ BLOCK_SIZE));
      destruct (decide (a3 ≠ TOTAL_BLOCKS));
      destruct (decide (a4 ≠ INODE_BLOCKS * (BLOCK_SIZE / INODE_SIZE)));
      destruct (decide (a5 ≠ JOURNAL_BLOCK_IDX)); destruct (decide (a6 ≠ INODE_BMAP_IDX));
      destruct (decide (a7 ≠ DATA_BMAP_IDX)); destruct (decide (a8 ≠ INODE_START_IDX));
      destruct (decide (a9 ≠ DATA_START_IDX));
      rewrite ?error_count_report; intros Hcount; try lia.
    unfold Mkfs.superblock_image. f_equal; lia.
  - intros ->. reflexivity.
Qed.



(** ** Further properties: bitmaps *)

Lemma elem_of_all_bytes b : b ∈ all_bytes.
Proof.
  unfold all_bytes. rewrite <- (byte_of_Z_of_byte b).
  apply list_elem_of_fmap_2, elem_of_zseq. pose proof (Z_of_byte_range b). lia.
Qed.

Lemma forall_bytes (P : byte -> bool) :
  forallb P all_bytes = true -> forall b, P b = true.
Proof.
  intros H b. rewrite forallb_forall in H. apply H, list_elem_of_In, elem_of_all_bytes.
Qed.

Lemma forall_bits (P : Z -> bool) :
  forallb P (zseq 0 8) = true -> forall j, 0 <= j < 8 -> P j = true.
Proof.
  intros H j Hj. rewrite forallb_forall in H. apply H, list_elem_of_In, elem_of_zseq. lia.
Qed.

Lemma mask_test b j :
  0 <= j < 8 ->
  Z.land (Z_of_byte b) (u8 (Z.shiftl 1 j)) = 0 <-> byte_bit b j = 0.
Proof.
  intros Hj.
  assert (forallb (fun b => forallb (fun j =>
            bool_decide (Z.land (Z_of_byte b) (u8 (Z.shiftl 1 j)) = 0 <-> byte_bit b j = 0))
            (zseq 0 8)) all_bytes = true) as H by (vm_compute; reflexivity).
  pose proof (forall_bytes _ H b) as Hb. cbv beta in Hb.
  pose proof (forall_bits _ Hb j Hj) as Hbj. cbv beta in Hbj.
  apply bool_decide_eq_true in Hbj. exact Hbj.
Qed.

Lemma byte_bit_bool b j : 0 <= j < 8 -> byte_bit b j = 0 ∨ byte_bit b j = 1.
Proof.
  intros Hj.
  assert (forallb (fun b => forallb (fun j =>
            bool_decide (byte_bit b j = 0 ∨ byte_bit b j = 1)) (zseq 0 8)) all_bytes = true)
    as H by (vm_compute; reflexivity).
  pose proof (forall_bytes _ H b) as Hb. cbv beta in Hb.
  pose proof (forall_bits _ Hb j Hj) as Hbj. cbv beta in Hbj.
  apply bool_decide_eq_true in Hbj. exact Hbj.
Qed.

Lemma mask_set b j k :
  0 <= j < 8 -> 0 <= k < 8 ->
  byte_bit (byte_of_Z (Z.lor (Z_of_byte b) (u8 (Z.shiftl 1 j)))) k
  = if decide (k = j) then 1 else byte_bit b k.
Proof.
  intros Hj Hk.
  assert (forallb (fun b => forallb (fun j => forallb (fun k =>
            bool_decide (byte_bit (byte_of_Z (Z.lor (Z_of_byte b) (u8 (Z.shiftl 1 j)))) k
                         = if decide (k = j) then 1 else byte_bit b k))
            (zseq 0 8)) (zseq 0 8)) all_bytes = true) as H by (vm_compute; reflexivity).
  pose proof (forall_bytes _ H b) as Hb. cbv beta in Hb.
  pose proof (forall_bits _ Hb j Hj) as Hbj. cbv beta in Hbj.
  pose proof (forall_bits _ Hbj k Hk) as Hbk. cbv beta in Hbk.
  apply bool_decide_eq_true in Hbk. exact Hbk.
Qed.

Lemma slice_one (l : list byte) (n : Z) :
  0 <= n -> slice n 1 l = match l !! Z.to_nat n with Some b => [b] | None => [] end.
Proof.
  intros Hn. apply list_eq. intros i. rewrite lookup_slice.
  change (Z.to_nat 1) with 1%nat.
  destruct i as [|i].
  - rewrite decide_True by lia. rewrite Nat.add_0_r. destruct (l !! Z.to_nat n); reflexivity.
  - rewrite decide_False by lia. destruct (l !! Z.to_nat n); reflexivity.
Qed.

Lemma bitmap_test_lookup bm k :
  0 <= k ->
  Validator.bitmap_test bm k
  = match bm !! Z.to_nat (k / 8) with Some b => byte_bit b (k mod 8) | None => 0 end.
Proof.
  intros Hk. unfold Validator.bitmap_test, get8.
  rewrite slice_one by (apply Z.div_pos; lia).
  destruct (bm !! Z.to_nat (k / 8)) as [b|]; simpl.
  - rewrite Z.mul_0_r, Z.add_0_r. reflexivity.
  - rewrite Z.shiftr_0_l. reflexivity.
Qed.

(** The bitmap search of [do_create], started at [idx] with [n] iterations
    left. *)
Lemma find_free_inode_spec n : forall idx bm,
  0 <= idx ->
  match Journal.find_free_inode n idx bm with
  | Journal.Found c bm' =>
      idx <= c < idx + Z.of_nat n
      ∧ Validator.bitmap_test bm c = 0
      ∧ (forall k, idx <= k < c -> Validator.bitmap_test bm k = 1)
      ∧ Validator.bitmap_test bm' c = 1
      ∧ (forall k, 0 <= k -> k ≠ c -> Validator.bitmap_test bm' k = Validator.bitmap_test bm k)
      ∧ length bm' = length bm
  | Journal.NotFound =>
      forall k, idx <= k < idx + Z.of_nat n -> Validator.bitmap_test bm k = 1
  | Journal.OutOfBounds =>
      exists c, idx <= c < idx + Z.of_nat n ∧ Z.of_nat (length bm) <= c / 8
                ∧ forall k, idx <= k < c -> Validator.bitmap_test bm k = 1
  end.
Proof.
  induction n as [|n IH]; intros idx bm Hidx.
  - simpl. intros k Hk. lia.
  - simpl Journal.find_free_inode.
    assert (0 <= idx mod 8 < 8) as Hbit by (apply Z.mod_pos_bound; lia).
    assert (0 <= idx / 8) as Hbyte by (apply Z.div_pos; lia).
    pose proof (bitmap_test_lookup bm idx Hidx) as Htest.
    destruct (bm !! Z.to_nat (idx / 8)) as [b|] eqn:Hb.
    + destruct (decide (Z.land (Z_of_byte b) (u8 (Z.shiftl 1 (idx mod 8))) = 0)) as [Hz|Hnz].
      * apply mask_test in Hz; [|assumption].
        assert (Z.to_nat (idx / 8) < length bm)%nat as Hlt
          by (apply lookup_lt_is_Some; eauto).
        split; [lia|]. split; [congruence|]. split; [intros; lia|].
        split; [|split; [|apply length_insert]].
        -- rewrite bitmap_test_lookup, list_lookup_insert_eq, mask_set by assumption.
           rewrite decide_True by reflexivity. reflexivity.
        -- intros k Hk Hne. rewrite !bitmap_test_lookup by assumption.
           assert (0 <= k mod 8 < 8) by (apply Z.mod_pos_bound; lia).
           assert (0 <= k / 8) by (apply Z.div_pos; lia).
           destruct (decide (k / 8 = idx / 8)) as [Heq|Hneq].
           ++ rewrite Heq, list_lookup_insert_eq, Hb, mask_set by assumption.
              rewrite decide_False; [reflexivity|].
              intros Hmod. apply Hne.
              rewrite (Z.div_mod k 8), (Z.div_mod idx 8) by lia. congruence.
           ++ rewrite list_lookup_insert_ne by lia. reflexivity.
      * assert (Validator.bitmap_test bm idx = 1) as Hset.
        { rewrite Htest. destruct (byte_bit_bool b (idx mod 8) Hbit) as [H0|H1]; [|exact H1].
          apply mask_test in H0; [contradiction|assumption]. }
        specialize (IH (idx + 1) bm ltac:(lia)).
        destruct (Journal.find_free_inode n (idx + 1) bm) as [c bm'| |].
        -- destruct IH as (Hc & H0 & Hlow & H1 & Hkeep & Hlen).
           repeat split; try assumption; try lia.
           intros k Hk. destruct (decide (k = idx)) as [->|]; [exact Hset|apply Hlow; lia].
        -- intros k Hk. destruct (decide (k = idx)) as [->|]; [exact Hset|apply IH; lia].
        -- destruct IH as (c & Hc & Hlen & Hlow). exists c.
           repeat split; try assumption; try lia.
           intros k Hk. destruct (decide (k = idx)) as [->|]; [exact Hset|apply Hlow; lia].
    + exists idx. split; [lia|]. split; [|intros; lia].
      apply lookup_ge_None in Hb. lia.
Qed.

(** ** Further properties: what [do_create] writes *)

Lemma read_block_block_at b f buf f' :
  Journal.read_block b f = Ok buf f' ->
  f' = f ∧ buf = block_at f b ∧ Z.of_nat (length buf) = BLOCK_SIZE ∧ block_readable f b.
Proof. apply read_block_Ok_inv. Qed.

Lemma length_splice_inside off data (l : list byte) :
  0 <= off -> off + Z.of_nat (length data) <= Z.of_nat (length l) ->
  length (splice off data l) = length l.
Proof. intros. rewrite length_splice. lia. Qed.

Lemma length_put32 off v (l : list byte) :
  0 <= off -> off + 4 <= Z.of_nat (length l) -> length (put32 off v l) = length l.
Proof.
  intros. unfold put32. apply length_splice_inside; [assumption|].
  rewrite length_le_encode. lia.
Qed.

Lemma length_put16 off v (l : list byte) :
  0 <= off -> off + 2 <= Z.of_nat (length l) -> length (put16 off v l) = length l.
Proof.
  intros. unfold put16. apply length_splice_inside; [assumption|].
  rewrite length_le_encode. lia.
Qed.

Lemma length_with_new_inode chosen blk :
  Z.of_nat (length blk) = BLOCK_SIZE -> 0 <= chosen ->
  Z.of_nat (length (with_new_inode chosen blk)) = BLOCK_SIZE.
Proof.
  intros Hlen Hc. unfold with_new_inode.
  change (BLOCK_SIZE / INODE_SIZE) with 32.
  assert (0 <= chosen mod 32 < 32) as Hslot by (apply Z.mod_pos_bound; lia).
  unfold BLOCK_SIZE, INODE_SIZE, INODE_SIZE_OFF, INODE_LINKS_OFF, INODE_TYPE_OFF in *.
  set (slot := chosen mod 32 * 128).
  assert (0 <= slot <= 4096 - 128) as Hs by (unfold slot; lia).
  assert (length (splice slot (zeros 128) blk) = length blk) as H1.
  { apply length_splice_inside; [lia|]. rewrite length_zeros. lia. }
  assert (length (put16 (slot + 0) 1 (splice slot (zeros 128) blk)) = length blk) as H2.
  { rewrite length_put16; lia. }
  assert (length (put16 (slot + 2) 1 (put16 (slot + 0) 1 (splice slot (zeros 128) blk)))
          = length blk) as H3.
  { rewrite length_put16; lia. }
  rewrite length_put32; lia.
Qed.

Lemma length_with_root_grown blk :
  Z.of_nat (length blk) = BLOCK_SIZE ->
  Z.of_nat (length (with_root_grown blk)) = BLOCK_SIZE.
Proof.
  intros Hlen. unfold with_root_grown.
  rewrite length_put32; unfold INODE_SIZE_OFF, BLOCK_SIZE in *; lia.
Qed.

Lemma length_strncpy n src : length (Journal.strncpy n src) = n.
Proof.
  revert src. induction n as [|n IH]; intros src; [reflexivity|].
  simpl Journal.strncpy. destruct src as [|c src].
  - simpl. rewrite length_replicate. reflexivity.
  - destruct (decide (c = x00)); simpl; [rewrite length_replicate|rewrite IH]; reflexivity.
Qed.

Lemma find_free_dirent_range idxs dblock i :
  Journal.find_free_dirent idxs dblock = Some i -> i ∈ idxs.
Proof.
  induction idxs as [|k idxs IH]; simpl; [discriminate|].
  destruct (decide _); [intros [= ->]; left|intros H; right; auto].
Qed.

Lemma length_with_dirent dir_index chosen filename dblock :
  Z.of_nat (length dblock) = BLOCK_SIZE -> 0 <= dir_index < BLOCK_SIZE / DIRENT_SIZE ->
  Z.of_nat (length (with_dirent dir_index chosen filename dblock)) = BLOCK_SIZE.
Proof.
  intros Hlen Hi. unfold with_dirent.
  change (BLOCK_SIZE / DIRENT_SIZE) with 128 in Hi.
  unfold BLOCK_SIZE, DIRENT_SIZE, DIRENT_NAME_OFF, DIRENT_INODE_OFF, NAME_LEN in *.
  assert (length (put32 (dir_index * 32 + 0) chosen dblock) = length dblock) as H1
    by (apply length_put32; lia).
  rewrite length_splice_inside; rewrite ?length_strncpy; lia.
Qed.

Lemma WRITE_RECORD_eq write_pos target_blk src_buf f :
  Journal.WRITE_RECORD write_pos target_blk src_buf f
  = Ok (write_pos + DATA_RECORD_SIZE)
      (splice write_pos (Journal.encode_data_record target_blk src_buf) f).
Proof. reflexivity. Qed.

Lemma file_write_eq off data f : file_write off data f = Ok tt (splice off data f).
Proof. reflexivity. Qed.

Lemma file_read_eq off n f : file_read off n f = Ok (slice off n f) f.
Proof. reflexivity. Qed.

Lemma mret_eq {A} (a : A) f : (mret a : M A) f = Ok a f.
Proof. reflexivity. Qed.

Lemma Ok_inj {A} (a b : A) (f g : file) : Ok a f = Ok b g -> a = b ∧ f = g.
Proof. intros [= -> ->]. split; reflexivity. Qed.

Lemma splice_chain3 p r1 r2 r3 c (f : file) :
  0 <= p ->
  Z.of_nat (length r1) = DATA_RECORD_SIZE -> Z.of_nat (length r2) = DATA_RECORD_SIZE ->
  Z.of_nat (length r3) = DATA_RECORD_SIZE ->
  splice (p + DATA_RECORD_SIZE + DATA_RECORD_SIZE + DATA_RECORD_SIZE) c
    (splice (p + DATA_RECORD_SIZE + DATA_RECORD_SIZE) r3
       (splice (p + DATA_RECORD_SIZE) r2 (splice p r1 f)))
  = splice p (r1 ++ r2 ++ r3 ++ c ++ []) f.
Proof.
  intros Hp H1 H2 H3. rewrite app_nil_r.
  assert (splice (p + DATA_RECORD_SIZE) r2 (splice p r1 f) = splice p (r1 ++ r2) f) as ->.
  { rewrite <- H1. apply splice_splice_adjacent. assumption. }
  assert (splice (p + DATA_RECORD_SIZE + DATA_RECORD_SIZE) r3 (splice p (r1 ++ r2) f)
          = splice p ((r1 ++ r2) ++ r3) f) as ->.
  { replace (p + DATA_RECORD_SIZE + DATA_RECORD_SIZE)
      with (p + Z.of_nat (length (r1 ++ r2))) by (rewrite length_app; lia).
    apply splice_splice_adjacent. assumption. }
  replace (p + DATA_RECORD_SIZE + DATA_RECORD_SIZE + DATA_RECORD_SIZE)
    with (p + Z.of_nat (length ((r1 ++ r2) ++ r3))) by (rewrite !length_app; lia).
  rewrite splice_splice_adjacent by assumption.
  rewrite <- !app_assoc. reflexivity.
Qed.

Lemma splice_chain4 p r1 r2 r3 r4 c (f : file) :
  0 <= p ->
  Z.of_nat (length r1) = DATA_RECORD_SIZE -> Z.of_nat (length r2) = DATA_RECORD_SIZE ->
  Z.of_nat (length r3) = DATA_RECORD_SIZE -> Z.of_nat (length r4) = DATA_RECORD_SIZE ->
  splice (p + DATA_RECORD_SIZE + DATA_RECORD_SIZE + DATA_RECORD_SIZE + DATA_RECORD_SIZE) c
    (splice (p + DATA_RECORD_SIZE + DATA_RECORD_SIZE + DATA_RECORD_SIZE) r4
       (splice (p + DATA_RECORD_SIZE + DATA_RECORD_SIZE) r3
          (splice (p + DATA_RECORD_SIZE) r2 (splice p r1 f))))
  = splice p (r1 ++ r2 ++ r3 ++ r4 ++ c ++ []) f.
Proof.
  intros Hp H1 H2 H3 H4.
  rewrite (splice_chain3 p r1 r2 r3 r4 f) by assumption.
  rewrite app_nil_r.
  replace (p + DATA_RECORD_SIZE + DATA_RECORD_SIZE + DATA_RECORD_SIZE + DATA_RECORD_SIZE)
    with (p + Z.of_nat (length (r1 ++ r2 ++ r3 ++ r4))) by (rewrite !length_app; lia).
  rewrite splice_splice_adjacent by assumption.
  rewrite <- !app_assoc, app_nil_r. reflexivity.
Qed.

Lemma do_create_unfold :
  Journal.do_create
  = ltac:(let t := eval cbv delta [Journal.do_create] in Journal.do_create in exact t).
Proof. reflexivity. Qed.

(** A create that reports success: the blocks it read, the transaction it
    built from them and the two stores that put it into the file. *)
Lemma do_create_Created sb filename f c f' :
  Journal.do_create sb filename f = Ok (Journal.Created c) f' ->
  let joff := u32 (sb_journal_block sb * BLOCK_SIZE) in
  exists ibmap dir_index,
    Journal.find_free_inode (Z.to_nat (sb_inode_count sb)) 0 (block_at f (sb_inode_bitmap sb))
      = Journal.Found c ibmap
    ∧ Journal.find_free_dirent (zseq 0 (BLOCK_SIZE / DIRENT_SIZE))
        (block_at f (root_dir_block sb f)) = Some dir_index
    ∧ block_readable f (sb_inode_bitmap sb)
    ∧ block_readable f (u32 (sb_inode_start sb + c / (BLOCK_SIZE / INODE_SIZE)))
    ∧ block_readable f (sb_inode_start sb)
    ∧ block_readable f (root_dir_block sb f)
    ∧ joff + JOURNAL_HEADER_SIZE <= Z.of_nat (length f)
    ∧ let body :=
        encode_records (transaction_records (create_transaction sb filename f c ibmap dir_index)) in
      let used := journal_used_seen sb f in
      used + Z.of_nat (length body) <= JOURNAL_BLOCKS * BLOCK_SIZE
      ∧ f' = splice joff
               (journal_header (u32 (u32 (joff + used) + Z.of_nat (length body) - joff)))
               (splice (u32 (joff + used)) body f).
Proof.
  intros Hrun. intros joff. rewrite do_create_unfold in Hrun. cbv beta zeta in Hrun.
  apply bind_Ok_inv in Hrun as (ibmap0 & f1 & Hr1 & Hrun).
  apply read_block_block_at in Hr1 as (-> & -> & Hl1 & Hrd1).
  destruct (Journal.find_free_inode _ 0 _) as [chosen ibmap| |] eqn:Hfind; [|discriminate..].
  apply bind_Ok_inv in Hrun as (blk0 & f1 & Hr2 & Hrun).
  apply read_block_block_at in Hr2 as (-> & Hblk0 & Hl2 & Hrd2).
  set (nb := u32 (sb_inode_start sb + chosen / (BLOCK_SIZE / INODE_SIZE))) in *.
  set (nib1 := put32 _ 0 (put16 _ 1 (put16 _ 1 (splice _ (zeros INODE_SIZE) blk0)))) in Hrun.
  assert (nib1 = with_new_inode chosen blk0) as Hnib1 by reflexivity.
  clearbody nib1.
  apply bind_Ok_inv in Hrun as ([[nib rib] needs] & f1 & Hr3 & Hrun).
  apply bind_Ok_inv in Hrun as (temp_root & f2 & Hr4 & Hrun).
  set (rdb := get32 INODE_DIRECT_OFF temp_root) in Hrun.
  apply bind_Ok_inv in Hrun as (dblock0 & f3 & Hr5 & Hrun).
  destruct (Journal.find_free_dirent _ dblock0) as [dir_index|] eqn:Hdir; [|discriminate].
  set (db := splice _ (Journal.strncpy _ filename) (put32 _ chosen dblock0)) in Hrun.
  assert (db = with_dirent dir_index chosen filename dblock0) as Hdb by reflexivity.
  clearbody db.
  apply bind_Ok_inv in Hrun as (jh & f4 & Hr6 & Hrun).
  fold joff in Hr6, Hrun.
  set (used := if decide (get32 0 jh ≠ JOURNAL_MAGIC) then JOURNAL_HEADER_SIZE else get32 4 jh)
    in Hrun.
  destruct (decide (Z.of_nat (length jh) ≠ JOURNAL_HEADER_SIZE)) as [|Hjh] in Hrun; [discriminate|].
  destruct (decide (_ > JOURNAL_BLOCKS * BLOCK_SIZE)) as [|Hfit] in Hrun; [discriminate|].
  assert (0 <= joff) as Hjoff by (unfold joff, u32; apply Z.mod_pos_bound; lia).
  pose proof (find_free_inode_spec (Z.to_nat (sb_inode_count sb)) 0
                (block_at f (sb_inode_bitmap sb)) ltac:(lia)) as Hspec.
  rewrite Hfind in Hspec. destruct Hspec as (Hc & _ & _ & _ & _ & Hlen).
  assert (Z.of_nat (length ibmap) = BLOCK_SIZE) as Hlib by (rewrite Hlen; exact Hl1).
  assert (0 <= dir_index < BLOCK_SIZE / DIRENT_SIZE) as Hdi.
  { apply find_free_dirent_range, elem_of_zseq in Hdir.
    change (BLOCK_SIZE / DIRENT_SIZE) with 128 in *. lia. }
  assert (Z.of_nat (length nib1) = BLOCK_SIZE) as Hlni
    by (rewrite Hnib1; apply length_with_new_inode; [exact Hl2|lia]).
  set (p := u32 (joff + used)) in *.
  assert (0 <= p) as Hp by (unfold p, u32; apply Z.mod_pos_bound; lia).
  assert (exists tx,
            f' = splice joff
                   (journal_header
                      (u32 (p + Z.of_nat (length (encode_records (transaction_records tx))) - joff)))
                   (splice p (encode_records (transaction_records tx)) f1)
            ∧ chosen = c ∧ f1 = f ∧ f2 = f ∧ f3 = f ∧ jh = slice joff JOURNAL_HEADER_SIZE f
            ∧ temp_root = block_at f (sb_inode_start sb)
            ∧ dblock0 = block_at f rdb ∧ block_readable f (sb_inode_start sb)
            ∧ block_readable f rdb
            ∧ Z.of_nat (length (encode_records (transaction_records tx)))
              = (3 + needs) * DATA_RECORD_SIZE + COMMIT_RECORD_SIZE
            ∧ tx = create_transaction sb filename f chosen ibmap dir_index) as Hmain.
  { destruct (decide (nb = sb_inode_start sb)) as [Heq|Hne] in Hr3.
    - apply Ok_inj in Hr3 as [Hr3 Hf1]. injection Hr3 as Hnib Hrib Hneeds.
      fold (with_root_grown nib1) in Hnib. subst nib rib needs f1.
      apply read_block_block_at in Hr4 as (-> & Htr & Hl4 & Hrd4).
      apply read_block_block_at in Hr5 as (-> & Hd0 & Hl5 & Hrd5).
      rewrite file_read_eq in Hr6. apply Ok_inj in Hr6 as [Hjh' <-].
      destruct (decide (0 ≠ 0)) as [Hbad|_] in Hrun; [contradiction|].
      erewrite bind_Ok in Hrun by apply WRITE_RECORD_eq.
      erewrite bind_Ok in Hrun by apply WRITE_RECORD_eq.
      erewrite bind_Ok in Hrun by apply mret_eq.
      erewrite bind_Ok in Hrun by apply WRITE_RECORD_eq.
      erewrite bind_Ok in Hrun by apply file_write_eq.
      erewrite bind_Ok in Hrun by apply file_write_eq.
      apply Ok_inj in Hrun as [Hc' Hf']. injection Hc' as Hcc.
      pose proof (length_with_root_grown _ Hlni) as Hl3.
      assert (Z.of_nat (length db) = BLOCK_SIZE) as Hl6
        by (rewrite Hdb; apply length_with_dirent; assumption).
      pose proof (length_encode_data_record (sb_inode_bitmap sb) _ Hlib) as He1.
      pose proof (length_encode_data_record nb _ Hl3) as He2.
      pose proof (length_encode_data_record rdb _ Hl6) as He3.
      rewrite splice_chain3 in Hf' by assumption.
      exists [(sb_inode_bitmap sb, ibmap); (nb, with_root_grown nib1); (rdb, db)].
      cbn [transaction_records fmap list_fmap app encode_records concat encode_record fst snd].
      match goal with |- context [splice p ?body f] =>
        assert (Z.of_nat (length body) = 3 * DATA_RECORD_SIZE + COMMIT_RECORD_SIZE) as Hbody
          by (rewrite !length_app, !Nat2Z.inj_add, He1, He2, He3; reflexivity)
      end.
      rewrite Hbody.
      split; [|repeat (split; [congruence || assumption || reflexivity|])].
      + rewrite <- Hf'. unfold journal_header. f_equal. f_equal. f_equal. f_equal.
        unfold DATA_RECORD_SIZE, COMMIT_RECORD_SIZE, BLOCK_SIZE. lia.
      + unfold create_transaction. fold nb. rewrite decide_True by assumption.
        subst nib1 db. rewrite Hblk0, Hd0. unfold rdb, root_dir_block. rewrite Htr. reflexivity.
    - apply bind_Ok_inv in Hr3 as (rb & f5 & Hr3 & Hret).
      apply read_block_block_at in Hr3 as (-> & Hrb & Hl3 & Hrd3).
      apply Ok_inj in Hret as [Hret Hf1]. injection Hret as Hnib Hrib Hneeds.
      fold (with_root_grown rb) in Hrib. subst nib rib needs f1.
      apply read_block_block_at in Hr4 as (-> & Htr & Hl4 & Hrd4).
      apply read_block_block_at in Hr5 as (-> & Hd0 & Hl5 & Hrd5).
      rewrite file_read_eq in Hr6. apply Ok_inj in Hr6 as [Hjh' <-].
      destruct (decide (1 ≠ 0)) as [_|Hbad] in Hrun; [|exfalso; apply Hbad; discriminate].
      erewrite bind_Ok in Hrun by apply WRITE_RECORD_eq.
      erewrite bind_Ok in Hrun by apply WRITE_RECORD_eq.
      erewrite bind_Ok in Hrun by apply WRITE_RECORD_eq.
      erewrite bind_Ok in Hrun by apply WRITE_RECORD_eq.
      erewrite bind_Ok in Hrun by apply file_write_eq.
      erewrite bind_Ok in Hrun by apply file_write_eq.
      apply Ok_inj in Hrun as [Hc' Hf']. injection Hc' as Hcc.
      pose proof (length_with_root_grown _ Hl3) as Hl7.
      assert (Z.of_nat (length db) = BLOCK_SIZE) as Hl6
        by (rewrite Hdb; apply length_with_dirent; assumption).
      pose proof (length_encode_data_record (sb_inode_bitmap sb) _ Hlib) as He1.
      pose proof (length_encode_data_record nb _ Hlni) as He2.
      pose proof (length_encode_data_record (sb_inode_start sb) _ Hl7) as He3.
      pose proof (length_encode_data_record rdb _ Hl6) as He4.
      rewrite splice_chain4 in Hf' by assumption.
      exists [(sb_inode_bitmap sb, ibmap); (nb, nib1);
              (sb_inode_start sb, with_root_grown rb); (rdb, db)].
      cbn [transaction_records fmap list_fmap app encode_records concat encode_record fst snd].
      match goal with |- context [splice p ?body f] =>
        assert (Z.of_nat (length body) = 4 * DATA_RECORD_SIZE + COMMIT_RECORD_SIZE) as Hbody
          by (rewrite !length_app, !Nat2Z.inj_add, He1, He2, He3, He4; reflexivity)
      end.
      rewrite Hbody.
      split; [|repeat (split; [congruence || assumption || reflexivity|])].
      + rewrite <- Hf'. unfold journal_header. f_equal. f_equal. f_equal. f_equal.
        unfold DATA_RECORD_SIZE, COMMIT_RECORD_SIZE, BLOCK_SIZE. lia.
      + unfold create_transaction. fold nb. rewrite decide_False by assumption.
        subst nib1 db. rewrite Hblk0, Hd0, Hrb. unfold rdb, root_dir_block. rewrite Htr. reflexivity. }
  destruct Hmain as (tx & Hf' & <- & -> & -> & -> & Hjh' & Htr & Hd0 & Hrd4 & Hrd5 & Hbody & Htx).
  assert (rdb = root_dir_block sb f) as Hrdb by (unfold rdb, root_dir_block; rewrite Htr; reflexivity).
  assert (used = journal_used_seen sb f) as Hused by (unfold used, journal_used_seen; rewrite Hjh'; reflexivity).
  assert (joff + JOURNAL_HEADER_SIZE <= Z.of_nat (length f)) as Hhdr.
  { apply length_slice_full_inv; [assumption|reflexivity|].
    rewrite <- Hjh'.
    destruct (decide (Z.of_nat (length jh) = JOURNAL_HEADER_SIZE)); [assumption|contradiction]. }
  exists ibmap, dir_index.
  clearbody rdb used. subst rdb used dblock0 tx.
  split; [reflexivity|]. split; [exact Hdir|].
  repeat (split; [assumption|]).
  cbv zeta. split; [rewrite Hbody; lia|exact Hf'].
Qed.

Lemma create_a_runs :
  Journal.do_create Samples.sb0 [x61] Samples.fresh
  = Ok (Journal.Created 1) CreateSamples.created_a.
Proof. by_evaluation. Qed.

(** X4: a create that succeeds has taken the lowest free inode: the index
    it reports is below the inode count, its bit in the inode bitmap of the
    image is clear, and the bit of every lower index is set. *)
Theorem create_reserves_lowest_free_inode sb filename f c f' :
  Journal.do_create sb filename f = Ok (Journal.Created c) f' ->
  0 <= c < sb_inode_count sb
  ∧ Validator.bitmap_test (block_at f (sb_inode_bitmap sb)) c = 0
  ∧ forall k, 0 <= k < c ->
      Validator.bitmap_test (block_at f (sb_inode_bitmap sb)) k = 1.
Proof.
  intros Hrun.
  apply do_create_Created in Hrun as (ibmap & dir_index & Hfind & _).
  pose proof (find_free_inode_spec (Z.to_nat (sb_inode_count sb)) 0
                (block_at f (sb_inode_bitmap sb)) ltac:(lia)) as Hspec.
  rewrite Hfind in Hspec. destruct Hspec as (Hc & Hclear & Hset & _).
  split; [lia|]. split; assumption.
Qed.

Lemma create_reserves_lowest_free_inode_witness :
  0 <= 1 < sb_inode_count Samples.sb0
  ∧ Validator.bitmap_test (block_at Samples.fresh (sb_inode_bitmap Samples.sb0)) 1 = 0
  ∧ forall k, 0 <= k < 1 ->
      Validator.bitmap_test (block_at Samples.fresh (sb_inode_bitmap Samples.sb0)) k = 1.
Proof.
  exact (create_reserves_lowest_free_inode Samples.sb0 [x61] Samples.fresh 1
           CreateSamples.created_a create_a_runs).
Defined.

Lemma length_journal_header n : length (journal_header n) = 8%nat.
Proof. unfold journal_header. rewrite length_app, !length_le_encode. reflexivity. Qed.

Lemma journal_used_seen_range sb f : 0 <= journal_used_seen sb f < 2 ^ 32.
Proof.
  unfold journal_used_seen. cbv zeta.
  destruct (decide _); [unfold JOURNAL_HEADER_SIZE; lia|apply get32_range].
Qed.

Lemma journal_offset_addressable sb :
  journal_addressable sb ->
  u32 (sb_journal_block sb * BLOCK_SIZE) = sb_journal_block sb * BLOCK_SIZE
  ∧ 0 <= sb_journal_block sb * BLOCK_SIZE
  ∧ sb_journal_block sb * BLOCK_SIZE + JOURNAL_BLOCKS * BLOCK_SIZE <= 2 ^ 32.
Proof.
  intros [Hlo Hhi]. unfold u32, JOURNAL_BLOCKS, BLOCK_SIZE in *.
  rewrite Z.mod_small by lia. lia.
Qed.

Lemma encode_records_app rs1 rs2 :
  encode_records (rs1 ++ rs2) = encode_records rs1 ++ encode_records rs2.
Proof. unfold encode_records. rewrite fmap_app, concat_app. reflexivity. Qed.

Lemma length_transaction_body tx :
  COMMIT_RECORD_SIZE <= Z.of_nat (length (encode_records (transaction_records tx))).
Proof.
  unfold transaction_records. rewrite encode_records_app, length_app.
  change (length (encode_records [Commit])) with 4%nat.
  unfold COMMIT_RECORD_SIZE, REC_HEADER_SIZE. lia.
Qed.

Lemma length_block_at f b : block_readable f b -> Z.of_nat (length (block_at f b)) = BLOCK_SIZE.
Proof.
  unfold block_readable, block_at. intros Hr.
  apply length_slice_full; [unfold u32; apply Z.mod_pos_bound; lia|unfold BLOCK_SIZE; lia|exact Hr].
Qed.

(** Every block create logs is a whole block. *)
Lemma create_transaction_payloads sb filename f c ibmap dir_index :
  Journal.find_free_inode (Z.to_nat (sb_inode_count sb)) 0 (block_at f (sb_inode_bitmap sb))
    = Journal.Found c ibmap ->
  Journal.find_free_dirent (zseq 0 (BLOCK_SIZE / DIRENT_SIZE))
    (block_at f (root_dir_block sb f)) = Some dir_index ->
  block_readable f (sb_inode_bitmap sb) ->
  block_readable f (u32 (sb_inode_start sb + c / (BLOCK_SIZE / INODE_SIZE))) ->
  block_readable f (sb_inode_start sb) ->
  block_readable f (root_dir_block sb f) ->
  Forall (fun w : Z * list byte => Z.of_nat (length w.2) = BLOCK_SIZE)
    (create_transaction sb filename f c ibmap dir_index).
Proof.
  intros Hfind Hdir Hr1 Hr2 Hr3 Hr4.
  pose proof (find_free_inode_spec (Z.to_nat (sb_inode_count sb)) 0
                (block_at f (sb_inode_bitmap sb)) ltac:(lia)) as Hspec.
  rewrite Hfind in Hspec. destruct Hspec as (Hc & _ & _ & _ & _ & Hlen).
  assert (0 <= dir_index < BLOCK_SIZE / DIRENT_SIZE) as Hdi.
  { apply find_free_dirent_range, elem_of_zseq in Hdir.
    change (BLOCK_SIZE / DIRENT_SIZE) with 128 in *. lia. }
  assert (Z.of_nat (length ibmap) = BLOCK_SIZE) as Hlib
    by (rewrite Hlen; apply length_block_at; assumption).
  unfold create_transaction. cbv zeta.
  destruct (decide _); repeat apply Forall_cons_2; try apply Forall_nil_2; cbn [snd].
  all: try assumption.
  all: repeat first
         [ apply length_with_root_grown | apply length_with_new_inode
         | apply length_with_dirent | apply length_block_at ]; try assumption; lia.
Qed.

(** The image a successful create leaves when the journal lies below 2^32:
    the records at the end of the used part, then the new header. *)
Lemma do_create_journal sb filename f c f' :
  journal_addressable sb ->
  Journal.do_create sb filename f = Ok (Journal.Created c) f' ->
  exists ibmap dir_index,
    Journal.find_free_inode (Z.to_nat (sb_inode_count sb)) 0 (block_at f (sb_inode_bitmap sb))
      = Journal.Found c ibmap
    ∧ Journal.find_free_dirent (zseq 0 (BLOCK_SIZE / DIRENT_SIZE))
        (block_at f (root_dir_block sb f)) = Some dir_index
    ∧ Forall (fun w : Z * list byte => Z.of_nat (length w.2) = BLOCK_SIZE)
        (create_transaction sb filename f c ibmap dir_index)
    ∧ let body :=
        encode_records (transaction_records (create_transaction sb filename f c ibmap dir_index)) in
      let used := journal_used_seen sb f in
      let joff := sb_journal_block sb * BLOCK_SIZE in
      0 <= used
      ∧ used + Z.of_nat (length body) <= JOURNAL_BLOCKS * BLOCK_SIZE
      ∧ joff + JOURNAL_HEADER_SIZE <= Z.of_nat (length f)
      ∧ f' = splice joff (journal_header (used + Z.of_nat (length body)))
               (splice (joff + used) body f).
Proof.
  intros Ha Hrun.
  apply do_create_Created in Hrun
    as (ibmap & dir_index & Hfind & Hdir & Hr1 & Hr2 & Hr3 & Hr4 & Hhdr & Hrun).
  cbv zeta in Hrun. destruct Hrun as [Hfit ->].
  exists ibmap, dir_index. split; [exact Hfind|]. split; [exact Hdir|].
  split; [apply create_transaction_payloads; assumption|]. cbv zeta.
  destruct (journal_offset_addressable sb Ha) as (Hoff & Hlo & Hhi).
  rewrite Hoff in *.
  pose proof (journal_used_seen_range sb f) as Hused.
  pose proof (length_transaction_body (create_transaction sb filename f c ibmap dir_index))
    as Hbody.
  set (used := journal_used_seen sb f) in *.
  set (body := encode_records _) in *.
  unfold COMMIT_RECORD_SIZE, REC_HEADER_SIZE in Hbody.
  assert (u32 (sb_journal_block sb * BLOCK_SIZE + used) = sb_journal_block sb * BLOCK_SIZE + used)
    as Hp by (unfold u32; apply Z.mod_small; lia).
  rewrite Hp.
  replace (sb_journal_block sb * BLOCK_SIZE + used + Z.of_nat (length body)
           - sb_journal_block sb * BLOCK_SIZE) with (used + Z.of_nat (length body)) by lia.
  assert (u32 (used + Z.of_nat (length body)) = used + Z.of_nat (length body)) as ->
    by (unfold u32; apply Z.mod_small; unfold JOURNAL_BLOCKS, BLOCK_SIZE in *; lia).
  repeat (split; [lia || assumption|]). reflexivity.
Qed.

Lemma do_create_same_outside sb filename f c f' :
  journal_addressable sb -> journal_readable sb f ->
  Journal.do_create sb filename f = Ok (Journal.Created c) f' ->
  same_outside_journal sb f' f.
Proof.
  intros Ha Hr Hrun.
  pose proof (journal_start_in_file sb f Ha Hr) as Hend.
  destruct (journal_offset_addressable sb Ha) as (_ & Hlo & _).
  apply do_create_journal in Hrun as (ibmap & dir_index & _ & _ & _ & Hrun); [|assumption].
  cbv zeta in Hrun. destruct Hrun as (Hused & Hfit & _ & ->).
  set (used := journal_used_seen sb f) in *.
  set (body := encode_records _) in *.
  unfold same_outside_journal.
  set (joff := sb_journal_block sb * BLOCK_SIZE) in *.
  assert ((sb_journal_block sb + JOURNAL_BLOCKS) * BLOCK_SIZE = joff + JOURNAL_BLOCKS * BLOCK_SIZE)
    as Hj by (unfold joff; lia).
  rewrite Hj in *.
  split.
  - rewrite !length_splice, length_journal_header.
    unfold JOURNAL_BLOCKS, BLOCK_SIZE in *. lia.
  - intros i Hi. rewrite !lookup_splice, length_journal_header.
    rewrite length_splice.
    unfold JOURNAL_BLOCKS, BLOCK_SIZE in *.
    repeat case_decide; try reflexivity; lia.
Qed.

(** X5: a successful create writes only inside the journal: the file keeps
    its length and every byte outside the sixteen journal blocks. *)
Theorem create_writes_only_the_journal sb filename f c f' :
  journal_addressable sb -> journal_readable sb f ->
  Journal.do_create sb filename f = Ok (Journal.Created c) f' ->
  length f' = length f
  ∧ forall i : nat,
      Z.of_nat i < sb_journal_block sb * BLOCK_SIZE
      ∨ (sb_journal_block sb + JOURNAL_BLOCKS) * BLOCK_SIZE <= Z.of_nat i ->
      f' !! i = f !! i.
Proof. exact (do_create_same_outside sb filename f c f'). Qed.

Lemma create_writes_only_the_journal_witness :
  length CreateSamples.created_a = length Samples.fresh
  ∧ forall i : nat,
      Z.of_nat i < sb_journal_block Samples.sb0 * BLOCK_SIZE
      ∨ (sb_journal_block Samples.sb0 + JOURNAL_BLOCKS) * BLOCK_SIZE <= Z.of_nat i ->
      CreateSamples.created_a !! i = Samples.fresh !! i.
Proof.
  exact (create_writes_only_the_journal Samples.sb0 [x61] Samples.fresh 1
           CreateSamples.created_a sb0_addressable fresh_journal_readable create_a_runs).
Defined.

Lemma journal_seen_used sb f rs :
  journal_addressable sb ->
  journal_seen_by_create sb f rs ->
  journal_used_seen sb f = JOURNAL_HEADER_SIZE + Z.of_nat (length (encode_records rs))
  ∧ slice (sb_journal_block sb * BLOCK_SIZE + JOURNAL_HEADER_SIZE)
      (Z.of_nat (length (encode_records rs))) f = encode_records rs
  ∧ Forall well_formed rs
  ∧ JOURNAL_HEADER_SIZE + Z.of_nat (length (encode_records rs)) <= JOURNAL_BLOCKS * BLOCK_SIZE.
Proof.
  intros Ha Hseen.
  destruct (journal_offset_addressable sb Ha) as (Hoff & Hlo & Hhi).
  unfold journal_used_seen. cbv zeta. rewrite Hoff.
  set (joff := sb_journal_block sb * BLOCK_SIZE) in *.
  assert (get32 0 (slice joff JOURNAL_HEADER_SIZE f) = get32 joff f) as Hg0.
  { unfold get32. rewrite slice_slice by (unfold JOURNAL_HEADER_SIZE; lia).
    f_equal. f_equal. lia. }
  assert (get32 4 (slice joff JOURNAL_HEADER_SIZE f) = get32 (joff + 4) f) as Hg4.
  { unfold get32. rewrite slice_slice by (unfold JOURNAL_HEADER_SIZE; lia). reflexivity. }
  rewrite Hg0, Hg4.
  destruct Hseen as [(Hwf & Hfit & Hat)|[-> Hmagic]].
  - pose proof (length_journal_bytes rs) as Hjlen.
    fold joff in Hat. fold (holds_at f joff (journal_bytes rs)) in Hat.
    unfold journal_bytes in Hat.
    apply holds_at_app in Hat as [Hmagic Hat]; [|assumption].
    apply holds_at_app in Hat as [Hused Hrecs]; [|lia].
    rewrite !length_le_encode in *.
    apply holds_at_decode in Hmagic, Hused.
    change (Z.of_nat 4) with 4 in *. change (256 ^ 4) with (2 ^ 32) in *.
    rewrite Z.mod_small in Hused
      by (unfold JOURNAL_HEADER_SIZE, JOURNAL_BLOCKS, BLOCK_SIZE in *; lia).
    unfold get32. rewrite Hmagic, Hused.
    rewrite decide_False by (intros Hne; apply Hne; reflexivity).
    split; [reflexivity|]. split; [|split; [assumption|lia]].
    unfold holds_at in Hrecs. etransitivity; [|exact Hrecs]. f_equal.
    unfold JOURNAL_HEADER_SIZE. lia.
  - assert (journal_magic sb f = get32 joff f) as Hm.
    { unfold journal_magic.
      rewrite journal_block_offset_addressable by (assumption || unfold JOURNAL_BLOCKS; lia).
      unfold joff. f_equal. lia. }
    rewrite Hm in Hmagic. rewrite decide_True by assumption.
    change (length (encode_records [])) with 0%nat.
    split; [lia|]. split; [reflexivity|]. split; [constructor|].
    unfold JOURNAL_HEADER_SIZE, JOURNAL_BLOCKS, BLOCK_SIZE. lia.
Qed.

Lemma create_transaction_targets sb filename f c ibmap dir_index :
  0 <= sb_inode_bitmap sb < 2 ^ 32 -> 0 <= sb_inode_start sb < 2 ^ 32 ->
  Forall (fun w : Z * list byte => 0 <= w.1 < 2 ^ 32)
    (create_transaction sb filename f c ibmap dir_index).
Proof.
  intros Hb Hs. unfold create_transaction. cbv zeta.
  assert (forall z, 0 <= u32 z < 2 ^ 32) as Hu by (intros z; apply Z.mod_pos_bound; lia).
  destruct (decide _); repeat apply Forall_cons_2; try apply Forall_nil_2; cbn [fst];
    first [assumption | apply Hu | apply get32_range].
Qed.

Lemma transaction_well_formed tx :
  Forall (fun w : Z * list byte => 0 <= w.1 < 2 ^ 32) tx ->
  Forall (fun w : Z * list byte => Z.of_nat (length w.2) = BLOCK_SIZE) tx ->
  Forall well_formed (transaction_records tx).
Proof.
  intros Ht Hp. unfold transaction_records. apply Forall_app. split; [|repeat constructor].
  apply Forall_fmap. rewrite Forall_forall in *. intros w Hw. cbn. split; auto.
Qed.

(** What the journal holds after a successful create: the records it held
    before, then the committed transaction. *)
Lemma create_holds_journal sb filename f c f' rs :
  journal_addressable sb ->
  0 <= sb_inode_bitmap sb < 2 ^ 32 -> 0 <= sb_inode_start sb < 2 ^ 32 ->
  journal_seen_by_create sb f rs ->
  Journal.do_create sb filename f = Ok (Journal.Created c) f' ->
  exists ibmap dir_index,
    Journal.find_free_inode (Z.to_nat (sb_inode_count sb)) 0 (block_at f (sb_inode_bitmap sb))
      = Journal.Found c ibmap
    ∧ Journal.find_free_dirent (zseq 0 (BLOCK_SIZE / DIRENT_SIZE))
        (block_at f (root_dir_block sb f)) = Some dir_index
    ∧ holds_journal sb f'
        (rs ++ transaction_records (create_transaction sb filename f c ibmap dir_index)).
Proof.
  intros Ha Hb Hs Hseen Hrun.
  destruct (journal_seen_used sb f rs Ha Hseen) as (Hused & Hrecs & Hwf & Hfit0).
  destruct (journal_offset_addressable sb Ha) as (_ & Hlo & _).
  apply do_create_journal in Hrun
    as (ibmap & dir_index & Hfind & Hdir & Hpay & Hrun); [|assumption].
  cbv zeta in Hrun. destruct Hrun as (_ & Hfit & Hhdr & ->).
  exists ibmap, dir_index. split; [exact Hfind|]. split; [exact Hdir|].
  pose proof (create_transaction_targets sb filename f c ibmap dir_index Hb Hs) as Htg.
  set (tx := create_transaction sb filename f c ibmap dir_index) in *.
  rewrite Hused in *.
  set (joff := sb_journal_block sb * BLOCK_SIZE) in *.
  set (body := encode_records (transaction_records tx)) in *.
  set (old := encode_records rs) in *.
  assert (joff + JOURNAL_HEADER_SIZE + Z.of_nat (length old) <= Z.of_nat (length f)) as Hin.
  { destruct (decide (0 < Z.of_nat (length old))) as [Hpos|Hzero]; [|lia].
    pose proof (length_slice_full_inv (joff + JOURNAL_HEADER_SIZE) (Z.of_nat (length old)) f
                  ltac:(unfold JOURNAL_HEADER_SIZE; lia) Hpos) as Hinv.
    rewrite Hrecs in Hinv. apply Hinv. reflexivity. }
  split; [|split].
  - apply Forall_app. split; [assumption|]. apply transaction_well_formed; assumption.
  - rewrite length_journal_bytes, encode_records_app, length_app. fold old body. lia.
  - rewrite length_journal_bytes. unfold journal_bytes.
    rewrite encode_records_app, length_app. fold old body joff.
    rewrite Nat2Z.inj_add.
    replace (JOURNAL_HEADER_SIZE + (Z.of_nat (length old) + Z.of_nat (length body)))
      with (JOURNAL_HEADER_SIZE + Z.of_nat (length old) + Z.of_nat (length body)) by lia.
    set (hdr := journal_header _).
    assert (Z.of_nat (length hdr) = JOURNAL_HEADER_SIZE) as Hlh
      by (unfold hdr; rewrite length_journal_header; reflexivity).
    rewrite <- (slice_cat joff (JOURNAL_HEADER_SIZE + Z.of_nat (length old)))
      by (unfold JOURNAL_HEADER_SIZE; lia).
    rewrite <- (slice_cat joff JOURNAL_HEADER_SIZE) by (unfold JOURNAL_HEADER_SIZE; lia).
    rewrite <- Hlh at 1. rewrite slice_splice_same by assumption.
    rewrite (slice_splice_after (joff + JOURNAL_HEADER_SIZE)) by lia.
    rewrite slice_splice_before by (unfold JOURNAL_HEADER_SIZE in *; lia).
    rewrite Hrecs.
    rewrite (slice_splice_after (joff + (JOURNAL_HEADER_SIZE + Z.of_nat (length old)))) by lia.
    replace (joff + (JOURNAL_HEADER_SIZE + Z.of_nat (length old)))
      with (joff + JOURNAL_HEADER_SIZE + Z.of_nat (length old)) by lia.
    replace (joff + (JOURNAL_HEADER_SIZE + Z.of_nat (length old)))
      with (joff + JOURNAL_HEADER_SIZE + Z.of_nat (length old)) by lia.
    rewrite slice_splice_same by (unfold JOURNAL_HEADER_SIZE; lia).
    unfold hdr, journal_header. rewrite <- !app_assoc. reflexivity.
Qed.

(** X6: create appends to the log: a journal that held the records [rs]
    holds, after a successful create, [rs] followed by the writes of the
    new transaction and its commit record. *)
Theorem create_appends_a_committed_transaction sb filename f c f' rs :
  journal_addressable sb ->
  0 <= sb_inode_bitmap sb < 2 ^ 32 -> 0 <= sb_inode_start sb < 2 ^ 32 ->
  holds_journal sb f rs ->
  Journal.do_create sb filename f = Ok (Journal.Created c) f' ->
  exists ibmap dir_index,
    Journal.find_free_inode (Z.to_nat (sb_inode_count sb)) 0 (block_at f (sb_inode_bitmap sb))
      = Journal.Found c ibmap
    ∧ Journal.find_free_dirent (zseq 0 (BLOCK_SIZE / DIRENT_SIZE))
        (block_at f (root_dir_block sb f)) = Some dir_index
    ∧ holds_journal sb f'
        (rs ++ transaction_records (create_transaction sb filename f c ibmap dir_index)).
Proof.
  intros Ha Hb Hs Hj. apply create_holds_journal; try assumption. left. exact Hj.
Qed.

Lemma same_outside_journal_refl sb g : same_outside_journal sb g g.
Proof. split; reflexivity. Qed.

Lemma apply_write_same_outside sb g g' w :
  same_outside_journal sb g g' ->
  same_outside_journal sb (apply_write sb g w) (apply_write sb g' w).
Proof.
  intros [Hlen Hout]. unfold apply_write. destruct (decide _); [|split; assumption].
  split.
  - rewrite !length_splice, Hlen. reflexivity.
  - intros i Hi. rewrite !lookup_splice, Hlen.
    repeat case_decide; try reflexivity; apply Hout; exact Hi.
Qed.

Lemma apply_writes_same_outside sb ws : forall g g',
  same_outside_journal sb g g' ->
  same_outside_journal sb (foldl (apply_write sb) g ws) (foldl (apply_write sb) g' ws).
Proof.
  induction ws as [|w ws IH]; intros g g' H; [exact H|].
  simpl. apply IH, apply_write_same_outside, H.
Qed.

Lemma clear_journal_same_outside sb g g' :
  journal_addressable sb ->
  same_outside_journal sb g g' -> clear_journal sb g = clear_journal sb g'.
Proof.
  intros Ha [Hlen Hout].
  destruct (journal_offset_addressable sb Ha) as (_ & Hlo & _).
  pose proof length_cleared_journal as Hlc.
  unfold clear_journal. apply list_eq. intros i.
  rewrite !lookup_splice, Hlen.
  set (joff := sb_journal_block sb * BLOCK_SIZE) in *.
  repeat case_decide; try reflexivity; apply Hout; fold joff; lia.
Qed.

Lemma replay_transaction sb tx f :
  replay sb (transaction_records tx) [] f = foldl (apply_write sb) f tx.
Proof.
  pose proof (replay_transactions sb [tx] f) as H.
  cbn [fmap list_fmap concat] in H. rewrite !app_nil_r in H. exact H.
Qed.

Lemma same_outside_readable sb g g' :
  same_outside_journal sb g g' -> journal_readable sb g' -> journal_readable sb g.
Proof. intros [Hlen _] Hr i Hi. rewrite Hlen. apply Hr, Hi. Qed.

(** X7: create, then install: on an image whose journal create finds
    empty, the pair leaves the image with the blocks of the transaction
    written in log order and the journal empty again. *)
Theorem create_then_install sb filename f c f' fuel :
  journal_addressable sb -> journal_readable sb f ->
  0 <= sb_inode_bitmap sb < 2 ^ 32 -> 0 <= sb_inode_start sb < 2 ^ 32 ->
  journal_seen_by_create sb f [] ->
  Journal.do_create sb filename f = Ok (Journal.Created c) f' ->
  (5 < fuel)%nat ->
  exists ibmap dir_index,
    Journal.find_free_inode (Z.to_nat (sb_inode_count sb)) 0 (block_at f (sb_inode_bitmap sb))
      = Journal.Found c ibmap
    ∧ Journal.find_free_dirent (zseq 0 (BLOCK_SIZE / DIRENT_SIZE))
        (block_at f (root_dir_block sb f)) = Some dir_index
    ∧ Journal.do_install fuel sb f'
      = Some (Ok tt (clear_journal sb
                       (foldl (apply_write sb) f
                          (create_transaction sb filename f c ibmap dir_index)))).
Proof.
  intros Ha Hr Hb Hs Hseen Hrun Hfuel.
  pose proof (do_create_same_outside sb filename f c f' Ha Hr Hrun) as Hsame.
  destruct (create_holds_journal sb filename f c f' [] Ha Hb Hs Hseen Hrun)
    as (ibmap & dir_index & Hfind & Hdir & Hj).
  exists ibmap, dir_index. split; [exact Hfind|]. split; [exact Hdir|].
  rewrite app_nil_l in Hj.
  set (tx := create_transaction sb filename f c ibmap dir_index) in *.
  assert (length tx <= 4)%nat as Hlen.
  { unfold tx, create_transaction. cbv zeta. destruct (decide _); simpl; lia. }
  rewrite (install_replays sb f' (transaction_records tx) fuel Ha
             (same_outside_readable sb f' f Hsame Hr) Hj).
  - rewrite replay_transaction.
    rewrite (clear_journal_same_outside sb (foldl (apply_write sb) f' tx)
               (foldl (apply_write sb) f tx) Ha); [reflexivity|].
    apply apply_writes_same_outside, Hsame.
  - unfold transaction_records. intros Hnil. apply app_eq_nil in Hnil as [_ [=]].
  - unfold transaction_records. rewrite length_app, length_fmap. simpl. lia.
Qed.

Lemma create_second_runs :
  Journal.do_create Samples.sb0 [x61] JournalSamples.superblock_overwrite
  = Ok (Journal.Created 1) CreateSamples.created_second.
Proof. by_evaluation. Qed.

Lemma overwrite_holds_journal :
  holds_journal Samples.sb0 JournalSamples.superblock_overwrite [Data 0 Samples.ones; Commit].
Proof.
  split; [|split].
  - repeat constructor; vm_compute; congruence.
  - by_evaluation.
  - by_evaluation.
Qed.

Lemma sb0_inode_bitmap_range : 0 <= sb_inode_bitmap Samples.sb0 < 2 ^ 32.
Proof. change (sb_inode_bitmap Samples.sb0) with 17. lia. Qed.

Lemma sb0_inode_start_range : 0 <= sb_inode_start Samples.sb0 < 2 ^ 32.
Proof. change (sb_inode_start Samples.sb0) with 19. lia. Qed.

Lemma fresh_seen_empty : journal_seen_by_create Samples.sb0 Samples.fresh [].
Proof. right. split; [reflexivity|]. by_evaluation. Qed.

Lemma create_appends_a_committed_transaction_witness :
  exists ibmap dir_index,
    Journal.find_free_inode (Z.to_nat (sb_inode_count Samples.sb0)) 0
      (block_at JournalSamples.superblock_overwrite (sb_inode_bitmap Samples.sb0))
      = Journal.Found 1 ibmap
    ∧ Journal.find_free_dirent (zseq 0 (BLOCK_SIZE / DIRENT_SIZE))
        (block_at JournalSamples.superblock_overwrite
           (root_dir_block Samples.sb0 JournalSamples.superblock_overwrite)) = Some dir_index
    ∧ holds_journal Samples.sb0 CreateSamples.created_second
        ([Data 0 Samples.ones; Commit]
           ++ transaction_records
                (create_transaction Samples.sb0 [x61] JournalSamples.superblock_overwrite 1
                   ibmap dir_index)).
Proof.
  exact (create_appends_a_committed_transaction Samples.sb0 [x61]
           JournalSamples.superblock_overwrite 1 CreateSamples.created_second
           [Data 0 Samples.ones; Commit]
           sb0_addressable sb0_inode_bitmap_range sb0_inode_start_range
           overwrite_holds_journal create_second_runs).
Defined.

Lemma create_then_install_witness :
  exists ibmap dir_index,
    Journal.find_free_inode (Z.to_nat (sb_inode_count Samples.sb0)) 0
      (block_at Samples.fresh (sb_inode_bitmap Samples.sb0))
      = Journal.Found 1 ibmap
    ∧ Journal.find_free_dirent (zseq 0 (BLOCK_SIZE / DIRENT_SIZE))
        (block_at Samples.fresh (root_dir_block Samples.sb0 Samples.fresh)) = Some dir_index
    ∧ Journal.do_install 6 Samples.sb0 CreateSamples.created_a
      = Some (Ok tt (clear_journal Samples.sb0
                       (foldl (apply_write Samples.sb0) Samples.fresh
                          (create_transaction Samples.sb0 [x61] Samples.fresh 1
                             ibmap dir_index)))).
Proof.
  exact (create_then_install Samples.sb0 [x61] Samples.fresh 1 CreateSamples.created_a 6
           sb0_addressable fresh_journal_readable sb0_inode_bitmap_range sb0_inode_start_range
           fresh_seen_empty create_a_runs ltac:(lia)).
Defined.

Lemma block_offset_wraps t : u32 (t * BLOCK_SIZE) = t mod 2 ^ 20 * BLOCK_SIZE.
Proof.
  unfold u32, BLOCK_SIZE. change (2 ^ 32) with (2 ^ 20 * 4096).
  rewrite Z.mul_mod_distr_r by lia. reflexivity.
Qed.

Lemma well_formed_transactions txs :
  Forall well_formed (concat (transaction_records <$> txs)) ->
  Forall (fun w : Z * list byte => Z.of_nat (length w.2) = BLOCK_SIZE) (concat txs).
Proof.
  induction txs as [|tx txs IH]; [constructor|].
  cbn [fmap list_fmap concat]. unfold transaction_records at 1.
  rewrite !Forall_app. intros [[Htx _] Hrest]. split; [|apply IH, Hrest].
  rewrite Forall_fmap in Htx. eapply Forall_impl; [exact Htx|].
  intros w [_ Hw]. exact Hw.
Qed.

Lemma last_write_snoc sb ws w b :
  last_write sb (ws ++ [w]) b
  = if decide (w.1 mod 2 ^ 20 = b ∧ w.1 < sb_total_blocks sb) then Some w.2
    else last_write sb ws b.
Proof.
  unfold last_write. rewrite filter_app.
  destruct (decide _) as [Hw|Hw].
  - rewrite filter_cons_True by exact Hw. rewrite filter_nil, last_snoc. reflexivity.
  - rewrite filter_cons_False by exact Hw. rewrite filter_nil, app_nil_r. reflexivity.
Qed.

(** Block [b] after a sequence of writes: the payload of the last write
    that landed on it, or what it held. *)
Lemma apply_writes_block sb b ws : forall f,
  Forall (fun w : Z * list byte => Z.of_nat (length w.2) = BLOCK_SIZE) ws ->
  0 <= b < 2 ^ 20 -> (b + 1) * BLOCK_SIZE <= Z.of_nat (length f) ->
  slice (b * BLOCK_SIZE) BLOCK_SIZE (foldl (apply_write sb) f ws)
  = default (slice (b * BLOCK_SIZE) BLOCK_SIZE f) (last_write sb ws b).
Proof.
  induction ws as [|w ws IH] using rev_ind; intros f Hws Hb Hlen; [reflexivity|].
  apply Forall_app in Hws as [Hws Hw]. rewrite Forall_singleton in Hw.
  rewrite foldl_app, last_write_snoc. cbn [foldl].
  pose proof (length_apply_writes sb ws f) as Hgrow.
  specialize (IH f Hws Hb Hlen).
  set (g := foldl (apply_write sb) f ws) in *.
  unfold apply_write.
  assert (0 <= w.1 mod 2 ^ 20 < 2 ^ 20) as Ht by (apply Z.mod_pos_bound; lia).
  destruct (decide (w.1 < sb_total_blocks sb)) as [Hin|Hout].
  - rewrite block_offset_wraps.
    destruct (decide (w.1 mod 2 ^ 20 = b)) as [Heq|Hne].
    + rewrite decide_True by (split; assumption). cbn [default].
      cbv beta in Hw. rewrite Heq.
      pose proof (slice_splice_same (b * BLOCK_SIZE) w.2 g
                    ltac:(unfold BLOCK_SIZE; lia)) as Hs.
      rewrite Hw in Hs. exact Hs.
    + rewrite decide_False by (intros [? _]; contradiction).
      rewrite <- IH.
      destruct (decide (w.1 mod 2 ^ 20 < b)).
      * apply slice_splice_after; unfold BLOCK_SIZE in *; lia.
      * apply slice_splice_before; unfold BLOCK_SIZE in *; lia.
  - rewrite decide_False by (intros [_ ?]; contradiction). exact IH.
Qed.

Lemma transactions_nonempty txs : txs ≠ [] -> concat (transaction_records <$> txs) ≠ [].
Proof.
  destruct txs as [|tx txs]; [contradiction|]. intros _.
  cbn [fmap list_fmap concat]. unfold transaction_records at 1.
  intros H. apply app_eq_nil in H as [H _]. apply app_eq_nil in H as [_ [=]].
Qed.

(** X8: install applies the committed writes in log order: afterwards a
    block outside the journal holds the payload of the last committed write
    whose 32-bit byte offset is that of the block, and is unchanged when
    there is none. *)
Theorem install_last_committed_write_wins sb f txs fuel b :
  journal_addressable sb -> journal_readable sb f ->
  holds_journal sb f (concat (transaction_records <$> txs)) ->
  txs ≠ [] ->
  (length (concat (transaction_records <$> txs)) < fuel)%nat ->
  0 <= b < 2 ^ 20 -> (b + 1) * BLOCK_SIZE <= Z.of_nat (length f) ->
  b < sb_journal_block sb ∨ sb_journal_block sb + JOURNAL_BLOCKS <= b ->
  exists f',
    Journal.do_install fuel sb f = Some (Ok tt f')
    ∧ slice (b * BLOCK_SIZE) BLOCK_SIZE f'
      = default (slice (b * BLOCK_SIZE) BLOCK_SIZE f) (last_write sb (concat txs) b).
Proof.
  intros Ha Hr Hj Hne Hfuel Hb Hlen Hout.
  pose proof Hj as (Hwf & _).
  exists (clear_journal sb (replay sb (concat (transaction_records <$> txs)) [] f)). split.
  - apply (install_replays sb f _ fuel Ha Hr Hj (transactions_nonempty txs Hne) Hfuel).
  - rewrite replay_transactions.
    pose proof (length_apply_writes sb (concat txs) f) as Hgrow.
    pose proof (journal_start_in_file sb f Ha Hr) as Hend.
    rewrite clear_journal_outside; try assumption.
    + apply apply_writes_block; try assumption. apply well_formed_transactions, Hwf.
    + unfold JOURNAL_BLOCKS, BLOCK_SIZE in *. lia.
    + unfold BLOCK_SIZE. lia.
    + unfold BLOCK_SIZE. lia.
    + unfold JOURNAL_BLOCKS, BLOCK_SIZE in *. lia.
Qed.

Lemma install_last_committed_write_wins_witness :
  exists f',
    Journal.do_install 3 Samples.sb0 JournalSamples.superblock_overwrite = Some (Ok tt f')
    ∧ slice (0 * BLOCK_SIZE) BLOCK_SIZE f'
      = default (slice (0 * BLOCK_SIZE) BLOCK_SIZE JournalSamples.superblock_overwrite)
          (last_write Samples.sb0 (concat [[(0, Samples.ones)]]) 0).
Proof.
  assert (journal_readable Samples.sb0 JournalSamples.superblock_overwrite) as Hr
    by (apply sb0_readable; vm_compute; reflexivity).
  assert ((0 + 1) * BLOCK_SIZE <= Z.of_nat (length JournalSamples.superblock_overwrite)) as Hlen
    by (vm_compute; congruence).
  exact (install_last_committed_write_wins Samples.sb0 JournalSamples.superblock_overwrite
           [[(0, Samples.ones)]] 3 0 sb0_addressable Hr overwrite_holds_journal
           ltac:(discriminate) ltac:(simpl; lia) ltac:(lia) Hlen
           ltac:(left; reflexivity)).
Defined.

(** One iteration of the scan that goes on advances by the declared size. *)
Lemma scan_body_Continue sb jbuf n pos pending f pos' pending' f' :
  Journal.scan_body sb jbuf n pos pending f = Ok (Journal.Continue pos' pending') f' ->
  pos' = pos + get16 (pos + 2) jbuf ∧ pos + REC_HEADER_SIZE <= Z.of_nat (length jbuf).
Proof.
  unfold Journal.scan_body.
  destruct (decide (Z.of_nat (length jbuf) < pos + REC_HEADER_SIZE)); [discriminate|].
  cbv zeta.
  destruct (decide (pos + get16 (pos + 2) jbuf > n)); [discriminate|].
  assert (pos + REC_HEADER_SIZE <= Z.of_nat (length jbuf)) as Hin by lia.
  destruct (decide (get16 pos jbuf = REC_DATA)).
  - destruct (decide (get16 (pos + 2) jbuf ≠ _)); [intros [= <- _ _]; auto|].
    destruct (decide _); [discriminate|]. intros [= <- _ _]; auto.
  - destruct (decide (get16 pos jbuf = REC_COMMIT)).
    + intros H. apply bind_Ok_inv in H as ([] & f1 & _ & [= <- _ _]). auto.
    + intros [= <- _ _]; auto.
Qed.

(** A record of declared size 0 inside the used area holds the scan for ever. *)
Lemma scan_zero_size_never_ends sb jbuf n pos pending f fuel0 :
  pos + REC_HEADER_SIZE <= n ->
  get16 (pos + 2) jbuf = 0 ->
  Journal.scan (S fuel0) sb jbuf n pos pending f = None ->
  forall fuel, Journal.scan fuel sb jbuf n pos pending f = None.
Proof.
  intros Hpos Hsize Hnone.
  simpl in Hnone. rewrite decide_True in Hnone by assumption.
  destruct (Journal.scan_body sb jbuf n pos pending f) as [[pos' pending'|] f'| |] eqn:Hbody;
    try discriminate.
  clear Hnone.
  pose proof (scan_body_Continue _ _ _ _ _ _ _ _ _ Hbody) as [Hpos' Hin].
  rewrite Hsize, Z.add_0_r in Hpos'. subst pos'.
  assert (forall fuel, Journal.scan fuel sb jbuf n pos pending' f' = None) as Hnext.
  { revert Hbody. unfold Journal.scan_body.
    rewrite decide_False by (unfold REC_HEADER_SIZE in *; lia). cbv zeta. rewrite Hsize, Z.add_0_r.
    rewrite decide_False by (unfold REC_HEADER_SIZE in *; lia).
    destruct (decide (get16 pos jbuf = REC_DATA)) as [Hd|Hd].
    - rewrite decide_True by (unfold REC_HEADER_SIZE, BLOCK_SIZE; lia).
      intros [= <- <-]. apply scan_stalls; [assumption|].
      unfold Journal.scan_body.
      rewrite decide_False by (unfold REC_HEADER_SIZE in *; lia). cbv zeta. rewrite Hsize, Z.add_0_r.
      rewrite decide_False by (unfold REC_HEADER_SIZE in *; lia). rewrite decide_True by assumption.
      rewrite decide_True by (unfold REC_HEADER_SIZE, BLOCK_SIZE; lia). reflexivity.
    - destruct (decide (get16 pos jbuf = REC_COMMIT)) as [Hc|Hc].
      + intros H. apply bind_Ok_inv in H as ([] & f1 & _ & [= <- <-]).
        apply scan_stalls; [assumption|].
        unfold Journal.scan_body.
        rewrite decide_False by (unfold REC_HEADER_SIZE in *; lia). cbv zeta. rewrite Hsize, Z.add_0_r.
        rewrite decide_False by (unfold REC_HEADER_SIZE in *; lia). rewrite decide_False by assumption.
        rewrite decide_True by assumption. reflexivity.
      + intros [= <- <-]. apply scan_stalls; [assumption|].
        unfold Journal.scan_body.
        rewrite decide_False by (unfold REC_HEADER_SIZE in *; lia). cbv zeta. rewrite Hsize, Z.add_0_r.
        rewrite decide_False by (unfold REC_HEADER_SIZE in *; lia). rewrite !decide_False by assumption. reflexivity. }
  intros [|fuel]; [reflexivity|].
  simpl. rewrite decide_True by assumption. rewrite Hbody. apply Hnext.
Qed.

(** A scan that has not ended after as many iterations as the buffer has
    bytes is held at a record of declared size 0, and never ends. *)
Lemma scan_runs_out sb jbuf n : forall fuel pos pending f,
  0 <= pos -> (0 < fuel)%nat -> Z.of_nat (length jbuf) - pos < Z.of_nat fuel ->
  Journal.scan fuel sb jbuf n pos pending f = None ->
  (exists p, pos <= p ∧ p + REC_HEADER_SIZE <= n ∧ get16 (p + 2) jbuf = 0)
  ∧ forall fuel', Journal.scan fuel' sb jbuf n pos pending f = None.
Proof.
  induction fuel as [|fuel IH]; intros pos pending f Hpos Hfuel Hmeasure Hnone; [lia|].
  pose proof Hnone as Hnone'.
  simpl in Hnone. destruct (decide (pos + REC_HEADER_SIZE <= n)) as [Hin|]; [|discriminate].
  destruct (Journal.scan_body sb jbuf n pos pending f) as [[pos' pending'|] f'| |] eqn:Hbody;
    try discriminate.
  pose proof (scan_body_Continue _ _ _ _ _ _ _ _ _ Hbody) as [Hpos' Hbuf].
  pose proof (get16_range (pos + 2) jbuf) as Hsize.
  destruct (decide (get16 (pos + 2) jbuf = 0)) as [Hzero|Hpositive].
  - split; [exists pos; repeat split; (lia || assumption)|].
    apply (scan_zero_size_never_ends sb jbuf n pos pending f fuel); assumption.
  - unfold REC_HEADER_SIZE in *.
    destruct (IH pos' pending' f') as [(p & Hp & Hpn & Hpz) Hall]; try assumption; try lia.
    split; [exists p; repeat split; (lia || assumption)|].
    intros [|fuel']; [reflexivity|].
    simpl. rewrite decide_True by (unfold REC_HEADER_SIZE; assumption).
    rewrite Hbody. apply Hall.
Qed.

(** X9: the scan of install can only fail to end at a record that declares
    size 0: if install has not returned after 65536 iterations of the scan,
    the used part of the journal holds a record header with size 0 and
    install does not return however long it runs. *)
Theorem install_runs_out_only_at_a_zero_size_record sb f fuel :
  JOURNAL_BLOCKS * BLOCK_SIZE <= Z.of_nat fuel ->
  Journal.do_install fuel sb f = None ->
  (exists p, JOURNAL_HEADER_SIZE <= p
             ∧ p + REC_HEADER_SIZE <= journal_nbytes_used sb f
             ∧ get16 (p + 2) (journal_image sb f) = 0)
  ∧ forall fuel', Journal.do_install fuel' sb f = None.
Proof.
  intros Hfuel. unfold Journal.do_install.
  destruct (Journal.load_journal sb _ [] f) as [jbuf f0| |] eqn:Hload; [|discriminate..].
  pose proof (load_journal_readable _ _ _ _ Hload) as Hr.
  pose proof (load_journal_ok sb f Hr) as Hok.
  rewrite Hload in Hok. injection Hok as -> ->.
  cbv zeta.
  rewrite journal_image_magic, journal_image_nbytes_used by assumption.
  destruct (decide (journal_magic sb f ≠ JOURNAL_MAGIC)); [discriminate|].
  destruct (decide (journal_nbytes_used sb f <= JOURNAL_HEADER_SIZE)); [discriminate|].
  destruct (Journal.scan fuel sb _ _ _ [] f) as [[[] f2| |]|] eqn:Hscan; try discriminate.
  intros _.
  pose proof (length_journal_image sb f Hr) as Hlen.
  destruct (scan_runs_out sb (journal_image sb f) (journal_nbytes_used sb f) fuel
              JOURNAL_HEADER_SIZE [] f) as [Hex Hall].
  - unfold JOURNAL_HEADER_SIZE. lia.
  - unfold JOURNAL_BLOCKS, BLOCK_SIZE in Hfuel. lia.
  - rewrite Hlen. unfold JOURNAL_BLOCKS, BLOCK_SIZE, JOURNAL_HEADER_SIZE in *. lia.
  - exact Hscan.
  - split; [exact Hex|]. intros fuel'. rewrite Hall. reflexivity.
Qed.

Lemma zero_length_record_stalls :
  forall fuel, Journal.do_install fuel Samples.sb0 Samples.zero_length_record = None.
Proof.
  apply install_stalls_on_zero_length.
  - apply sb0_readable. vm_compute. reflexivity.
  - vm_compute. reflexivity.
  - vm_compute. discriminate.
  - vm_compute. reflexivity.
Qed.

Lemma install_runs_out_only_at_a_zero_size_record_witness :
  (exists p, JOURNAL_HEADER_SIZE <= p
             ∧ p + REC_HEADER_SIZE <= journal_nbytes_used Samples.sb0 Samples.zero_length_record
             ∧ get16 (p + 2) (journal_image Samples.sb0 Samples.zero_length_record) = 0)
  ∧ forall fuel', Journal.do_install fuel' Samples.sb0 Samples.zero_length_record = None.
Proof.
  assert (JOURNAL_BLOCKS * BLOCK_SIZE <= Z.of_nat (Z.to_nat (JOURNAL_BLOCKS * BLOCK_SIZE))) as Hfuel
    by (rewrite Z2Nat.id; unfold JOURNAL_BLOCKS, BLOCK_SIZE; lia).
  exact (install_runs_out_only_at_a_zero_size_record Samples.sb0 Samples.zero_length_record
           (Z.to_nat (JOURNAL_BLOCKS * BLOCK_SIZE)) Hfuel
           (zero_length_record_stalls (Z.to_nat (JOURNAL_BLOCKS * BLOCK_SIZE)))).
Defined.

(** X10: what [write_block] stores, [read_block] returns: after a whole
    block is written to block [b], reading [b] or any block number with the
    same 32-bit byte offset gives that block back; a block at another
    offset that lay inside the file reads as before. *)
Theorem write_block_then_read_block b buf f :
  Z.of_nat (length buf) = BLOCK_SIZE ->
  exists f1,
    Journal.write_block b buf f = Ok tt f1
    ∧ (forall b', b' mod 2 ^ 20 = b mod 2 ^ 20 -> Journal.read_block b' f1 = Ok buf f1)
    ∧ (forall b', b' mod 2 ^ 20 ≠ b mod 2 ^ 20 -> block_readable f b' ->
         Journal.read_block b' f1 = Ok (block_at f b') f1).
Proof.
  intros Hlen. exists (splice (u32 (b * BLOCK_SIZE)) buf f).
  split; [reflexivity|].
  assert (forall t, 0 <= t mod 2 ^ 20 < 2 ^ 20) as Hmod by (intros t; apply Z.mod_pos_bound; lia).
  pose proof (Hmod b) as Hb.
  rewrite block_offset_wraps.
  set (off := b mod 2 ^ 20 * BLOCK_SIZE).
  assert (0 <= off) as Hoff by (unfold off, BLOCK_SIZE; lia).
  split.
  - intros b' Heq.
    assert (u32 (b' * BLOCK_SIZE) = off) as Ho by (rewrite block_offset_wraps, Heq; reflexivity).
    rewrite read_block_ok; rewrite Ho.
    + rewrite <- Hlen. rewrite slice_splice_same by assumption. reflexivity.
    + rewrite length_splice. lia.
  - intros b' Hne Hr. unfold block_readable in Hr. unfold block_at.
    pose proof (Hmod b') as Hb'.
    rewrite read_block_ok; rewrite block_offset_wraps in *.
    + apply (f_equal (fun x => Ok x _)).
      destruct (decide (b' mod 2 ^ 20 < b mod 2 ^ 20)).
      * apply slice_splice_before; unfold off, BLOCK_SIZE in *; lia.
      * apply slice_splice_after; unfold off, BLOCK_SIZE in *; lia.
    + rewrite length_splice. lia.
Qed.

Lemma write_block_then_read_block_witness :
  exists f1,
    Journal.write_block 3 Samples.ones Samples.fresh = Ok tt f1
    ∧ (forall b', b' mod 2 ^ 20 = 3 mod 2 ^ 20 -> Journal.read_block b' f1 = Ok Samples.ones f1)
    ∧ (forall b', b' mod 2 ^ 20 ≠ 3 mod 2 ^ 20 -> block_readable Samples.fresh b' ->
         Journal.read_block b' f1 = Ok (block_at Samples.fresh b') f1).
Proof.
  exact (write_block_then_read_block 3 Samples.ones Samples.fresh ltac:(reflexivity)).
Defined.

(** ** Names *)

(** [strncpy] in terms of the characters of the source string. *)
Lemma strncpy_c_string n : forall src,
  Journal.strncpy n src
  = take n (Validator.c_string src) ++ replicate (n - length (Validator.c_string src)) x00.
Proof.
  induction n as [|n IH]; intros src; [reflexivity|].
  simpl Journal.strncpy. destruct src as [|c src]; [reflexivity|].
  simpl Validator.c_string. destruct (decide (c = x00)); [reflexivity|].
  simpl. rewrite IH. reflexivity.
Qed.

Lemma c_string_app_zero s rest :
  x00 ∉ s -> Validator.c_string (s ++ x00 :: rest) = s.
Proof.
  induction s as [|c s IH]; intros Hs; cbn [app Validator.c_string].
  - rewrite decide_True by reflexivity. reflexivity.
  - apply not_elem_of_cons in Hs as [Hc Hs].
    rewrite decide_False by congruence. rewrite IH by assumption. reflexivity.
Qed.

Lemma c_string_no_zero src : x00 ∉ Validator.c_string src.
Proof.
  induction src as [|c src IH]; simpl; [apply not_elem_of_nil|].
  destruct (decide (c = x00)); [apply not_elem_of_nil|].
  apply not_elem_of_cons. split; [congruence|assumption].
Qed.

(** X11: a name shorter than the field survives the trip through the
    directory entry: the field [strncpy] fills holds a terminator, and the
    string the validator reads from it is the string that was passed. *)
Theorem short_name_reads_back n src :
  (length (Validator.c_string src) < n)%nat ->
  x00 ∈ Journal.strncpy n src
  ∧ Validator.c_string (Journal.strncpy n src) = Validator.c_string src.
Proof.
  intros Hshort. rewrite strncpy_c_string.
  rewrite take_ge by lia.
  destruct (n - length (Validator.c_string src))%nat as [|k] eqn:Hk; [lia|].
  simpl replicate. split.
  - apply elem_of_app. right. left.
  - apply c_string_app_zero, c_string_no_zero.
Qed.

Lemma short_name_reads_back_witness :
  x00 ∈ Journal.strncpy 28 [x61; x62]
  ∧ Validator.c_string (Journal.strncpy 28 [x61; x62]) = Validator.c_string [x61; x62].
Proof.
  apply (short_name_reads_back 28 [x61; x62]). simpl. lia.
Defined.

(** ** Bitmaps *)

Lemma lookup_put8 off v (l : list byte) (i : nat) :
  0 <= off < Z.of_nat (length l) ->
  put8 off v l !! i = if decide (i = Z.to_nat off) then Some (byte_of_Z v) else l !! i.
Proof.
  intros Hoff. unfold put8. rewrite lookup_splice. simpl le_encode. simpl length.
  destruct (decide (i = Z.to_nat off)) as [->|Hne].
  - rewrite decide_False by lia. rewrite decide_True by lia.
    rewrite Nat.sub_diag. reflexivity.
  - destruct (decide (i < Z.to_nat off)%nat).
    + rewrite decide_True by lia. reflexivity.
    + rewrite decide_False by lia. reflexivity.
Qed.

(** X12: the bit [set_bitmap] sets is the bit [bitmap_test] reads: after
    setting bit [index] that bit tests as 1 and every other bit as before. *)
Theorem set_bitmap_then_bitmap_test bitmap index k :
  0 <= index -> index / 8 < Z.of_nat (length bitmap) -> 0 <= k ->
  Validator.bitmap_test (Mkfs.set_bitmap bitmap index) k
  = if decide (k = index) then 1 else Validator.bitmap_test bitmap k.
Proof.
  intros Hi Hin Hk.
  assert (0 <= index / 8) as Hq by (apply Z.div_pos; lia).
  assert (0 <= k / 8) as Hqk by (apply Z.div_pos; lia).
  assert (0 <= index mod 8 < 8) as Hr by (apply Z.mod_pos_bound; lia).
  assert (0 <= k mod 8 < 8) as Hrk by (apply Z.mod_pos_bound; lia).
  rewrite !bitmap_test_lookup by assumption.
  unfold Mkfs.set_bitmap. rewrite lookup_put8 by lia.
  destruct (lookup_lt_is_Some_2 bitmap (Z.to_nat (index / 8)) ltac:(lia)) as [b Hb].
  assert (get8 (index / 8) bitmap = Z_of_byte b) as ->.
  { unfold get8. rewrite slice_one, Hb by assumption. simpl. lia. }
  destruct (decide (Z.to_nat (k / 8) = Z.to_nat (index / 8))) as [Hsame|Hother].
  - rewrite mask_set by assumption.
    assert (k / 8 = index / 8) as Hq8 by lia.
    rewrite Hsame, Hb.
    destruct (decide (k mod 8 = index mod 8)) as [Hm|Hm].
    + rewrite decide_True; [reflexivity|].
      rewrite (Z.div_mod k 8), (Z.div_mod index 8) by lia. lia.
    + rewrite decide_False; [reflexivity|]. intros ->. contradiction.
  - rewrite decide_False; [reflexivity|]. intros ->. contradiction.
Qed.

Lemma set_bitmap_then_bitmap_test_witness :
  Validator.bitmap_test (Mkfs.set_bitmap (zeros BLOCK_SIZE) 9) 9
  = if decide (9 = 9) then 1 else Validator.bitmap_test (zeros BLOCK_SIZE) 9.
Proof.
  apply (set_bitmap_then_bitmap_test (zeros BLOCK_SIZE) 9 9); [lia| |lia].
  vm_compute. reflexivity.
Defined.

(** ** The validator and the journal *)

Lemma pread_block_length f b buf :
  Validator.pread_block f b = Some buf -> Z.of_nat (length buf) = BLOCK_SIZE.
Proof.
  unfold Validator.pread_block. cbv zeta. destruct (decide _); [|discriminate].
  intros [= <-]. assumption.
Qed.

Lemma pread_block_Some f b buf :
  Validator.pread_block f b = Some buf -> buf = slice (b * BLOCK_SIZE) BLOCK_SIZE f.
Proof.
  unfold Validator.pread_block. cbv zeta. destruct (decide _); [|discriminate].
  intros [= <-]. reflexivity.
Qed.

(** A block outside the journal reads the same from two images that agree
    outside the journal. *)
Lemma pread_block_same_outside sb f f' blk :
  same_outside_journal sb f' f ->
  0 <= blk ->
  blk < sb_journal_block sb ∨ sb_journal_block sb + JOURNAL_BLOCKS <= blk ->
  Validator.pread_block f' blk = Validator.pread_block f blk.
Proof.
  intros [Hlen Hout] Hpos Hblk. unfold Validator.pread_block. cbv zeta.
  assert (slice (blk * BLOCK_SIZE) BLOCK_SIZE f' = slice (blk * BLOCK_SIZE) BLOCK_SIZE f) as ->;
    [|reflexivity].
  apply list_eq. intros i. rewrite !lookup_slice.
  destruct (decide _) as [Hi|]; [|reflexivity].
  apply Hout. unfold JOURNAL_BLOCKS, BLOCK_SIZE in *. lia.
Qed.

Lemma check_blocks_same f f' ino inode_index inode_used inode_count idxs :
  (forall blk, blk ∈ i_direct ino -> blk ≠ 0 ->
     Validator.pread_block f' blk = Validator.pread_block f blk) ->
  forall bytes_remaining acc,
    Validator.check_blocks f' ino inode_index inode_used inode_count idxs bytes_remaining acc
    = Validator.check_blocks f ino inode_index inode_used inode_count idxs bytes_remaining acc.
Proof.
  intros Hsame. induction idxs as [|i idxs IH]; intros bytes_remaining acc; [reflexivity|].
  cbn [Validator.check_blocks].
  destruct (decide (bytes_remaining > 0)); [|reflexivity].
  cbv zeta.
  destruct (decide (default 0 (i_direct ino !! Z.to_nat i) = 0)) as [|Hblk]; [reflexivity|].
  rewrite Hsame; [|  |exact Hblk].
  - destruct (Validator.pread_block f _); [apply IH|reflexivity].
  - destruct (i_direct ino !! Z.to_nat i) as [blk|] eqn:Hlookup; [|contradiction].
    apply list_elem_of_lookup_2 in Hlookup. exact Hlookup.
Qed.

Lemma check_directory_same f f' ino inode_index inode_used inode_count st :
  (forall blk, blk ∈ i_direct ino -> blk ≠ 0 ->
     Validator.pread_block f' blk = Validator.pread_block f blk) ->
  Validator.check_directory f' ino inode_index inode_used inode_count st
  = Validator.check_directory f ino inode_index inode_used inode_count st.
Proof.
  intros Hsame. unfold Validator.check_directory.
  rewrite (check_blocks_same f f') by exact Hsame. reflexivity.
Qed.

Lemma check_inode_same f f' area inode_bitmap inode_count i acc :
  (i_type (parse_inode area i) = 2 ->
   forall blk, blk ∈ i_direct (parse_inode area i) -> blk ≠ 0 ->
     Validator.pread_block f' blk = Validator.pread_block f blk) ->
  Validator.check_inode f' area inode_bitmap inode_count i acc
  = Validator.check_inode f area inode_bitmap inode_count i acc.
Proof.
  intros Hsame. unfold Validator.check_inode. destruct acc as [st inode_used]. cbv zeta.
  destruct (negb _); [reflexivity|].
  destruct (foldl _ _ _) as [st1 seen].
  destruct (decide (i_type (parse_inode area i) = 2)) as [Hdir|]; [|reflexivity].
  rewrite (check_directory_same f f') by exact (Hsame Hdir). reflexivity.
Qed.

Lemma check_inodes_same f f' area inode_bitmap inode_count idxs :
  (forall i, i ∈ idxs -> i_type (parse_inode area i) = 2 ->
   forall blk, blk ∈ i_direct (parse_inode area i) -> blk ≠ 0 ->
     Validator.pread_block f' blk = Validator.pread_block f blk) ->
  forall acc,
    Validator.check_inodes f' area inode_bitmap inode_count idxs acc
    = Validator.check_inodes f area inode_bitmap inode_count idxs acc.
Proof.
  induction idxs as [|i idxs IH]; intros Hsame acc; [reflexivity|].
  cbn [Validator.check_inodes].
  rewrite (check_inode_same f f') by (apply Hsame; left).
  destruct (Validator.check_inode f _ _ _ _ _) as [acc'|]; [|reflexivity].
  cbn [mbind option_bind]. apply IH. intros k Hk. apply Hsame. right. exact Hk.
Qed.

Lemma get32_nonneg off buf : 0 <= get32 off buf.
Proof. pose proof (get32_range off buf). lia. Qed.

Lemma direct_pointer_nonneg area i blk : blk ∈ i_direct (parse_inode area i) -> 0 <= blk.
Proof.
  unfold parse_inode. cbn [i_direct]. intros H.
  apply list_elem_of_fmap in H as (d & -> & _). apply get32_nonneg.
Qed.

Lemma validator_main_unfold :
  Validator.main
  = ltac:(let t := eval cbv delta [Validator.main] in Validator.main in exact t).
Proof. reflexivity. Qed.

(** The validator reads nothing of the journal unless a directory points
    into it. *)
Lemma validator_same_outside f f' :
  same_outside_journal Mkfs.superblock_image f' f ->
  no_directory_in_journal f ->
  Validator.main f' = Validator.main f.
Proof.
  intros Hsame Hdirs.
  assert (forall blk, 0 <= blk -> blk < JOURNAL_BLOCK_IDX ∨ JOURNAL_BLOCK_IDX + JOURNAL_BLOCKS <= blk ->
            Validator.pread_block f' blk = Validator.pread_block f blk) as Hread.
  { intros blk Hpos Hblk. apply (pread_block_same_outside Mkfs.superblock_image); assumption. }
  rewrite validator_main_unfold. cbv beta.
  rewrite (Hread 0), (Hread INODE_BMAP_IDX), (Hread DATA_BMAP_IDX), (Hread INODE_START_IDX),
    (Hread (INODE_START_IDX + 1)) by (vm_compute; intuition congruence).
  destruct (Validator.pread_block f 0) as [sb_block|]; [|reflexivity].
  destruct (Validator.pread_block f INODE_BMAP_IDX) as [inode_bitmap|]; [|reflexivity].
  destruct (Validator.pread_block f DATA_BMAP_IDX) as [data_bitmap|]; [|reflexivity].
  destruct (Validator.pread_block f INODE_START_IDX) as [itable0|] eqn:H0; [|reflexivity].
  destruct (Validator.pread_block f (INODE_START_IDX + 1)) as [itable1|] eqn:H1; [|reflexivity].
  cbv zeta.
  destruct (decide (sb_inode_count (parse_superblock sb_block) > _)) as [|Hcount]; [reflexivity|].
  rewrite (check_inodes_same f f'); [reflexivity|].
  intros i Hi Hdir blk Hblk Hnz.
  assert (itable0 ++ itable1 = inode_area f) as Harea.
  { apply pread_block_Some in H0, H1. rewrite H0, H1. unfold inode_area. reflexivity. }
  rewrite Harea in *.
  apply Hread; [apply (direct_pointer_nonneg _ _ _ Hblk)|].
  apply (Hdirs i blk); try assumption.
  apply elem_of_zseq in Hi. lia.
Qed.

(** X13: create does not change what the validator reports: on an image
    with the compiled-in journal position and no directory that points into
    the journal, the validator gives the same result after a successful
    create as before it. *)
Theorem validator_unchanged_by_create sb filename f c f' :
  sb_journal_block sb = JOURNAL_BLOCK_IDX ->
  journal_readable sb f ->
  no_directory_in_journal f ->
  Journal.do_create sb filename f = Ok (Journal.Created c) f' ->
  Validator.main f' = Validator.main f.
Proof.
  intros Hjb Hr Hdirs Hrun.
  assert (journal_addressable sb) as Ha
    by (unfold journal_addressable; rewrite Hjb; vm_compute; intuition congruence).
  pose proof (do_create_same_outside sb filename f c f' Ha Hr Hrun) as Hsame.
  apply validator_same_outside; [|assumption].
  unfold same_outside_journal in *. rewrite Hjb in Hsame. exact Hsame.
Qed.

Lemma no_directory_in_journal_by_evaluation f :
  forallb (fun i =>
             if decide (i_type (parse_inode (inode_area f) i) = 2) then
               forallb (fun blk => bool_decide (blk < JOURNAL_BLOCK_IDX
                                                ∨ JOURNAL_BLOCK_IDX + JOURNAL_BLOCKS <= blk))
                 (i_direct (parse_inode (inode_area f) i))
             else true)
    (zseq 0 (INODE_BLOCKS * (BLOCK_SIZE / INODE_SIZE))) = true ->
  no_directory_in_journal f.
Proof.
  intros H i blk Hi Hdir Hblk.
  rewrite forallb_forall in H.
  specialize (H i). cbv beta in H.
  rewrite decide_True in H by exact Hdir.
  assert (In i (zseq 0 (INODE_BLOCKS * (BLOCK_SIZE / INODE_SIZE)))) as Hin.
  { apply list_elem_of_In, elem_of_zseq. change (INODE_BLOCKS * (BLOCK_SIZE / INODE_SIZE)) with 64 in *. lia. }
  specialize (H Hin). rewrite forallb_forall in H.
  specialize (H blk (proj1 (list_elem_of_In _ _) Hblk)).
  apply bool_decide_eq_true in H. exact H.
Qed.

Lemma fresh_no_directory_in_journal : no_directory_in_journal Samples.fresh.
Proof. apply no_directory_in_journal_by_evaluation. vm_compute. reflexivity. Qed.

Lemma validator_unchanged_by_create_witness :
  Validator.main CreateSamples.created_a = Validator.main Samples.fresh.
Proof.
  exact (validator_unchanged_by_create Samples.sb0 [x61] Samples.fresh 1 CreateSamples.created_a
           ltac:(reflexivity) fresh_journal_readable fresh_no_directory_in_journal
           create_a_runs).
Defined.

(** X14: the validator needs the first twenty-one blocks: on an image
    shorter than the end of the inode table it dies on a short read and
    reports nothing. *)
Theorem validator_dies_on_a_truncated_image f :
  Z.of_nat (length f) < (INODE_START_IDX + INODE_BLOCKS) * BLOCK_SIZE ->
  Validator.main f = Validator.Die.
Proof.
  intros Hshort.
  assert (Validator.pread_block f (INODE_START_IDX + 1) = None) as Hlast.
  { destruct (Validator.pread_block f (INODE_START_IDX + 1)) as [buf|] eqn:Hread; [|reflexivity].
    pose proof (pread_block_length _ _ _ Hread) as Hlen.
    apply pread_block_Some in Hread. subst buf.
    apply length_slice_full_inv in Hlen; [|vm_compute; congruence|reflexivity].
    exfalso. revert Hshort Hlen.
    change ((INODE_START_IDX + 1) * BLOCK_SIZE + BLOCK_SIZE)
      with ((INODE_START_IDX + INODE_BLOCKS) * BLOCK_SIZE).
    lia. }
  rewrite validator_main_unfold. cbv beta. rewrite Hlast.
  destruct (Validator.pread_block f 0); [|reflexivity].
  destruct (Validator.pread_block f INODE_BMAP_IDX); [|reflexivity].
  destruct (Validator.pread_block f DATA_BMAP_IDX); [|reflexivity].
  destruct (Validator.pread_block f INODE_START_IDX); reflexivity.
Qed.

Lemma validator_dies_on_a_truncated_image_witness :
  Validator.main (take 4096 Samples.fresh) = Validator.Die.
Proof.
  apply validator_dies_on_a_truncated_image. rewrite length_take. vm_compute. reflexivity.
Defined.

(** ** Directories *)

Lemma c_string_head buf c rest : Validator.c_string buf = c :: rest -> buf !! 0%nat = Some c ∧ c ≠ x00.
Proof.
  destruct buf as [|b buf]; [discriminate|]. cbn [Validator.c_string].
  destruct (decide (b = x00)); [discriminate|]. intros [= -> _]. split; [reflexivity|assumption].
Qed.

(** One directory entry: errors are only added, a flag is only raised by
    an entry of that name, and a "." that names another inode is reported. *)
Lemma check_entry_spec inode_index inode_used inode_count block e st fl st' fl' :
  Validator.check_entry inode_index inode_used inode_count block e (st, fl) = (st', fl') ->
  Validator.error_count st <= Validator.error_count st'
  ∧ (Validator.saw_dot fl' = true ->
     Validator.saw_dot fl = true
     ∨ is_dot (Validator.dirent_inode block e, Validator.dirent_name block e))
  ∧ (Validator.saw_dotdot fl' = true ->
     Validator.saw_dotdot fl = true
     ∨ is_dotdot (Validator.dirent_inode block e, Validator.dirent_name block e))
  ∧ (is_dot (Validator.dirent_inode block e, Validator.dirent_name block e) ->
     Validator.dirent_inode block e ≠ inode_index ->
     Validator.error_count st < Validator.error_count st').
Proof.
  unfold Validator.check_entry, is_dot, is_dotdot. cbv zeta. cbn [fst snd].
  set (de_inode := Validator.dirent_inode block e).
  set (de_name := Validator.dirent_name block e).
  assert (forall v s, Validator.error_count (Validator.report_error v s)
                      = Validator.error_count s + 1) as Hrep by apply error_count_report.
  destruct (decide (de_inode = 0 ∧ de_name !! 0%nat = Some x00)) as [[_ Hzero]|_].
  { intros [= <- <-]. repeat split; auto; try lia.
    intros Hdot. apply c_string_head in Hdot as [Hhd Hne]. congruence. }
  destruct (decide (de_inode >= inode_count)).
  { intros [= <- <-]. rewrite Hrep. repeat split; auto; lia. }
  set (st1 := if decide (inode_used !! Z.to_nat de_inode = Some true) then st
              else Validator.report_error (Validator.DirEntryFreeInode inode_index de_inode) st).
  assert (Validator.error_count st <= Validator.error_count st1) as H1.
  { unfold st1. destruct (decide _); [lia|rewrite Hrep; lia]. }
  destruct (decide (x00 ∉ de_name)).
  { intros [= <- <-]. rewrite Hrep. repeat split; auto; lia. }
  destruct (decide (de_name !! 0%nat = Some x00)).
  { intros [= <- <-]. rewrite Hrep. repeat split; auto; lia. }
  destruct (decide (Validator.c_string de_name = [x2e])) as [Hdot|Hnodot].
  - destruct (decide (de_inode ≠ inode_index)) as [Hother|Hself].
    + intros [= <- <-]. rewrite Hrep. cbn [Validator.saw_dot Validator.saw_dotdot].
      unfold Validator.error_count at 2 4. cbn [Validator.errors].
      fold (Validator.error_count st1). repeat split; auto; lia.
    + intros [= <- <-]. cbn [Validator.saw_dot Validator.saw_dotdot].
      unfold Validator.error_count at 2 4. cbn [Validator.errors].
      fold (Validator.error_count st1). repeat split; auto; try lia; try (intros; contradiction).
  - destruct (decide (Validator.c_string de_name = [x2e; x2e])) as [Hdd|Hnodd].
    + intros [= <- <-]. cbn [Validator.saw_dot Validator.saw_dotdot].
      unfold Validator.error_count at 2 4. cbn [Validator.errors].
      fold (Validator.error_count st1). repeat split; auto; try lia; try (intros; contradiction).
    + intros [= <- <-].
      unfold Validator.error_count at 2 4. cbn [Validator.errors].
      fold (Validator.error_count st1). repeat split; auto; try lia; try (intros; contradiction).
Qed.

Lemma check_entries_spec inode_index inode_used inode_count block es :
  forall st fl st' fl',
    foldl (fun a e => Validator.check_entry inode_index inode_used inode_count block e a)
      (st, fl) es = (st', fl') ->
    Validator.error_count st <= Validator.error_count st'
    ∧ (Validator.saw_dot fl' = true ->
       Validator.saw_dot fl = true
       ∨ exists e, e ∈ es
                   ∧ is_dot (Validator.dirent_inode block e, Validator.dirent_name block e))
    ∧ (Validator.saw_dotdot fl' = true ->
       Validator.saw_dotdot fl = true
       ∨ exists e, e ∈ es
                   ∧ is_dotdot (Validator.dirent_inode block e, Validator.dirent_name block e))
    ∧ (forall e, e ∈ es ->
       is_dot (Validator.dirent_inode block e, Validator.dirent_name block e) ->
       Validator.dirent_inode block e ≠ inode_index ->
       Validator.error_count st < Validator.error_count st').
Proof.
  induction es as [|e es IH]; intros st fl st' fl' Hrun.
  - injection Hrun as <- <-. repeat split; auto; try lia.
    intros e He. inversion He.
  - cbn [foldl] in Hrun.
    destruct (Validator.check_entry inode_index inode_used inode_count block e (st, fl))
      as [st1 fl1] eqn:Hone.
    apply check_entry_spec in Hone as (Hm1 & Hd1 & Hdd1 & Hr1).
    apply IH in Hrun as (Hm & Hd & Hdd & Hr).
    split; [lia|]. split; [|split].
    + intros Hf. destruct (Hd Hf) as [H1|(e' & He' & Hdot)].
      * destruct (Hd1 H1) as [H0|Hdot]; [left; exact H0|].
        right. exists e. split; [left|exact Hdot].
      * right. exists e'. split; [right; exact He'|exact Hdot].
    + intros Hf. destruct (Hdd Hf) as [H1|(e' & He' & Hdot)].
      * destruct (Hdd1 H1) as [H0|Hdot]; [left; exact H0|].
        right. exists e. split; [left|exact Hdot].
      * right. exists e'. split; [right; exact He'|exact Hdot].
    + intros e' He' Hdot Hne. apply elem_of_cons in He' as [->|He'].
      * specialize (Hr1 Hdot Hne). lia.
      * specialize (Hr e' He' Hdot Hne). lia.
Qed.

(** The loop over the direct pointers against the entries it covers. *)
Lemma check_blocks_spec f ino inode_index inode_used inode_count idxs :
  forall bytes_remaining st fl,
    match Validator.check_blocks f ino inode_index inode_used inode_count idxs
            bytes_remaining (st, fl) with
    | Validator.LoopDone _ (st', fl') =>
        Validator.error_count st <= Validator.error_count st'
        ∧ (Validator.saw_dot fl' = true ->
           Validator.saw_dot fl = true
           ∨ exists entry, entry ∈ dir_entries_from f ino idxs bytes_remaining ∧ is_dot entry)
        ∧ (Validator.saw_dotdot fl' = true ->
           Validator.saw_dotdot fl = true
           ∨ exists entry, entry ∈ dir_entries_from f ino idxs bytes_remaining ∧ is_dotdot entry)
        ∧ (forall entry, entry ∈ dir_entries_from f ino idxs bytes_remaining ->
           is_dot entry -> entry.1 ≠ inode_index ->
           Validator.error_count st < Validator.error_count st')
    | Validator.Returned st' => Validator.error_count st < Validator.error_count st'
    | Validator.Died => True
    end.
Proof.
  induction idxs as [|i idxs IH]; intros bytes_remaining st fl.
  - cbn [Validator.check_blocks dir_entries_from].
    repeat split; auto; try lia. intros entry He. inversion He.
  - cbn [Validator.check_blocks dir_entries_from].
    destruct (decide (bytes_remaining > 0)).
    2:{ repeat split; auto; try lia. intros entry He. inversion He. }
    cbv zeta.
    destruct (decide (default 0 (i_direct ino !! Z.to_nat i) = 0)).
    { cbn [fst]. rewrite error_count_report. lia. }
    destruct (Validator.pread_block f _) as [block|]; [|exact I].
    set (chunk := if decide (bytes_remaining > BLOCK_SIZE) then BLOCK_SIZE else bytes_remaining).
    destruct (foldl _ (st, fl) (zseq 0 (chunk / DIRENT_SIZE))) as [st1 fl1] eqn:Hfold.
    apply check_entries_spec in Hfold as (Hm1 & Hd1 & Hdd1 & Hr1).
    specialize (IH (bytes_remaining - chunk) st1 fl1).
    destruct (Validator.check_blocks f ino inode_index inode_used inode_count idxs
                (bytes_remaining - chunk) (st1, fl1)) as [br' [st' fl']|st'|]; [| lia | exact I].
    destruct IH as (Hm & Hd & Hdd & Hr).
    split; [lia|]. split; [|split].
    + intros Hf. destruct (Hd Hf) as [H1|(entry & He & Hdot)].
      * destruct (Hd1 H1) as [H0|(e & He & Hdot)]; [left; exact H0|].
        right. eexists. split; [|exact Hdot].
        apply elem_of_app. left. apply list_elem_of_fmap. exists e. split; [reflexivity|exact He].
      * right. exists entry. split; [|exact Hdot]. apply elem_of_app. right. exact He.
    + intros Hf. destruct (Hdd Hf) as [H1|(entry & He & Hdot)].
      * destruct (Hdd1 H1) as [H0|(e & He & Hdot)]; [left; exact H0|].
        right. eexists. split; [|exact Hdot].
        apply elem_of_app. left. apply list_elem_of_fmap. exists e. split; [reflexivity|exact He].
      * right. exists entry. split; [|exact Hdot]. apply elem_of_app. right. exact He.
    + intros entry He Hdot Hne. apply elem_of_app in He as [He|He].
      * apply list_elem_of_fmap in He as (e & -> & He).
        specialize (Hr1 e He Hdot Hne). lia.
      * specialize (Hr entry He Hdot Hne). lia.
Qed.

(** X15: a directory with entries but without "." or without ".." is
    reported: when [check_directory] returns for an inode of positive size
    none of whose entries is named ".", or none of whose entries is named
    "..", it has added a violation. *)
Theorem directory_without_dot_entries_is_reported f ino inode_index inode_used inode_count st st' :
  Validator.check_directory f ino inode_index inode_used inode_count st = Some st' ->
  i_size ino > 0 ->
  (forall entry, entry ∈ dir_entries f ino -> ¬ is_dot entry)
  ∨ (forall entry, entry ∈ dir_entries f ino -> ¬ is_dotdot entry) ->
  Validator.error_count st < Validator.error_count st'.
Proof.
  unfold Validator.check_directory, dir_entries. intros Hrun Hsize Hnone.
  destruct (decide (i_size ino mod DIRENT_SIZE ≠ 0)).
  { injection Hrun as <-. rewrite error_count_report. lia. }
  pose proof (check_blocks_spec f ino inode_index inode_used inode_count
                (zseq 0 DIRECT_POINTERS) (i_size ino) st
                {| Validator.saw_dot := false; Validator.saw_dotdot := false |}) as Hspec.
  destruct (Validator.check_blocks _ _ _ _ _ _ _ _) as [br [st1 fl1]|st1|]; [| |discriminate].
  2:{ injection Hrun as <-. exact Hspec. }
  destruct Hspec as (Hm & Hd & Hdd & _). cbn [Validator.saw_dot Validator.saw_dotdot] in *.
  rewrite decide_True in Hrun by assumption.
  injection Hrun as <-.
  set (st2 := if decide (br ≠ 0) then _ else st1).
  assert (Validator.error_count st1 <= Validator.error_count st2) as H2.
  { unfold st2. destruct (decide _); [rewrite error_count_report|]; lia. }
  destruct Hnone as [Hnodot|Hnodotdot].
  - destruct (Validator.saw_dot fl1) eqn:Hsaw.
    + destruct (Hd eq_refl) as [?|(entry & He & Hdot)]; [discriminate|].
      exfalso. exact (Hnodot entry He Hdot).
    + destruct (Validator.saw_dotdot fl1); rewrite ?error_count_report; lia.
  - destruct (Validator.saw_dotdot fl1) eqn:Hsaw.
    + destruct (Hdd eq_refl) as [?|(entry & He & Hdot)]; [discriminate|].
      exfalso. exact (Hnodotdot entry He Hdot).
    + destruct (Validator.saw_dot fl1); rewrite ?error_count_report; lia.
Qed.

(** X16: a "." entry must name its own directory: when [check_directory]
    returns for a directory that has an entry named "." with another inode
    number, it has added a violation. *)
Theorem dot_entry_naming_another_inode_is_reported f ino inode_index inode_used inode_count
    st st' entry :
  Validator.check_directory f ino inode_index inode_used inode_count st = Some st' ->
  entry ∈ dir_entries f ino -> is_dot entry -> entry.1 ≠ inode_index ->
  Validator.error_count st < Validator.error_count st'.
Proof.
  unfold Validator.check_directory, dir_entries. intros Hrun He Hdot Hne.
  destruct (decide (i_size ino mod DIRENT_SIZE ≠ 0)).
  { injection Hrun as <-. rewrite error_count_report. lia. }
  pose proof (check_blocks_spec f ino inode_index inode_used inode_count
                (zseq 0 DIRECT_POINTERS) (i_size ino) st
                {| Validator.saw_dot := false; Validator.saw_dotdot := false |}) as Hspec.
  destruct (Validator.check_blocks _ _ _ _ _ _ _ _) as [br [st1 fl1]|st1|]; [| |discriminate].
  2:{ injection Hrun as <-. exact Hspec. }
  destruct Hspec as (_ & _ & _ & Hr). specialize (Hr entry He Hdot Hne).
  set (st2 := if decide (br ≠ 0) then _ else st1) in Hrun.
  assert (Validator.error_count st1 <= Validator.error_count st2) as H2.
  { unfold st2. destruct (decide _); [rewrite error_count_report|]; lia. }
  destruct (decide (i_size ino > 0)); injection Hrun as <-; [|lia].
  destruct (Validator.saw_dot fl1), (Validator.saw_dotdot fl1);
    rewrite ?error_count_report; lia.
Qed.

Lemma no_dots_checked :
  Validator.check_directory DirRuns.no_dots (DirSamples.root_inode_of DirRuns.no_dots) 0
    DirRuns.used0 (sb_inode_count Samples.sb0) (initial_state Samples.sb0)
  = Some (DirRuns.checked DirRuns.no_dots).
Proof. vm_compute. reflexivity. Qed.

Lemma no_dots_entries :
  dir_entries DirRuns.no_dots (DirSamples.root_inode_of DirRuns.no_dots)
  = [(0, replicate 28 x00); (0, replicate 28 x00)].
Proof. vm_compute. reflexivity. Qed.

Lemma foreign_dot_checked :
  Validator.check_directory DirRuns.foreign_dot (DirSamples.root_inode_of DirRuns.foreign_dot) 0
    DirRuns.used0 (sb_inode_count Samples.sb0) (initial_state Samples.sb0)
  = Some (DirRuns.checked DirRuns.foreign_dot).
Proof. vm_compute. reflexivity. Qed.

Lemma foreign_dot_entries :
  dir_entries DirRuns.foreign_dot (DirSamples.root_inode_of DirRuns.foreign_dot)
  = [(1, Journal.strncpy 27 [x2e] ++ [x00]); (0, Journal.strncpy 27 [x2e; x2e] ++ [x00])].
Proof. vm_compute. reflexivity. Qed.

Lemma directory_without_dot_entries_is_reported_witness :
  Validator.error_count (initial_state Samples.sb0)
  < Validator.error_count (DirRuns.checked DirRuns.no_dots).
Proof.
  apply (directory_without_dot_entries_is_reported DirRuns.no_dots
           (DirSamples.root_inode_of DirRuns.no_dots) 0 DirRuns.used0
           (sb_inode_count Samples.sb0) (initial_state Samples.sb0)
           (DirRuns.checked DirRuns.no_dots) no_dots_checked).
  - vm_compute. reflexivity.
  - left. intros entry He. rewrite no_dots_entries in He.
    apply elem_of_cons in He as [->|He]; [|apply elem_of_cons in He as [->|He]; [|inversion He]];
      unfold is_dot; vm_compute; discriminate.
Defined.

Lemma dot_entry_naming_another_inode_is_reported_witness :
  Validator.error_count (initial_state Samples.sb0)
  < Validator.error_count (DirRuns.checked DirRuns.foreign_dot).
Proof.
  apply (dot_entry_naming_another_inode_is_reported DirRuns.foreign_dot
           (DirSamples.root_inode_of DirRuns.foreign_dot) 0 DirRuns.used0
           (sb_inode_count Samples.sb0) (initial_state Samples.sb0)
           (DirRuns.checked DirRuns.foreign_dot)
           (1, Journal.strncpy 27 [x2e] ++ [x00]) foreign_dot_checked).
  - rewrite foreign_dot_entries. left.
  - reflexivity.
  - cbn [fst]. lia.
Defined.

(** ** Stray bits *)

Lemma find_first {A} (p : A -> bool) (l : list A) x :
  List.find p l = Some x ->
  exists l1 l2, l = l1 ++ x :: l2 ∧ p x = true ∧ forall y, y ∈ l1 -> p y = false.
Proof.
  induction l as [|a l IH]; [discriminate|]. simpl.
  destruct (p a) eqn:Hpa.
  - intros [= ->]. exists [], l. split; [reflexivity|]. split; [assumption|].
    intros y Hy. inversion Hy.
  - intros Hfind. destruct (IH Hfind) as (l1 & l2 & -> & Hx & Hbefore).
    exists (a :: l1), l2. split; [reflexivity|]. split; [assumption|].
    intros y Hy. apply elem_of_cons in Hy as [->|Hy]; [assumption|apply Hbefore, Hy].
Qed.

Lemma zseq_from_split lo n l1 x l2 :
  zseq_from lo n = l1 ++ x :: l2 -> x = lo + Z.of_nat (length l1).
Proof.
  revert lo l1. induction n as [|n IH]; intros lo l1; simpl.
  - destruct l1; discriminate.
  - destruct l1 as [|a l1]; simpl.
    + intros [= -> _]. lia.
    + intros [= _ Hrest]. apply IH in Hrest. lia.
Qed.

Lemma zseq_from_prefix lo n l1 l2 y :
  zseq_from lo n = l1 ++ l2 -> lo <= y < lo + Z.of_nat (length l1) -> y ∈ l1.
Proof.
  revert lo l1. induction n as [|n IH]; intros lo l1; simpl.
  - destruct l1; [simpl; lia|discriminate].
  - destruct l1 as [|a l1]; simpl; [lia|].
    intros [= <- Hrest] Hy.
    destruct (decide (y = lo)) as [->|Hne]; [left|].
    right. apply (IH (lo + 1)); [assumption|lia].
Qed.

(** X17: the scan for stray bits stops at the first one: it adds no
    violation when every bit from [valid_bits] to the end of the block is
    clear, and otherwise exactly one, which names the lowest set bit. *)
Theorem zero_tail_reports_the_first_stray_bit bitmap valid_bits name st :
  let st' := Validator.bitmap_check_zero_tail bitmap valid_bits name st in
  (Validator.errors st' = Validator.errors st
   ∧ forall bit, valid_bits <= bit < BLOCK_SIZE * 8 -> Validator.bitmap_test bitmap bit = 0)
  ∨ exists bit,
      valid_bits <= bit < BLOCK_SIZE * 8
      ∧ Validator.bitmap_test bitmap bit ≠ 0
      ∧ (forall k, valid_bits <= k < bit -> Validator.bitmap_test bitmap k = 0)
      ∧ Validator.errors st' = Validator.errors st ++ [Validator.StrayBit name bit].
Proof.
  unfold Validator.bitmap_check_zero_tail. cbv zeta.
  destruct (List.find _ _) as [bit|] eqn:Hfind.
  - right. exists bit.
    pose proof (find_some _ _ Hfind) as [Hin Hset].
    apply list_elem_of_In, elem_of_zseq in Hin.
    apply bool_decide_eq_true in Hset.
    apply find_first in Hfind as (l1 & l2 & Hsplit & _ & Hbefore).
    split; [lia|]. split; [assumption|]. split; [|reflexivity].
    intros k Hk.
    pose proof (zseq_from_split _ _ _ _ _ Hsplit) as Hbit.
    assert (k ∈ l1) as Hk1.
    { apply (zseq_from_prefix valid_bits (Z.to_nat (BLOCK_SIZE * 8 - valid_bits)) l1 (bit :: l2));
        [exact Hsplit|lia]. }
    specialize (Hbefore k Hk1). apply bool_decide_eq_false in Hbefore.
    destruct (decide (Validator.bitmap_test bitmap k = 0)); [assumption|contradiction].
  - left. split; [reflexivity|]. intros bit Hbit.
    pose proof (find_none _ _ Hfind bit) as Hclear.
    destruct (decide (Validator.bitmap_test bitmap bit = 0)) as [|Hset]; [assumption|].
    exfalso.
    assert (In bit (zseq valid_bits (BLOCK_SIZE * 8 - valid_bits))) as Hin
      by (apply list_elem_of_In, elem_of_zseq; lia).
    specialize (Hclear Hin). cbv beta in Hclear.
    apply bool_decide_eq_false in Hclear. contradiction.
Qed.
